(** * go-jwlm: the row model, FK rewriting and the merge driver

    A shallow embedding of the parts of go-jwlm that renumber rows and
    rewrite foreign keys:

    - package [model]: the structs [Location] and [Bookmark] with their
      methods, and the generic helpers [UpdateIDs], [sortByUniqueKey] and
      [MakeModelSlice] of model.go, which work by reflection;
    - package [cmd]: the driver [merge] of cmd/merge.go with its conflict
      loops and [handleMergeConflict].

    Package [merger] and the structs of the other tables are not among the
    sources: the driver takes the merge functions as parameters, and what is
    written down of [UserMark], [Note], [TagMap], [merger.UpdateIDs] and the
    merge of the locations comes from the tests that are among the sources
    and from the spec, and says so.

    Conventions.  A Go [int] is a [Z] (the code does no arithmetic on IDs,
    it only copies and compares them); an [int32] slot is a [Z] too, and the
    one place where the code narrows an [int] to 32 bits ([SetInt] on the
    [Int32] slot of a [sql.NullInt32]) spells the truncation out.  A slice
    [[]*T] is a [list (option T)]: [None] is the nil pointer, and every
    [Some] is a row of its own (no pointer occurs twice in a slice).  A
    [map[int]int] is a [gmap Z Z].  A function that updates a slice in place
    returns the new content of the slice. *)

From Stdlib Require Import ZArith String Ascii DecimalString DecimalZ DecimalPos.
From stdpp Require Import base option list gmap strings sorting.

Local Open Scope Z_scope.
Local Open Scope string_scope.

(** ** Go values used by the model *)

(** [database/sql]'s nullable columns: a value slot and a present bit. *)
Module NullInt32.
Record t : Type := mk { Int32 : Z; Valid : bool }.
Definition zero : t := mk 0 false.
End NullInt32.

Module NullString.
Record t : Type := mk { String : string; Valid : bool }.
Definition zero : t := mk "" false.
End NullString.

(** The conversion [int32(x)] of a wider integer: two's complement
    truncation to 32 bits. *)
Definition int32 (x : Z) : Z := (x + 2 ^ 31) mod 2 ^ 32 - 2 ^ 31.

(** [strconv.FormatInt(x, 10)]. *)
Definition FormatInt (x : Z) : string := NilZero.string_of_int (Z.to_int x).

(** A call either returns or panics with a message. *)
Inductive Result (A : Type) : Type :=
| Ok (a : A)
| Panic (msg : string).
Arguments Ok {A} a.
Arguments Panic {A} msg.

#[global] Instance Result_ret : MRet Result := fun A a => Ok a.
#[global] Instance Result_bind : MBind Result := fun A B k r =>
  match r with
  | Ok a => k a
  | Panic msg => Panic msg
  end.

(** ** Reflection

    [reflect.Value.FieldByName] on a struct: the field's dynamic type with
    the accessors that type allows.  [None] is the invalid [reflect.Value] of
    an unknown name.  Fields of any other type keep their [%T] name only. *)
Inductive Field (T : Type) : Type :=
| FInt (get : T -> Z) (set : Z -> T -> T)
| FNullInt32 (get : T -> NullInt32.t) (set : NullInt32.t -> T -> T)
| FString (get : T -> string)
| FNullString (get : T -> NullString.t)
| FOther (typeName : string).
Arguments FInt {T} get set.
Arguments FNullInt32 {T} get set.
Arguments FString {T} get.
Arguments FNullString {T} get.
Arguments FOther {T} typeName.

(** What [%T] prints for the field. *)
Definition typeName {T} (f : Field T) : string :=
  match f with
  | FInt _ _ => "int"
  | FNullInt32 _ _ => "sql.NullInt32"
  | FString _ => "string"
  | FNullString _ => "sql.NullString"
  | FOther n => n
  end.

Class Struct (T : Type) : Type := FieldByName : string -> option (Field T).
#[global] Hint Mode Struct ! : typeclass_instances.

(** A struct type is described by its fields in the order of the
    declaration; [FieldByName] finds a field by its name. *)
Fixpoint lookupField {T : Type} (fields : list (string * Field T))
    (name : string) : option (Field T) :=
  match fields with
  | [] => None
  | (n, f) :: fields' =>
      if String.eqb n name then Some f else lookupField fields' name
  end.

(** Writing a field and reading it back gives what was written, and a
    write that stores what is there changes nothing: true of every Go
    struct. *)
Class LawfulStruct (T : Type) `{Struct T} : Prop := {
  int_get_set : forall name (get : T -> Z) set v e,
    FieldByName name = Some (FInt get set) -> get (set v e) = v;
  int_set_get : forall name (get : T -> Z) set e,
    FieldByName name = Some (FInt get set) -> set (get e) e = e;
  null_get_set : forall name (get : T -> NullInt32.t) set v e,
    FieldByName name = Some (FNullInt32 get set) -> get (set v e) = v;
  null_set_get : forall name (get : T -> NullInt32.t) set e,
    FieldByName name = Some (FNullInt32 get set) -> set (get e) e = e
}.

(** The [interface{}] arguments that the helpers of model.go inspect with
    [reflect.TypeOf(_).Kind()]. *)
Inductive Arg (T : Type) : Type :=
| Nil                               (* the nil interface *)
| Slice (s : list (option T))       (* []*T *)
| PtrToSlice (s : list (option T))  (* *[]*T *)
| StructVal (v : T)                 (* T *)
| Ptr (p : option T).               (* *T *)
Arguments Nil {T}.
Arguments Slice {T} s.
Arguments PtrToSlice {T} s.
Arguments StructVal {T} v.
Arguments Ptr {T} p.

(** ** model/Bookmark.go *)
Module Bookmark.

Record t : Type := mk {
  BookmarkID : Z;
  LocationID : Z;
  PublicationLocationID : Z;
  Slot : Z;
  Title : string;
  Snippet : NullString.t;
  BlockType : Z;
  BlockIdentifier : NullInt32.t
}.

(** [Bookmark{}] *)
Definition zero : t := mk 0 0 0 0 "" NullString.zero 0 NullInt32.zero.

Definition set_BookmarkID (v : Z) (m : t) : t :=
  mk v (LocationID m) (PublicationLocationID m) (Slot m) (Title m)
     (Snippet m) (BlockType m) (BlockIdentifier m).
Definition set_LocationID (v : Z) (m : t) : t :=
  mk (BookmarkID m) v (PublicationLocationID m) (Slot m) (Title m)
     (Snippet m) (BlockType m) (BlockIdentifier m).
Definition set_PublicationLocationID (v : Z) (m : t) : t :=
  mk (BookmarkID m) (LocationID m) v (Slot m) (Title m)
     (Snippet m) (BlockType m) (BlockIdentifier m).
Definition set_Slot (v : Z) (m : t) : t :=
  mk (BookmarkID m) (LocationID m) (PublicationLocationID m) v (Title m)
     (Snippet m) (BlockType m) (BlockIdentifier m).
Definition set_BlockType (v : Z) (m : t) : t :=
  mk (BookmarkID m) (LocationID m) (PublicationLocationID m) (Slot m)
     (Title m) (Snippet m) v (BlockIdentifier m).
Definition set_BlockIdentifier (v : NullInt32.t) (m : t) : t :=
  mk (BookmarkID m) (LocationID m) (PublicationLocationID m) (Slot m)
     (Title m) (Snippet m) (BlockType m) v.

Definition ID (m : t) : Z := BookmarkID m.
Definition SetID (id : Z) (m : t) : t := set_BookmarkID id m.

Definition UniqueKey (m : t) : string :=
  FormatInt (PublicationLocationID m) +:+ "_" +:+ FormatInt (Slot m).

Definition fields : list (string * Field t) :=
  [
    ("BookmarkID", FInt BookmarkID set_BookmarkID);
    ("LocationID", FInt LocationID set_LocationID);
    ("PublicationLocationID",
       FInt PublicationLocationID set_PublicationLocationID);
    ("Slot", FInt Slot set_Slot);
    ("Title", FString Title);
    ("Snippet", FNullString Snippet);
    ("BlockType", FInt BlockType set_BlockType);
    ("BlockIdentifier", FNullInt32 BlockIdentifier set_BlockIdentifier)
  ].

End Bookmark.

#[global] Instance Bookmark_Struct : Struct Bookmark.t :=
  lookupField Bookmark.fields.

(** ** model/Location.go *)
Module Location.

Record t : Type := mk {
  LocationID : Z;
  BookNumber : NullInt32.t;
  ChapterNumber : NullInt32.t;
  DocumentID : NullInt32.t;
  Track : NullInt32.t;
  IssueTagNumber : Z;
  KeySymbol : NullString.t;
  MepsLanguage : Z;
  LocationType : Z;
  Title : NullString.t
}.

(** [Location{}] *)
Definition zero : t :=
  mk 0 NullInt32.zero NullInt32.zero NullInt32.zero NullInt32.zero 0
     NullString.zero 0 0 NullString.zero.

Definition set_LocationID (v : Z) (m : t) : t :=
  mk v (BookNumber m) (ChapterNumber m) (DocumentID m) (Track m)
     (IssueTagNumber m) (KeySymbol m) (MepsLanguage m) (LocationType m)
     (Title m).
Definition set_BookNumber (v : NullInt32.t) (m : t) : t :=
  mk (LocationID m) v (ChapterNumber m) (DocumentID m) (Track m)
     (IssueTagNumber m) (KeySymbol m) (MepsLanguage m) (LocationType m)
     (Title m).
Definition set_ChapterNumber (v : NullInt32.t) (m : t) : t :=
  mk (LocationID m) (BookNumber m) v (DocumentID m) (Track m)
     (IssueTagNumber m) (KeySymbol m) (MepsLanguage m) (LocationType m)
     (Title m).
Definition set_DocumentID (v : NullInt32.t) (m : t) : t :=
  mk (LocationID m) (BookNumber m) (ChapterNumber m) v (Track m)
     (IssueTagNumber m) (KeySymbol m) (MepsLanguage m) (LocationType m)
     (Title m).
Definition set_Track (v : NullInt32.t) (m : t) : t :=
  mk (LocationID m) (BookNumber m) (ChapterNumber m) (DocumentID m) v
     (IssueTagNumber m) (KeySymbol m) (MepsLanguage m) (LocationType m)
     (Title m).
Definition set_IssueTagNumber (v : Z) (m : t) : t :=
  mk (LocationID m) (BookNumber m) (ChapterNumber m) (DocumentID m)
     (Track m) v (KeySymbol m) (MepsLanguage m) (LocationType m) (Title m).
Definition set_KeySymbol (v : NullString.t) (m : t) : t :=
  mk (LocationID m) (BookNumber m) (ChapterNumber m) (DocumentID m)
     (Track m) (IssueTagNumber m) v (MepsLanguage m) (LocationType m)
     (Title m).
Definition set_MepsLanguage (v : Z) (m : t) : t :=
  mk (LocationID m) (BookNumber m) (ChapterNumber m) (DocumentID m)
     (Track m) (IssueTagNumber m) (KeySymbol m) v (LocationType m) (Title m).
Definition set_LocationType (v : Z) (m : t) : t :=
  mk (LocationID m) (BookNumber m) (ChapterNumber m) (DocumentID m)
     (Track m) (IssueTagNumber m) (KeySymbol m) (MepsLanguage m) v (Title m).
Definition set_Title (v : NullString.t) (m : t) : t :=
  mk (LocationID m) (BookNumber m) (ChapterNumber m) (DocumentID m)
     (Track m) (IssueTagNumber m) (KeySymbol m) (MepsLanguage m)
     (LocationType m) v.

Definition ID (m : t) : Z := LocationID m.
Definition SetID (id : Z) (m : t) : t := set_LocationID id m.

Definition UniqueKey (m : t) : string :=
  FormatInt (NullInt32.Int32 (BookNumber m)) +:+ "_" +:+
  FormatInt (NullInt32.Int32 (ChapterNumber m)) +:+ "_" +:+
  FormatInt (NullInt32.Int32 (DocumentID m)) +:+ "_" +:+
  FormatInt (NullInt32.Int32 (Track m)) +:+ "_" +:+
  FormatInt (IssueTagNumber m) +:+ "_" +:+
  NullString.String (KeySymbol m) +:+ "_" +:+
  FormatInt (MepsLanguage m) +:+ "_" +:+
  FormatInt (LocationType m).

(** The key as the spec words it, for comparison: a nullable integer that
    is absent contributes 0. *)
Definition orZero (n : NullInt32.t) : Z :=
  if NullInt32.Valid n then NullInt32.Int32 n else 0.

Definition UniqueKey_spec (m : t) : string :=
  String.concat "_"
    [FormatInt (orZero (BookNumber m)); FormatInt (orZero (ChapterNumber m));
     FormatInt (orZero (DocumentID m)); FormatInt (orZero (Track m));
     FormatInt (IssueTagNumber m); NullString.String (KeySymbol m);
     FormatInt (MepsLanguage m); FormatInt (LocationType m)].

(** What [sql.NullInt32.Scan] leaves in a field: the slot of an absent
    value is zero. *)
Definition scanned (n : NullInt32.t) : Prop :=
  NullInt32.Valid n = false -> NullInt32.Int32 n = 0.

Definition fields : list (string * Field t) :=
  [
    ("LocationID", FInt LocationID set_LocationID);
    ("BookNumber", FNullInt32 BookNumber set_BookNumber);
    ("ChapterNumber", FNullInt32 ChapterNumber set_ChapterNumber);
    ("DocumentID", FNullInt32 DocumentID set_DocumentID);
    ("Track", FNullInt32 Track set_Track);
    ("IssueTagNumber", FInt IssueTagNumber set_IssueTagNumber);
    ("KeySymbol", FNullString KeySymbol);
    ("MepsLanguage", FInt MepsLanguage set_MepsLanguage);
    ("LocationType", FInt LocationType set_LocationType);
    ("Title", FNullString Title)
  ].

End Location.

#[global] Instance Location_Struct : Struct Location.t :=
  lookupField Location.fields.

(** ** model/UserMark.go

    The file is not among the sources; model/UserMark_test.go is, and its
    struct literals give the fields. *)
Module UserMark.

Record t : Type := mk {
  UserMarkID : Z;
  ColorIndex : Z;
  LocationID : Z;
  StyleIndex : Z;
  UserMarkGUID : string;
  Version : Z
}.

Definition set_UserMarkID (v : Z) (m : t) : t :=
  mk v (ColorIndex m) (LocationID m) (StyleIndex m) (UserMarkGUID m)
     (Version m).
Definition set_ColorIndex (v : Z) (m : t) : t :=
  mk (UserMarkID m) v (LocationID m) (StyleIndex m) (UserMarkGUID m)
     (Version m).
Definition set_LocationID (v : Z) (m : t) : t :=
  mk (UserMarkID m) (ColorIndex m) v (StyleIndex m) (UserMarkGUID m)
     (Version m).
Definition set_StyleIndex (v : Z) (m : t) : t :=
  mk (UserMarkID m) (ColorIndex m) (LocationID m) v (UserMarkGUID m)
     (Version m).
Definition set_Version (v : Z) (m : t) : t :=
  mk (UserMarkID m) (ColorIndex m) (LocationID m) (StyleIndex m)
     (UserMarkGUID m) v.

Definition fields : list (string * Field t) :=
  [
    ("UserMarkID", FInt UserMarkID set_UserMarkID);
    ("ColorIndex", FInt ColorIndex set_ColorIndex);
    ("LocationID", FInt LocationID set_LocationID);
    ("StyleIndex", FInt StyleIndex set_StyleIndex);
    ("UserMarkGUID", FString UserMarkGUID);
    ("Version", FInt Version set_Version)
  ].

(** The rows of [TestUserMark_Equals]. *)
Definition m1 : t := mk 1 1 1 1 "FIRST" 1.
Definition m2 : t := mk 1 5 1 1 "FIRST" 1.

End UserMark.

#[global] Instance UserMark_Struct : Struct UserMark.t :=
  lookupField UserMark.fields.

(** ** model/Note.go and model/TagMap.go

    Neither file is among the sources. *)

(** Modelled from the spec: the struct [Note], with the fields that the
    literals of merger/IDChanges_test.go set ([NoteID], the nullable
    [LocationID], [BlockType]) and the second FK that cmd/merge.go names
    ([UserMarkID], nullable as a note need not belong to a mark). *)
Module Note.

Record t : Type := mk {
  NoteID : Z;
  UserMarkID : NullInt32.t;
  LocationID : NullInt32.t;
  BlockType : Z
}.

(** [Note{}] *)
Definition zero : t := mk 0 NullInt32.zero NullInt32.zero 0.

Definition set_NoteID (v : Z) (m : t) : t :=
  mk v (UserMarkID m) (LocationID m) (BlockType m).
Definition set_UserMarkID (v : NullInt32.t) (m : t) : t :=
  mk (NoteID m) v (LocationID m) (BlockType m).
Definition set_LocationID (v : NullInt32.t) (m : t) : t :=
  mk (NoteID m) (UserMarkID m) v (BlockType m).
Definition set_BlockType (v : Z) (m : t) : t :=
  mk (NoteID m) (UserMarkID m) (LocationID m) v.

Definition fields : list (string * Field t) :=
  [
    ("NoteID", FInt NoteID set_NoteID);
    ("UserMarkID", FNullInt32 UserMarkID set_UserMarkID);
    ("LocationID", FNullInt32 LocationID set_LocationID);
    ("BlockType", FInt BlockType set_BlockType)
  ].

End Note.

#[global] Instance Note_Struct : Struct Note.t := lookupField Note.fields.

(** Modelled from the spec: the struct [TagMap], with the fields of the
    spec's key [tagId _ (noteId or locationId) _ position], which are the
    three FKs that cmd/merge.go names. *)
Module TagMap.

Record t : Type := mk {
  TagMapID : Z;
  LocationID : NullInt32.t;
  NoteID : NullInt32.t;
  TagID : Z;
  Position : Z
}.

Definition set_TagMapID (v : Z) (m : t) : t :=
  mk v (LocationID m) (NoteID m) (TagID m) (Position m).
Definition set_LocationID (v : NullInt32.t) (m : t) : t :=
  mk (TagMapID m) v (NoteID m) (TagID m) (Position m).
Definition set_NoteID (v : NullInt32.t) (m : t) : t :=
  mk (TagMapID m) (LocationID m) v (TagID m) (Position m).
Definition set_TagID (v : Z) (m : t) : t :=
  mk (TagMapID m) (LocationID m) (NoteID m) v (Position m).
Definition set_Position (v : Z) (m : t) : t :=
  mk (TagMapID m) (LocationID m) (NoteID m) (TagID m) v.

Definition fields : list (string * Field t) :=
  [
    ("TagMapID", FInt TagMapID set_TagMapID);
    ("LocationID", FNullInt32 LocationID set_LocationID);
    ("NoteID", FNullInt32 NoteID set_NoteID);
    ("TagID", FInt TagID set_TagID);
    ("Position", FInt Position set_Position)
  ].

End TagMap.

#[global] Instance TagMap_Struct : Struct TagMap.t :=
  lookupField TagMap.fields.

(** ** The [Model] interface *)

(** The methods that model.go calls through reflection. *)
Class Model (T : Type) : Type := {
  ID : T -> Z;
  SetID : Z -> T -> T;
  UniqueKey : T -> string
}.
#[global] Hint Mode Model ! : typeclass_instances.

Class LawfulModel (T : Type) `{Model T} : Prop := {
  ID_SetID : forall (i : Z) (m : T), ID (SetID i m) = i
}.

#[global] Instance Bookmark_Model : Model Bookmark.t :=
  {| ID := Bookmark.ID; SetID := Bookmark.SetID;
     UniqueKey := Bookmark.UniqueKey |}.
#[global] Instance Location_Model : Model Location.t :=
  {| ID := Location.ID; SetID := Location.SetID;
     UniqueKey := Location.UniqueKey |}.

(** A value of interface type [Model]: nil, or a (non-nil) pointer to a
    row of one of the tables.  The tables whose structs are not among the
    sources are told apart by name only. *)
Inductive AnyModel : Type :=
| NilModel
| PBookmark (m : Bookmark.t)
| PLocation (m : Location.t)
| PUserMark (m : UserMark.t)
| POther (tableName : string).

#[global] Instance NullInt32_eq_dec : EqDecision NullInt32.t.
Proof. solve_decision. Defined.
#[global] Instance NullString_eq_dec : EqDecision NullString.t.
Proof. solve_decision. Defined.

(** model/Bookmark.go *)
Definition Bookmark_Equals (m : Bookmark.t) (m2 : AnyModel) : bool :=
  match m2 with
  | PBookmark m2 =>
      bool_decide (Bookmark.LocationID m = Bookmark.LocationID m2) &&
      bool_decide (Bookmark.PublicationLocationID m =
                   Bookmark.PublicationLocationID m2) &&
      bool_decide (Bookmark.Slot m = Bookmark.Slot m2) &&
      bool_decide (Bookmark.Title m = Bookmark.Title m2) &&
      bool_decide (Bookmark.Snippet m = Bookmark.Snippet m2) &&
      bool_decide (Bookmark.BlockType m = Bookmark.BlockType m2) &&
      bool_decide (Bookmark.BlockIdentifier m = Bookmark.BlockIdentifier m2)
  | _ => false
  end.

(** model/Location.go *)
Definition Location_Equals (m : Location.t) (m2 : AnyModel) : bool := false.



(** ** model/model.go: [UpdateIDs] *)
Section UpdateIDs.
Context {T : Type} `{Struct T}.

(** The body of the loop for one non-nil element. *)
Definition updateElem (IDName : string) (changes : gmap Z Z) (e : T)
  : Result T :=
  match FieldByName IDName with
  | None => Panic ("Given struct does not contain field " +:+ IDName)
  | Some (FInt get set) =>
      match changes !! get e with
      | Some new => Ok (set new e)
      | None => Ok e
      end
  | Some (FNullInt32 get set) =>
      let val := NullInt32.Int32 (get e) in
      match changes !! val with
      | Some new =>
          Ok (set (NullInt32.mk (int32 new) (NullInt32.Valid (get e))) e)
      | None => Ok e
      end
  | Some f =>
      Panic ("Type " +:+ typeName f +:+ " of field " +:+ IDName +:+
             " is not supported!")
  end.

Fixpoint updateElems (IDName : string) (changes : gmap Z Z)
    (s : list (option T)) : Result (list (option T)) :=
  match s with
  | [] => Ok []
  | None :: s' =>
      s'' ← updateElems IDName changes s'; Ok (None :: s'')
  | Some e :: s' =>
      e' ← updateElem IDName changes e;
      s'' ← updateElems IDName changes s';
      Ok (Some e' :: s'')
  end.

(** The slice is updated in place: the result is its new content.  (A
    panic leaves the rows before it rewritten; the model keeps its message
    only.) *)
Definition UpdateIDs (mdl : Arg T) (IDName : string) (changes : gmap Z Z)
  : Result (list (option T)) :=
  match mdl with
  | Slice s => updateElems IDName changes s
  | Nil =>
      Panic "runtime error: invalid memory address or nil pointer dereference"
  | _ => Panic "Only slices are supported!"
  end.
End UpdateIDs.

(** ** model/model.go: [sortByUniqueKey] *)
Section sortByUniqueKey.
Context {T : Type} `{Model T}.

(** [sort.Slice] of the Go library: some sort by the given [less], not a
    stable one. *)
Variable sort_Slice :
  (option T -> option T -> bool) -> list (option T) -> list (option T).

(** The [less] closure, on the elements at the two indices. *)
Definition less (iVal jVal : option T) : bool :=
  match jVal with
  | None => false
  | Some mj =>
      match iVal with
      | None => true
      | Some mi => String.ltb (UniqueKey mi) (UniqueKey mj)
      end
  end.

Fixpoint nilCount (s : list (option T)) : nat :=
  match s with
  | [] => 0%nat
  | None :: s' => S (nilCount s')
  | Some _ :: s' => nilCount s'
  end.

(** [s.Set(s.Slice(nilCount-1, s.Len()))] when there are several nils. *)
Definition trimNils (s : list (option T)) : list (option T) :=
  if (1 <? nilCount s)%nat then drop (nilCount s - 1) s else s.

(** The last loop, from index [i] on. *)
Fixpoint updateIDsFrom (i : nat) (s : list (option T)) (changes : gmap Z Z)
  : list (option T) * gmap Z Z :=
  match s with
  | [] => ([], changes)
  | None :: s' =>
      let '(s'', changes') := updateIDsFrom (S i) s' changes in
      (None :: s'', changes')
  | Some elem :: s' =>
      let oldID := ID elem in
      if decide (oldID = Z.of_nat i) then
        let '(s'', changes') := updateIDsFrom (S i) s' changes in
        (Some elem :: s'', changes')
      else
        let '(s'', changes') :=
          updateIDsFrom (S i) s' (<[oldID := Z.of_nat i]> changes) in
        (Some (SetID (Z.of_nat i) elem) :: s'', changes')
  end.

(** The slice after the sort and the removal of nils, before the IDs are
    set: the row at index [i] here is the row that ends at index [i]. *)
Definition placed (s : list (option T)) : list (option T) :=
  trimNils (sort_Slice less s).

(** The result is the new content of the slice and the map returned. *)
Definition sortByUniqueKey (slice : Arg T)
  : Result (list (option T) * gmap Z Z) :=
  match slice with
  | PtrToSlice s => Ok (updateIDsFrom 0 (placed s) ∅)
  | Nil =>
      Panic "runtime error: invalid memory address or nil pointer dereference"
  | _ => Panic "Only pointer to slice is supported"
  end.
End sortByUniqueKey.

(** ** Package merger

    Of this package only merger/IDChanges_test.go is among the sources;
    cmd/merge.go shows the types it exchanges with the driver. *)
Module IDChanges.
Record t : Type := mk { Left : gmap Z Z; Right : gmap Z Z }.
End IDChanges.

Module MergeConflict.
Record t : Type := mk { Left : AnyModel; Right : AnyModel }.
End MergeConflict.

Inductive MergeSide : Type := LeftSide | RightSide.

Module MergeSolution.
Record t : Type := mk {
  Side : MergeSide;
  Solution : AnyModel;
  Discarded : AnyModel
}.
End MergeSolution.

(** The errors that the driver tells apart with [err.(type)]. *)
Inductive MergeError : Type :=
| MergeConflictError (Conflicts : gmap string MergeConflict.t)
| OtherError (msg : string).

Module merger.

(** Modelled from the spec: [merger.UpdateIDs] is declared in
    merger/IDChanges.go, which is not among the sources.  An [IDChanges] is
    two mappings, [Left] and [Right], and the FK rewrite rewrites the named
    field across a row list according to it: the left list by [Left], then
    the right list by [Right], each as [model.UpdateIDs] does.  The result is the new
    content of the two slices. *)
Definition UpdateIDs {T : Type} `{Struct T} (left right : Arg T)
    (IDName : string) (changes : IDChanges.t)
  : Result (list (option T) * list (option T)) :=
  l ← UpdateIDs left IDName (IDChanges.Left changes);
  r ← UpdateIDs right IDName (IDChanges.Right changes);
  Ok (l, r).

End merger.

(** ** Package merger: what survives the merge of a table

    Modelled from the spec: the merge functions of package merger are not
    among the sources.  These are the steps 1 to 4 of the generic merge
    skeleton of the spec (section 4.1), which decide what rows survive and
    what is a conflict, run without resolutions; the sort and the new IDs of
    the later steps are left out.  The structural equality of the table is
    the parameter [equal]. *)
Module merge_table.
Section skeleton.
Context {T : Type} `{Model T}.

(** Modelled from the spec: a row of the working list, with its origin
    side and its original ID. *)
Definition Row : Type := MergeSide * Z * T.

Definition rowKey (r : Row) : string := UniqueKey r.2.

(** Modelled from the spec: step 1, the non-nil rows of both sides in one
    list, the left ones first. *)
Definition working (left right : list (option T)) : list Row :=
  ((fun m => (LeftSide, ID m, m)) <$> omap id left) ++
  ((fun m => (RightSide, ID m, m)) <$> omap id right).

(** Modelled from the spec: step 2, the rows are grouped by UniqueKey.
    These are the keys that occur and the group of a key. *)
Definition keys (rows : list Row) : list string :=
  remove_dups (rowKey <$> rows).

Definition group (key : string) (rows : list Row) : list Row :=
  filter (fun r => rowKey r = key) rows.

(** Modelled from the spec: step 3 for one group, when no resolution is
    supplied.  A singleton is emitted; of duplicates that are pairwise
    structurally equal one is emitted, a left one if there is one; anything
    else is a disagreement. *)
Inductive Verdict : Type :=
| Emit (r : Row)
| Disagreement.

Variable equal : T -> T -> bool.

Fixpoint pairwiseEqual (g : list Row) : bool :=
  match g with
  | [] => true
  | r :: g' => forallb (fun r' => equal r.2 r'.2) g' && pairwiseEqual g'
  end.

Definition step3 (g : list Row) : option Verdict :=
  match g with
  | [] => None
  | [r] => Some (Emit r)
  | r :: _ => if pairwiseEqual g then Some (Emit r) else Some Disagreement
  end.

Definition verdicts (rows : list Row) : list (string * Verdict) :=
  omap (fun key => pair key <$> step3 (group key rows)) (keys rows).

Definition conflicts (rows : list Row) : list string :=
  omap (fun kv => match kv.2 with
                  | Disagreement => Some kv.1
                  | Emit _ => None
                  end) (verdicts rows).

Definition emitted (rows : list Row) : list Row :=
  omap (fun kv => match kv.2 with
                  | Emit r => Some r
                  | Disagreement => None
                  end) (verdicts rows).

(** Modelled from the spec: step 4, the merge fails with the keys in
    conflict if there are any; else these rows survive. *)
Definition survivors (rows : list Row) : list Row + list string :=
  match conflicts rows with
  | [] => inl (emitted rows)
  | keys => inr keys
  end.
End skeleton.
End merge_table.

(** Modelled from the spec: [merger.MergeLocations] is not among the
    sources.  Section 4.2 of the spec: locations are never in conflict, any
    two rows that share a UniqueKey are treated as equal, and duplicates
    collapse silently. *)
Definition MergeLocations_survivors (left right : list (option Location.t))
  : list (merge_table.Row (T:=Location.t)) + list string :=
  merge_table.survivors (fun _ _ => true) (merge_table.working left right).

(** Scenario 4 of the spec: two locations with the same key and different
    titles. *)
Module TwoTitles.
Definition left : list (option Location.t) :=
  [None;
   Some (Location.set_Title (NullString.mk "Genesis 1" true)
           (Location.set_KeySymbol (NullString.mk "nwt" true)
              (Location.set_LocationID 1 Location.zero)))].
Definition right : list (option Location.t) :=
  [None;
   Some (Location.set_Title (NullString.mk "Gen. 1" true)
           (Location.set_KeySymbol (NullString.mk "nwt" true)
              (Location.set_LocationID 7 Location.zero)))].
End TwoTitles.

(** ** model.Database, as far as cmd/merge.go uses it

    The structs of the tables Tag, TagMap, BlockRange and Note are not among
    the sources: they are parameters. *)
Module Database.
Section fields.
Context {TagT TagMapT BlockRangeT NoteT : Type}.

Record t : Type := mk {
  Location : list (option Location.t);
  Bookmark : list (option Bookmark.t);
  Tag : list (option TagT);
  TagMap : list (option TagMapT);
  UserMark : list (option UserMark.t);
  BlockRange : list (option BlockRangeT);
  Note : list (option NoteT)
}.

(** [model.Database{}] *)
Definition zero : t := mk [] [] [] [] [] [] [].

Definition set_Location v (d : t) : t :=
  mk v (Bookmark d) (Tag d) (TagMap d) (UserMark d) (BlockRange d) (Note d).
Definition set_Bookmark v (d : t) : t :=
  mk (Location d) v (Tag d) (TagMap d) (UserMark d) (BlockRange d) (Note d).
Definition set_Tag v (d : t) : t :=
  mk (Location d) (Bookmark d) v (TagMap d) (UserMark d) (BlockRange d)
     (Note d).
Definition set_TagMap v (d : t) : t :=
  mk (Location d) (Bookmark d) (Tag d) v (UserMark d) (BlockRange d)
     (Note d).
Definition set_UserMark v (d : t) : t :=
  mk (Location d) (Bookmark d) (Tag d) (TagMap d) v (BlockRange d) (Note d).
Definition set_BlockRange v (d : t) : t :=
  mk (Location d) (Bookmark d) (Tag d) (TagMap d) (UserMark d) v (Note d).
Definition set_Note v (d : t) : t :=
  mk (Location d) (Bookmark d) (Tag d) (TagMap d) (UserMark d)
     (BlockRange d) v.
End fields.
Arguments t : clear implicits.
End Database.

(** ** cmd/merge.go *)
Module cmd.

(** The six merges of the driver, in the order of the code. *)
Inductive Step : Type :=
| Locations | Bookmarks | Tags | TagMaps | UserMarks | Notes.

(** The tables whose lists the driver hands to [merger.UpdateIDs]. *)
Inductive Table : Type := TBookmark | TNote | TTagMap | TUserMark.

(** The lists a call of [merger.UpdateIDs] is given: the list of a table
    in the left and in the right database, or the one of the merged database
    with [nil] for the right side. *)
Inductive Target : Type := LeftAndRight | MergedOnly.

(** What the driver does with package merger, in the order it does it. *)
Inductive Event : Type :=
| Call (step : Step)
    (* the merge function of the step is called *)
| Merged (step : Step)
    (* it returned and its result is stored in [merged]: without error, or,
       for the Locations, with an error that is not looked at *)
| Conflict (step : Step)
    (* it returned a MergeConflictError, the user is asked *)
| Rewrite (target : Target) (table : Table) (IDName : string) (from : Step).
    (* merger.UpdateIDs returned: the [id_changes] of [from] are applied to
       the field [IDName] of the lists [target] of [table] *)

#[global] Instance Step_eq_dec : EqDecision Step.
Proof. solve_decision. Defined.
#[global] Instance Table_eq_dec : EqDecision Table.
Proof. solve_decision. Defined.
#[global] Instance Target_eq_dec : EqDecision Target.
Proof. solve_decision. Defined.
#[global] Instance Event_eq_dec : EqDecision Event.
Proof. solve_decision. Defined.

(** How a run of the driver can end other than by returning. *)
Inductive Failure : Type :=
| Panicked (msg : string)   (* panic *)
| Fatal (msg : string)      (* log.Fatal *)
| Exited                    (* os.Exit(0) on interrupt *)
| OutOfFuel.                (* a conflict loop still running *)

Inductive Outcome (A : Type) : Type :=
| Done (a : A)
| Stop (f : Failure).
Arguments Done {A} a.
Arguments Stop {A} f.

(** A computation of the driver: the events so far and how it went on. *)
Record Run (A : Type) : Type := mkRun {
  trace : list Event;
  outcome : Outcome A
}.
Arguments mkRun {A} trace outcome.
Arguments trace {A} r.
Arguments outcome {A} r.

#[global] Instance Run_ret : MRet Run := fun A a => mkRun [] (Done a).
#[global] Instance Run_bind : MBind Run := fun A B k r =>
  match outcome r with
  | Done a => mkRun (trace r ++ trace (k a)) (outcome (k a))
  | Stop f => mkRun (trace r) (Stop f)
  end.

Definition emit (e : Event) : Run unit := mkRun [e] (Done tt).
Definition stop {A : Type} (f : Failure) : Run A := mkRun [] (Stop f).

(** What [survey.AskOne] gives back. *)
Inductive Answer : Type :=
| Selected (selected : string)
| Interrupt               (* terminal.InterruptErr *)
| AskError (msg : string).

Section merge.
Context {TagT TagMapT BlockRangeT NoteT : Type}.
Context `{Struct TagMapT} `{Struct NoteT}.

Abbreviation Database := (Database.t TagT TagMapT BlockRangeT NoteT).
Abbreviation Solutions := (gmap string MergeSolution.t).

(** *** Package merger, which is not among the sources *)
Variable MergeLocations :
  list (option Location.t) -> list (option Location.t) ->
  list (option Location.t) * IDChanges.t * option MergeError.
Variable MergeBookmarks :
  list (option Bookmark.t) -> list (option Bookmark.t) -> Solutions ->
  list (option Bookmark.t) * IDChanges.t * option MergeError.
Variable MergeTags :
  list (option TagT) -> list (option TagT) -> Solutions ->
  list (option TagT) * IDChanges.t * option MergeError.
Variable MergeTagMaps :
  list (option TagMapT) -> list (option TagMapT) -> Solutions ->
  list (option TagMapT) * IDChanges.t * option MergeError.
Variable MergeUserMarkAndBlockRange :
  list (option UserMark.t) -> list (option BlockRangeT) ->
  list (option UserMark.t) -> list (option BlockRangeT) -> Solutions ->
  list (option UserMark.t) * list (option BlockRangeT) * IDChanges.t *
  option MergeError.
Variable MergeNotes :
  list (option NoteT) -> list (option NoteT) -> Solutions ->
  list (option NoteT) * IDChanges.t * option MergeError.
Variable merger_UpdateIDs :
  forall (T : Type), Struct T -> Arg T -> Arg T -> string -> IDChanges.t ->
  Result (list (option T) * list (option T)).

(** *** The user at the terminal: what they answer to a conflict, and
    how that changes them. *)
Variable User : Type.
Variable AskOne : User -> string -> MergeConflict.t -> Answer * User.

(** The variables of [merge], and the user. *)
Record St : Type := mkSt {
  left : Database;
  right : Database;
  merged : Database;
  user : User
}.

Definition set_left (d : Database) (st : St) : St :=
  mkSt d (right st) (merged st) (user st).
Definition set_right (d : Database) (st : St) : St :=
  mkSt (left st) d (merged st) (user st).
Definition set_merged (d : Database) (st : St) : St :=
  mkSt (left st) (right st) d (user st).
Definition set_user (u : User) (st : St) : St :=
  mkSt (left st) (right st) (merged st) u.

(** The loop of [handleMergeConflict] over the conflicts.  Go ranges over
    the map in an order of its own; here it is the order of
    [map_to_list].  The table printed for the user is not modelled. *)
Fixpoint askAll (conflicts : list (string * MergeConflict.t))
    (result : Solutions) (u : User) : Outcome (Solutions * User) :=
  match conflicts with
  | [] => Done (result, u)
  | (key, conflict) :: conflicts' =>
      let '(answer, u') := AskOne u key conflict in
      match answer with
      | Interrupt => Stop Exited
      | AskError msg => Stop (Panicked msg)
      | Selected selected =>
          if decide (selected = "Left") then
            askAll conflicts'
              (<[key := MergeSolution.mk LeftSide
                          (MergeConflict.Left conflict)
                          (MergeConflict.Right conflict)]> result) u'
          else
            askAll conflicts'
              (<[key := MergeSolution.mk RightSide
                          (MergeConflict.Right conflict)
                          (MergeConflict.Left conflict)]> result) u'
      end
  end.

Definition handleMergeConflict (conflicts : gmap string MergeConflict.t)
    (st : St) : Run (Solutions * St) :=
  match askAll (map_to_list conflicts) ∅ (user st) with
  | Done (result, u) => mkRun [] (Done (result, set_user u st))
  | Stop f => stop f
  end.

(** [merger.UpdateIDs(left.X, right.X, IDName, changes)] *)
Definition rewriteLeftRight {T : Type} `{Struct T}
    (get : Database -> list (option T))
    (set : list (option T) -> Database -> Database)
    (table : Table) (IDName : string) (from : Step)
    (changes : IDChanges.t) (st : St) : Run St :=
  match merger_UpdateIDs T _ (Slice (get (left st)))
          (Slice (get (right st))) IDName changes with
  | Ok (l, r) =>
      mkRun [Rewrite LeftAndRight table IDName from]
            (Done (set_left (set l (left st))
                     (set_right (set r (right st)) st)))
  | Panic msg => stop (Panicked msg)
  end.

(** [merger.UpdateIDs(merged.X, nil, IDName, changes)] *)
Definition rewriteMerged {T : Type} `{Struct T}
    (get : Database -> list (option T))
    (set : list (option T) -> Database -> Database)
    (table : Table) (IDName : string) (from : Step)
    (changes : IDChanges.t) (st : St) : Run St :=
  match merger_UpdateIDs T _ (Slice (get (merged st))) Nil IDName
          changes with
  | Ok (l, _) =>
      mkRun [Rewrite MergedOnly table IDName from]
            (Done (set_merged (set l (merged st)) st))
  | Panic msg => stop (Panicked msg)
  end.

(** The [for] loop around a merge function: [call] is the call with the
    solutions so far, [onSuccess] the branch [err == nil]. *)
Fixpoint conflictLoop {A : Type} (fuel : nat) (step : Step)
    (call : St -> Solutions -> A * IDChanges.t * option MergeError)
    (onSuccess : A -> IDChanges.t -> St -> Run St)
    (solution : Solutions) (st : St) : Run St :=
  match fuel with
  | O => stop OutOfFuel
  | S fuel' =>
      _ ← emit (Call step);
      let '(result, changes, err) := call st solution in
      match err with
      | None =>
          _ ← emit (Merged step);
          onSuccess result changes st
      | Some (MergeConflictError conflicts) =>
          _ ← emit (Conflict step);
          '(solution', st') ← handleMergeConflict conflicts st;
          conflictLoop fuel' step call onSuccess solution' st'
      | Some (OtherError msg) => stop (Fatal msg)
      end
  end.

Definition mergeLocations (st : St) : Run St :=
  _ ← emit (Call Locations);
  let '(mergedLocations, locationIDChanges, err) :=
    MergeLocations (Database.Location (left st))
                   (Database.Location (right st)) in
  let st := set_merged (Database.set_Location mergedLocations (merged st))
              st in
  _ ← emit (Merged Locations);
  st ← rewriteLeftRight Database.Bookmark Database.set_Bookmark
         TBookmark "LocationID" Locations locationIDChanges st;
  st ← rewriteLeftRight Database.Bookmark Database.set_Bookmark
         TBookmark "PublicationLocationID" Locations locationIDChanges st;
  st ← rewriteLeftRight Database.Note Database.set_Note
         TNote "LocationID" Locations locationIDChanges st;
  rewriteLeftRight Database.TagMap Database.set_TagMap
    TTagMap "LocationID" Locations locationIDChanges st.

Definition mergeBookmarks (fuel : nat) (st : St) : Run St :=
  conflictLoop fuel Bookmarks
    (fun st solution =>
       MergeBookmarks (Database.Bookmark (left st))
                      (Database.Bookmark (right st)) solution)
    (fun mergedBookmarks _ st =>
       mret (set_merged
               (Database.set_Bookmark mergedBookmarks (merged st)) st))
    ∅ st.

Definition mergeTags (fuel : nat) (st : St) : Run St :=
  conflictLoop fuel Tags
    (fun st solution =>
       MergeTags (Database.Tag (left st)) (Database.Tag (right st))
                 solution)
    (fun mergedTags tagIDChanges st =>
       let st := set_merged (Database.set_Tag mergedTags (merged st)) st in
       rewriteLeftRight Database.TagMap Database.set_TagMap
         TTagMap "TagID" Tags tagIDChanges st)
    ∅ st.

Definition mergeTagMaps (fuel : nat) (st : St) : Run St :=
  conflictLoop fuel TagMaps
    (fun st solution =>
       MergeTagMaps (Database.TagMap (left st))
                    (Database.TagMap (right st)) solution)
    (fun mergedTagMaps _ st =>
       mret (set_merged (Database.set_TagMap mergedTagMaps (merged st))
               st))
    ∅ st.

Definition mergeUserMarks (fuel : nat) (st : St) : Run St :=
  conflictLoop fuel UserMarks
    (fun st solution =>
       let '(mergedUserMarks, mergedBlockRanges, userMarkIDChanges, err) :=
         MergeUserMarkAndBlockRange
           (Database.UserMark (left st)) (Database.BlockRange (left st))
           (Database.UserMark (right st)) (Database.BlockRange (right st))
           solution in
       ((mergedUserMarks, mergedBlockRanges), userMarkIDChanges, err))
    (fun '(mergedUserMarks, mergedBlockRanges) userMarkIDChanges st =>
       let st := set_merged
                   (Database.set_BlockRange mergedBlockRanges
                      (Database.set_UserMark mergedUserMarks (merged st)))
                   st in
       rewriteLeftRight Database.Note Database.set_Note
         TNote "UserMarkID" UserMarks userMarkIDChanges st)
    ∅ st.

Definition mergeNotes (fuel : nat) (st : St) : Run St :=
  conflictLoop fuel Notes
    (fun st solution =>
       MergeNotes (Database.Note (left st)) (Database.Note (right st))
                  solution)
    (fun mergedNotes notesIDChanges st =>
       let st := set_merged (Database.set_Note mergedNotes (merged st))
                   st in
       rewriteMerged Database.TagMap Database.set_TagMap
         TTagMap "NoteID" Notes notesIDChanges st)
    ∅ st.

(** [merge], between the import of the two backups and the export of the
    merged one.  [fuel] bounds the rounds of each conflict loop. *)
Definition merge (fuel : nat) (left right : Database) (u : User)
  : Run St :=
  st ← mergeLocations (mkSt left right Database.zero u);
  st ← mergeBookmarks fuel st;
  st ← mergeTags fuel st;
  st ← mergeTagMaps fuel st;
  st ← mergeUserMarks fuel st;
  mergeNotes fuel st.
End merge.

Arguments mkSt {TagT TagMapT BlockRangeT NoteT User} left right merged user.
Arguments left {TagT TagMapT BlockRangeT NoteT User} s.
Arguments right {TagT TagMapT BlockRangeT NoteT User} s.
Arguments merged {TagT TagMapT BlockRangeT NoteT User} s.
Arguments user {TagT TagMapT BlockRangeT NoteT User} s.
Arguments set_left {TagT TagMapT BlockRangeT NoteT User} d st.
Arguments set_right {TagT TagMapT BlockRangeT NoteT User} d st.
Arguments set_merged {TagT TagMapT BlockRangeT NoteT User} d st.
Arguments set_user {TagT TagMapT BlockRangeT NoteT User} u st.

(** *** Reading a trace *)

(** The merge that an event belongs to. *)
Definition stepOf (e : Event) : Step :=
  match e with
  | Call step | Merged step | Conflict step => step
  | Rewrite _ _ _ from => from
  end.

(** The place of a merge in the code of [merge]. *)
Definition rank (step : Step) : nat :=
  match step with
  | Locations => 0
  | Bookmarks => 1
  | Tags => 2
  | TagMaps => 3
  | UserMarks => 4
  | Notes => 5
  end.

(** What a merge has done when it is through: its result is stored and its
    [id_changes] are applied where the code applies them. *)
Definition completed (step : Step) : list Event :=
  match step with
  | Locations =>
      [Merged Locations;
       Rewrite LeftAndRight TBookmark "LocationID" Locations;
       Rewrite LeftAndRight TBookmark "PublicationLocationID" Locations;
       Rewrite LeftAndRight TNote "LocationID" Locations;
       Rewrite LeftAndRight TTagMap "LocationID" Locations]
  | Bookmarks => [Merged Bookmarks]
  | Tags => [Merged Tags; Rewrite LeftAndRight TTagMap "TagID" Tags]
  | TagMaps => [Merged TagMaps]
  | UserMarks =>
      [Merged UserMarks; Rewrite LeftAndRight TNote "UserMarkID" UserMarks]
  | Notes => [Merged Notes; Rewrite MergedOnly TTagMap "NoteID" Notes]
  end.

(** The events that a merge can give rise to. *)
Definition allowed (step : Step) (e : Event) : Prop :=
  e = Call step \/ e = Conflict step \/ e ∈ completed step.

(** [e1] has occurred before every occurrence of [e2]. *)
Definition precedes (e1 e2 : Event) (tr : list Event) : Prop :=
  forall tr1 tr2, tr = (tr1 ++ e2 :: tr2)%list -> e1 ∈ tr1.

(** [e1] has occurred before no occurrence of [e2]. *)
Definition notBefore (e1 e2 : Event) (tr : list Event) : Prop :=
  forall tr1 tr2, tr = (tr1 ++ e2 :: tr2)%list -> e1 ∉ tr1.





(** What holds of a run of the merges from rank [n] on: its events are
    theirs, in the order of the code, and when a merge has started, the
    merges before it (from [n] on) are through. *)
Definition inOrderFrom {A : Type} (n : nat) (r : Run A) : Prop :=
  (forall e, e ∈ trace r ->
     exists step, (n <= rank step)%nat /\ allowed step e) /\
  StronglySorted (fun a b => (rank (stepOf a) <= rank (stepOf b))%nat)
    (trace r) /\
  (forall e step q,
     e ∈ trace r -> (n <= rank step < rank (stepOf e))%nat ->
     q ∈ completed step -> q ∈ trace r).

(** A piece of the code of one merge: its events are events of the
    merge, and the events [req] have occurred when it returns. *)
Definition does {A : Type} (step : Step) (req : list Event) (r : Run A)
  : Prop :=
  Forall (allowed step) (trace r) /\
  (forall a q, outcome r = Done a -> q ∈ req -> q ∈ trace r).

(** What holds of the run of one merge. *)
Definition oneMerge {A : Type} (step : Step) (r : Run A) : Prop :=
  does step (completed step) r.

(** What the branch [err == nil] of a loop has left to do for the merge. *)
Definition finishes {A : Type} (step : Step) (r : Run A) : Prop :=
  Forall (allowed step) (trace r) /\
  (forall a q, outcome r = Done a -> q ∈ completed step ->
               q = Merged step \/ q ∈ trace r).

End cmd.

(** ** A merger package to run the driver with

    Merge functions that return what they are told to, the
    [merger.UpdateIDs] above, tables of tags and block ranges without rows,
    and a user who always chooses the left side. *)
Module Stub.

Definition MergeLocations (changes : IDChanges.t)
    (left right : list (option Location.t))
  : list (option Location.t) * IDChanges.t * option MergeError :=
  (left, changes, None).

Definition Merge {T : Type} (left right : list (option T))
    (solution : gmap string MergeSolution.t)
  : list (option T) * IDChanges.t * option MergeError :=
  (left, IDChanges.mk ∅ ∅, None).

Definition MergeUserMarkAndBlockRange
    (leftUM : list (option UserMark.t)) (leftBR : list (option Empty_set))
    (rightUM : list (option UserMark.t)) (rightBR : list (option Empty_set))
    (solution : gmap string MergeSolution.t)
  : list (option UserMark.t) * list (option Empty_set) * IDChanges.t *
    option MergeError :=
  (leftUM, leftBR, IDChanges.mk ∅ ∅, None).

Definition AskOne (u : unit) (key : string) (conflict : MergeConflict.t)
  : cmd.Answer * unit :=
  (cmd.Selected "Left", u).

Definition mergeLocations (changes : IDChanges.t) :=
  cmd.mergeLocations (TagT:=Empty_set) (BlockRangeT:=Empty_set)
    (TagMapT:=TagMap.t) (NoteT:=Note.t)
    (MergeLocations changes) (@merger.UpdateIDs) unit.

Definition merge (changes : IDChanges.t) :=
  cmd.merge (TagT:=Empty_set) (BlockRangeT:=Empty_set)
    (TagMapT:=TagMap.t) (NoteT:=Note.t)
    (MergeLocations changes) Merge Merge Merge MergeUserMarkAndBlockRange
    Merge (@merger.UpdateIDs) unit AskOne.

(** A left backup with a bookmark, a note, a tag map and a highlight at the
    location 1, and a right backup without rows. *)
Definition left : Database.t Empty_set TagMap.t Empty_set Note.t :=
  Database.mk
    [None; Some Location.zero]
    [None; Some (Bookmark.mk 1 1 1 0 "" NullString.zero 0 NullInt32.zero)]
    [None]
    [None; Some (TagMap.mk 1 (NullInt32.mk 1 true) NullInt32.zero 1 0)]
    [None; Some UserMark.m1]
    [None]
    [None; Some (Note.mk 1 NullInt32.zero (NullInt32.mk 1 true) 0)].

Definition right : Database.t Empty_set TagMap.t Empty_set Note.t :=
  Database.mk [None] [None] [None] [None] [None] [None] [None].

(** The Locations merge moves the location 1 of the left backup to 5. *)
Definition changes : IDChanges.t := IDChanges.mk {[1 := 5]} ∅.

End Stub.

(** ** merger/IDChanges_test.go: the rows of the tests *)
Module TestUpdateIDs_Bookmarks.

Definition bookmark (BookmarkID LocationID : Z) : Bookmark.t :=
  Bookmark.set_LocationID LocationID
    (Bookmark.set_BookmarkID BookmarkID Bookmark.zero).

Definition left : list (option Bookmark.t) :=
  [None; Some (bookmark 1 1); Some (bookmark 2 0)].
Definition right : list (option Bookmark.t) :=
  [None; Some Bookmark.zero; Some (bookmark 2 5); Some (bookmark 3 1)].
Definition changes : IDChanges.t :=
  IDChanges.mk {[1 := 5]} {[1 := 2]}.

Definition expectedLeft : list (option Bookmark.t) :=
  [None; Some (bookmark 1 5); Some (bookmark 2 0)].
Definition expectedRight : list (option Bookmark.t) :=
  [None; Some Bookmark.zero; Some (bookmark 2 5); Some (bookmark 3 2)].

End TestUpdateIDs_Bookmarks.

Module TestUpdateIDs_Notes.

Definition note (NoteID LocationID BlockType : Z) : Note.t :=
  Note.mk NoteID NullInt32.zero (NullInt32.mk LocationID true) BlockType.

Definition left : list (option Note.t) :=
  [None; Some (note 1 1 1); Some (note 2 2 0); None; Some (note 3 1 0)].
Definition right : list (option Note.t) :=
  [None; None; Some Note.zero; Some (note 1 1 0); Some (note 2 5 0)].
Definition changes : IDChanges.t :=
  IDChanges.mk {[1 := 5]} {[5 := 3]}.

Definition expectedLeft : list (option Note.t) :=
  [None; Some (note 1 5 1); Some (note 2 2 0); None; Some (note 3 5 0)].
Definition expectedRight : list (option Note.t) :=
  [None; None; Some Note.zero; Some (note 1 1 0); Some (note 2 3 0)].

End TestUpdateIDs_Notes.

(** ** Notions used to state the properties *)

(** A field whose accessors are those of a struct field. *)
Definition lawfulField {T : Type} (f : Field T) : Prop :=
  match f with
  | FInt get set =>
      (forall v e, get (set v e) = v) /\ (forall e, set (get e) e = e)
  | FNullInt32 get set =>
      (forall v e, get (set v e) = v) /\ (forall e, set (get e) e = e)
  | _ => True
  end.

(** What the loop of [UpdateIDs] does to one slot of the slice. *)
Definition rewritten {T : Type} `{Struct T} (IDName : string)
    (changes : gmap Z Z) (x y : option T) : Prop :=
  match x with
  | None => y = None
  | Some e => exists e', updateElem IDName changes e = Ok e' /\ y = Some e'
  end.

(** A map that sends no new ID on to another one: a second rewrite finds
    nothing to do.  The new ID is looked up as the field holds it: as it is
    in an [int], cut to 32 bits in a [sql.NullInt32]. *)
Definition settled (changes : gmap Z Z) : Prop :=
  forall k v v', changes !! k = Some v ->
    (changes !! v = Some v' -> v' = v) /\
    (changes !! int32 v = Some v' -> int32 v' = int32 v).

(** The kinds of field that [UpdateIDs] can rewrite. *)
Definition supported {T : Type} (f : Field T) : bool :=
  match f with
  | FInt _ _ | FNullInt32 _ _ => true
  | _ => false
  end.

Definition isSlice {T : Type} (mdl : Arg T) : bool :=
  match mdl with
  | Slice _ => true
  | _ => false
  end.

(** The IDs of the rows of a slice, in the order of the slice. *)
Definition rowIDs {T : Type} `{Model T} (s : list (option T)) : list Z :=
  ID <$> omap id s.

(** What [sort.Slice] promises for a [less] that is a strict weak order:
    the same elements, none out of order with the one before it. *)
Definition inOrder {A : Type} (less : A -> A -> bool) (a b : A) : Prop :=
  less b a = false.

#[global] Instance inOrder_dec {A : Type} (less : A -> A -> bool) (a b : A) :
  Decision (inOrder less a b) := bool_eq_dec (less b a) false.

(** A merge sort is one sort that keeps the promise.  (It is not a stable
    sort, and [sort.Slice] need not be one.) *)
Definition sort_Slice_merge {A : Type} (less : A -> A -> bool) (s : list A)
  : list A :=
  merge_sort (inOrder less) s.

(** The row that ends at index [k], with its ID set to [k] if it was not. *)
Definition place {T : Type} `{Model T} (k : nat) (x : option T) : option T :=
  match x with
  | None => None
  | Some m =>
      Some (if decide (ID m = Z.of_nat k) then m else SetID (Z.of_nat k) m)
  end.

(** Two bookmarks of one publication that carry the same ID, as the rows of
    the left and of the right backup do before a merge. *)
Module TwoBookmarks.
Definition b1 : Bookmark.t :=
  Bookmark.mk 5 0 1 1 "" NullString.zero 0 NullInt32.zero.
Definition b2 : Bookmark.t :=
  Bookmark.mk 5 0 1 2 "" NullString.zero 0 NullInt32.zero.
Definition slice : list (option Bookmark.t) := [Some b2; None; Some b1].
End TwoBookmarks.

(** ** Notions used to state further properties of [UpdateIDs] *)

(** The value of a field, as [reflect.Value.Interface] gives it. *)
Inductive Value : Type :=
| VInt (n : Z)
| VNullInt32 (n : NullInt32.t)
| VString (s : string)
| VNullString (n : NullString.t)
| VOther (typeName : string).

Definition valueOf {T : Type} (f : Field T) (e : T) : Value :=
  match f with
  | FInt get _ => VInt (get e)
  | FNullInt32 get _ => VNullInt32 (get e)
  | FString get => VString (get e)
  | FNullString get => VNullString (get e)
  | FOther n => VOther n
  end.

Definition fieldValue {T : Type} `{Struct T} (name : string) (e : T)
  : option Value :=
  (fun f => valueOf f e) <$> FieldByName name.

(** More of what is true of every Go struct: a second write to a field
    overwrites the first, and a write to one field leaves the fields of
    other names as they are. *)
Class FieldLaws (T : Type) `{Struct T} : Prop := {
  int_set_set : forall name (get : T -> Z) set v v' e,
    FieldByName name = Some (FInt get set) -> set v' (set v e) = set v' e;
  null_set_set : forall name (get : T -> NullInt32.t) set v v' e,
    FieldByName name = Some (FNullInt32 get set) ->
    set v' (set v e) = set v' e;
  int_set_other : forall name name' (get : T -> Z) set (f' : Field T) v e,
    name <> name' ->
    FieldByName name = Some (FInt get set) -> FieldByName name' = Some f' ->
    valueOf f' (set v e) = valueOf f' e;
  null_set_other :
    forall name name' (get : T -> NullInt32.t) set (f' : Field T) v e,
    name <> name' ->
    FieldByName name = Some (FNullInt32 get set) ->
    FieldByName name' = Some f' ->
    valueOf f' (set v e) = valueOf f' e
}.

Definition overwrites {T : Type} (f : Field T) : Prop :=
  match f with
  | FInt _ set => forall v v' e, set v' (set v e) = set v' e
  | FNullInt32 _ set => forall v v' e, set v' (set v e) = set v' e
  | _ => True
  end.

Definition framed {T : Type} (p p' : string * Field T) : Prop :=
  p.1 = p'.1 \/
  match p.2 with
  | FInt _ set => forall v e, valueOf p'.2 (set v e) = valueOf p'.2 e
  | FNullInt32 _ set => forall v e, valueOf p'.2 (set v e) = valueOf p'.2 e
  | _ => True
  end.

(** A new ID as the field holds it once written. *)
Definition storedAs {T : Type} (f : Field T) (v : Z) : Z :=
  match f with
  | FNullInt32 _ _ => int32 v
  | _ => v
  end.

(** The one map that does what [A] and then [B] do to a field that stores
    a new ID as [stored] says. *)
Definition composeChanges (stored : Z -> Z) (A B : gmap Z Z) : gmap Z Z :=
  ((fun v => default v (B !! stored v)) <$> A) ∪ B.

(** ** Notions used to state further properties of [sortByUniqueKey] *)

(** [SetID] writes the ID and leaves the key as it is: true of the tables
    whose key is made of other fields than the ID. *)
Class KeptKey (T : Type) `{Model T} : Prop := {
  UniqueKey_SetID : forall (i : Z) (m : T), UniqueKey (SetID i m) = UniqueKey m
}.

(** A row as [sortByUniqueKey] can leave it: as it was, or with another
    ID. *)
Definition renumbered {T : Type} `{Model T} (m m' : T) : Prop :=
  m' = m \/ exists i : Z, m' = SetID i m.

(** Two locations that come in the order opposite to that of their keys,
    and a bookmark at the first of them. *)
Module TwoLocations.
Definition locA : Location.t :=
  Location.set_KeySymbol (NullString.mk "w" true)
    (Location.set_LocationID 1 Location.zero).
Definition locB : Location.t :=
  Location.set_KeySymbol (NullString.mk "nwt" true)
    (Location.set_LocationID 2 Location.zero).
Definition slice : list (option Location.t) := [None; Some locA; Some locB].
Definition bookmarks : list (option Bookmark.t) :=
  [None; Some (Bookmark.mk 1 1 1 0 "" NullString.zero 0 NullInt32.zero)].
End TwoLocations.

(** ** Notions used to state further properties of the driver *)

(** The lists of a backup that the driver hands to no FK rewrite. *)
Definition untouched {TagT TagMapT BlockRangeT NoteT : Type}
    (d d' : Database.t TagT TagMapT BlockRangeT NoteT) : Prop :=
  Database.Location d' = Database.Location d /\
  Database.Tag d' = Database.Tag d /\
  Database.UserMark d' = Database.UserMark d /\
  Database.BlockRange d' = Database.BlockRange d.

(** The events of a run in which every merge succeeds at its first call
    and every FK rewrite returns. *)
Definition straightRun : list cmd.Event :=
  concat ((fun step => cmd.Call step :: cmd.completed step) <$>
          [cmd.Locations; cmd.Bookmarks; cmd.Tags; cmd.TagMaps;
           cmd.UserMarks; cmd.Notes]).

(** The solution that [handleMergeConflict] records for a conflict. *)
Definition solutionOf (side : MergeSide) (c : MergeConflict.t)
  : MergeSolution.t :=
  match side with
  | LeftSide =>
      MergeSolution.mk LeftSide (MergeConflict.Left c) (MergeConflict.Right c)
  | RightSide =>
      MergeSolution.mk RightSide (MergeConflict.Right c) (MergeConflict.Left c)
  end.

(** What a piece of [merge] leaves as it is: the lists of the two backups
    that are handed to no FK rewrite, and the merged list of locations. *)
Definition keepsInputs {TagT TagMapT BlockRangeT NoteT User : Type}
    (st st' : @cmd.St TagT TagMapT BlockRangeT NoteT User) : Prop :=
  untouched (cmd.left st) (cmd.left st') /\
  untouched (cmd.right st) (cmd.right st') /\
  Database.Location (cmd.merged st') = Database.Location (cmd.merged st).

(** A piece of a run without conflicts: it returns after the events
    [full], or panics after some of them, and ends in no other way. *)
Definition straight {A : Type} (full : list cmd.Event) (r : cmd.Run A)
  : Prop :=
  match cmd.outcome r with
  | cmd.Done _ => cmd.trace r = full
  | cmd.Stop (cmd.Panicked _) => cmd.trace r `prefix_of` full
  | cmd.Stop _ => False
  end.

(** The events that the branch [err == nil] of a loop gives rise to. *)
Definition isRewrite (e : cmd.Event) : bool :=
  match e with
  | cmd.Rewrite _ _ _ _ => true
  | _ => false
  end.

(** A run of the merges from rank [n] on in which no merge function is
    called again once its result is stored. *)
Definition noRecall {A : Type} (n : nat) (r : cmd.Run A) : Prop :=
  (forall e, e ∈ cmd.trace r -> (n <= cmd.rank (cmd.stepOf e))%nat) /\
  (forall step,
     cmd.notBefore (cmd.Merged step) (cmd.Call step) (cmd.trace r)).

(** ** More of a merger package to run the driver with *)
Module Straight.

(** A [merger.UpdateIDs] that skips a right side that is [nil]. *)
Definition UpdateIDs (T : Type) (H : Struct T) (left right : Arg T)
    (IDName : string) (changes : IDChanges.t)
  : Result (list (option T) * list (option T)) :=
  match right with
  | Nil => l ← UpdateIDs left IDName (IDChanges.Left changes); Ok (l, [])
  | _ => merger.UpdateIDs left right IDName changes
  end.

Definition merge (changes : IDChanges.t) :=
  cmd.merge (TagT:=Empty_set) (BlockRangeT:=Empty_set)
    (TagMapT:=TagMap.t) (NoteT:=Note.t)
    (Stub.MergeLocations changes) Stub.Merge Stub.Merge Stub.Merge
    Stub.MergeUserMarkAndBlockRange Stub.Merge UpdateIDs unit Stub.AskOne.

(** A Locations merge that reports an error with its result. *)
Definition MergeLocations (changes : IDChanges.t)
    (left right : list (option Location.t))
  : list (option Location.t) * IDChanges.t * option MergeError :=
  (left, changes, Some (OtherError "failed")).

End Straight.

(** ** model/model.go: [MakeModelSlice], and the [MakeSlice] of the tables *)

(** A value of type [Model] as a slice [[]Model] holds it: the nil
    interface, or a pointer with its type, which can be a nil pointer.  (The
    argument of [Equals] above is never a nil pointer when the method
    returns; here the pointers are only copied.)  The tables whose structs
    are not among the sources are told apart by the name of the pointer
    type. *)
Inductive ModelValue : Type :=
| NilInterface
| BookmarkPtr (p : option Bookmark.t)
| LocationPtr (p : option Location.t)
| OtherPtr (typeName : string).

(** What [%T] prints for the value, and the runtime for its type. *)
Definition dynamicType (x : ModelValue) : string :=
  match x with
  | NilInterface => "<nil>"
  | BookmarkPtr _ => "*model.Bookmark"
  | LocationPtr _ => "*model.Location"
  | OtherPtr n => n
  end.

(** A struct type [T] whose pointer type implements [Model]: its name, and
    a [*T] seen as a [Model]. *)
Class ModelStruct (T : Type) : Type := {
  structName : string;
  asModel : option T -> ModelValue
}.
#[global] Hint Mode ModelStruct ! : typeclass_instances.
Arguments structName T {_}.

#[global] Instance Bookmark_ModelStruct : ModelStruct Bookmark.t :=
  {| structName := "model.Bookmark"; asModel := BookmarkPtr |}.
#[global] Instance Location_ModelStruct : ModelStruct Location.t :=
  {| structName := "model.Location"; asModel := LocationPtr |}.

(** What [%T] prints for an argument. *)
Definition typeOf {T : Type} `{ModelStruct T} (arg : Arg T) : string :=
  match arg with
  | Nil => "<nil>"
  | Slice _ => "[]*" +:+ structName T
  | PtrToSlice _ => "*[]*" +:+ structName T
  | StructVal _ => structName T
  | Ptr _ => "*" +:+ structName T
  end.

(** [MakeModelSlice]: the slice [[]Model], or the error.  On the arguments
    that [Arg] describes the type assertion [.(Model)] holds for every
    element, the nil pointers among them. *)
Definition MakeModelSlice {T : Type} `{ModelStruct T} (arg : Arg T)
  : list ModelValue + string :=
  match arg with
  | Slice s => inl (asModel <$> s)
  | _ => inr ("Can't create []model out of " +:+ typeOf arg)
  end.

(** The body of the loop of [Bookmark.MakeSlice]: a nil interface is
    skipped and leaves the nil pointer that [make] has put there; anything
    else must be a [*Bookmark]. *)
Definition toBookmark (x : ModelValue) : Result (option Bookmark.t) :=
  match x with
  | NilInterface => Ok None
  | BookmarkPtr p => Ok p
  | _ =>
      Panic ("interface conversion: model.Model is " +:+ dynamicType x +:+
             ", not *model.Bookmark")
  end.

(** model/Bookmark.go *)
Definition Bookmark_MakeSlice (mdl : list ModelValue)
  : Result (list (option Bookmark.t)) :=
  mapM toBookmark mdl.

Definition toLocation (x : ModelValue) : Result (option Location.t) :=
  match x with
  | NilInterface => Ok None
  | LocationPtr p => Ok p
  | _ =>
      Panic ("interface conversion: model.Model is " +:+ dynamicType x +:+
             ", not *model.Location")
  end.

(** model/Location.go *)
Definition Location_MakeSlice (mdl : list ModelValue)
  : Result (list (option Location.t)) :=
  mapM toLocation mdl.

(** * Properties *)

(** ** The structs are lawful *)

Lemma lookupField_elem {T : Type} (fields : list (string * Field T)) name f :
  lookupField fields name = Some f -> f ∈ fields.*2.
Proof.
  induction fields as [|[n g] fields IH]; simpl; [discriminate|].
  destruct (String.eqb n name).
  - intros [= ->]. left.
  - intros Hf. right. auto.
Qed.

Lemma lawful_fields {T : Type} (fields : list (string * Field T)) :
  Forall lawfulField fields.*2 ->
  @LawfulStruct T (lookupField fields).
Proof.
  intros Hall. rewrite Forall_forall in Hall.
  split; unfold FieldByName; intros name get set;
    intros; match goal with
            | Hf : lookupField _ _ = Some _ |- _ =>
                apply lookupField_elem, Hall in Hf; simpl in Hf;
                destruct Hf as [Hgs Hsg]; auto
            end.
Qed.

Ltac lawful_struct :=
  apply lawful_fields; simpl;
  repeat (constructor; try exact I);
  try (intros ? []; reflexivity); intros []; reflexivity.

#[global] Instance Bookmark_Lawful : LawfulStruct Bookmark.t.
Proof. lawful_struct. Qed.
#[global] Instance Location_Lawful : LawfulStruct Location.t.
Proof. lawful_struct. Qed.
#[global] Instance UserMark_Lawful : LawfulStruct UserMark.t.
Proof. lawful_struct. Qed.
#[global] Instance Note_Lawful : LawfulStruct Note.t.
Proof. lawful_struct. Qed.
#[global] Instance TagMap_Lawful : LawfulStruct TagMap.t.
Proof. lawful_struct. Qed.

#[global] Instance Bookmark_LawfulModel : LawfulModel Bookmark.t.
Proof. split. reflexivity. Qed.
#[global] Instance Location_LawfulModel : LawfulModel Location.t.
Proof. split. reflexivity. Qed.

(** ** [UpdateIDs] *)

Lemma int32_idemp x : int32 (int32 x) = int32 x.
Proof.
  unfold int32.
  replace ((x + 2 ^ 31) mod 2 ^ 32 - 2 ^ 31 + 2 ^ 31)
    with ((x + 2 ^ 31) mod 2 ^ 32) by lia.
  rewrite Z.mod_mod by lia. reflexivity.
Qed.

Lemma int32_small x : - 2 ^ 31 <= x < 2 ^ 31 -> int32 x = x.
Proof. intros Hx. unfold int32. rewrite Z.mod_small; lia. Qed.

Section UpdateIDs_facts.
Context {T : Type} `{LawfulStruct T}.
Implicit Types (s : list (option T)) (e : T) (changes : gmap Z Z).

Lemma updateElems_Ok IDName changes s s' :
  updateElems IDName changes s = Ok s' <->
  Forall2 (rewritten IDName changes) s s'.
Proof.
  split.
  - revert s'. induction s as [|[e|] s IH]; intros s'; simpl.
    + intros [= <-]. constructor.
    + destruct (updateElem IDName changes e) as [e'|msg] eqn:He;
        [|discriminate]. simpl.
      destruct (updateElems IDName changes s) as [s1|msg]; [|discriminate].
      simpl. intros [= <-]. constructor; [exists e'; auto|auto].
    + destruct (updateElems IDName changes s) as [s1|msg]; [|discriminate].
      simpl. intros [= <-]. constructor; [reflexivity|auto].
  - induction 1 as [|[e|] y s s' Hxy _ IH]; simpl in *.
    + reflexivity.
    + destruct Hxy as (e' & -> & ->). rewrite IH. reflexivity.
    + subst y. rewrite IH. reflexivity.
Qed.

(** The first row that the loop cannot rewrite stops it. *)
Lemma updateElems_Panic IDName changes s msg :
  (forall e, updateElem IDName changes e = Panic msg) ->
  (exists e, Some e ∈ s) ->
  updateElems IDName changes s = Panic msg.
Proof.
  intros Hp [e0 He0]. induction s as [|[e|] s IH]; simpl.
  - by apply elem_of_nil in He0.
  - rewrite Hp. reflexivity.
  - apply elem_of_cons in He0 as [?|He0]; [discriminate|].
    rewrite IH by done. reflexivity.
Qed.

Lemma updateElem_int IDName changes e get set :
  FieldByName IDName = Some (FInt get set) ->
  updateElem IDName changes e =
    Ok (match changes !! get e with
        | Some new => set new e
        | None => e
        end).
Proof. intros Hf. unfold updateElem. rewrite Hf. by destruct (_ !! _). Qed.

Lemma updateElem_null IDName changes e get set :
  FieldByName IDName = Some (FNullInt32 get set) ->
  updateElem IDName changes e =
    Ok (match changes !! NullInt32.Int32 (get e) with
        | Some new =>
            set (NullInt32.mk (int32 new) (NullInt32.Valid (get e))) e
        | None => e
        end).
Proof. intros Hf. unfold updateElem. rewrite Hf. by destruct (_ !! _). Qed.

(** On a field that is an [int] or a [sql.NullInt32] the loop runs to
    its end. *)
Lemma updateElems_total IDName changes s :
  (forall e, exists e', updateElem IDName changes e = Ok e') ->
  exists s', updateElems IDName changes s = Ok s'.
Proof.
  intros Hok. induction s as [|[e|] s [s1 IH]]; simpl; eauto.
  - destruct (Hok e) as [e' ->]. rewrite IH. simpl. eauto.
  - rewrite IH. simpl. eauto.
Qed.
End UpdateIDs_facts.

Section UpdateIDs_claims.
Context {T : Type} `{LawfulStruct T}.
Implicit Types (s : list (option T)) (e : T) (changes : gmap Z Z).

(** C1 (as amended).  On a nullable integer field the rewrite goes
    through for every row, whether the present bit of the field is set or
    not: the bit is as it was, the row is unchanged when the numeric slot of
    the field is not a key of [changes], and the slot is rewritten (to the
    new ID, as 32 bits hold it) when it is. *)
Theorem UpdateIDs_absent_fk IDName changes s get set :
  FieldByName IDName = Some (FNullInt32 get set) ->
  exists s',
    UpdateIDs (Slice s) IDName changes = Ok s' /\
    forall (i : nat) e,
      s !! i = Some (Some e) ->
      exists e',
        s' !! i = Some (Some e') /\
        NullInt32.Valid (get e') = NullInt32.Valid (get e) /\
        (changes !! NullInt32.Int32 (get e) = None -> e' = e) /\
        (forall new, changes !! NullInt32.Int32 (get e) = Some new ->
                     NullInt32.Int32 (get e') = int32 new).
Proof.
  intros Hf.
  destruct (updateElems_total IDName changes s) as [s' Hs'].
  { intros e. rewrite (updateElem_null _ _ _ _ _ Hf). eauto. }
  exists s'. split; [exact Hs'|].
  intros i e Hi.
  apply updateElems_Ok in Hs'.
  destruct (Forall2_lookup_l _ _ _ _ _ Hs' Hi) as (y & Hy & Hr).
  simpl in Hr. destruct Hr as (e' & He' & ->).
  exists e'. split; [exact Hy|].
  rewrite (updateElem_null _ _ _ _ _ Hf) in He'.
  destruct (changes !! NullInt32.Int32 (get e)) as [new|] eqn:Hc.
  - injection He' as <-.
    rewrite (null_get_set _ _ _ _ _ Hf). simpl.
    repeat split; [discriminate|]. by intros ? [= <-].
  - injection He' as <-. repeat split; auto. discriminate.
Qed.

Lemma updateElem_settled IDName changes e e' :
  settled changes ->
  updateElem IDName changes e = Ok e' ->
  updateElem IDName changes e' = Ok e'.
Proof.
  intros Hset. unfold updateElem.
  destruct (FieldByName IDName) as [[get set|get set| | |]|] eqn:Hf;
    try discriminate.
  - destruct (changes !! get e) as [new|] eqn:Hc.
    + intros [= <-]. rewrite (int_get_set _ _ _ _ _ Hf).
      destruct (changes !! new) as [new'|] eqn:Hc'; [|reflexivity].
      pose proof (proj1 (Hset _ _ new' Hc) Hc') as ->.
      rewrite <- (int_get_set _ _ _ new e Hf) at 1.
      by rewrite (int_set_get _ _ _ _ Hf).
    + intros [= <-]. by rewrite Hc.
  - destruct (changes !! NullInt32.Int32 (get e)) as [new|] eqn:Hc.
    + intros [= <-]. rewrite (null_get_set _ _ _ _ _ Hf). simpl.
      destruct (changes !! int32 new) as [new'|] eqn:Hc'; [|reflexivity].
      pose proof (proj2 (Hset _ _ new' Hc) Hc') as ->.
      rewrite <- (null_get_set _ _ _
        (NullInt32.mk (int32 new) (NullInt32.Valid (get e))) e Hf) at 1.
      by rewrite (null_set_get _ _ _ _ Hf).
    + intros [= <-]. by rewrite Hc.
Qed.

(** C5 (as amended).  The FK rewrite is idempotent for the maps that are
    [settled]: applied to the list it has produced, [UpdateIDs] returns
    that list again. *)
Theorem UpdateIDs_idempotent IDName changes s s' :
  settled changes ->
  UpdateIDs (Slice s) IDName changes = Ok s' ->
  UpdateIDs (Slice s') IDName changes = Ok s'.
Proof.
  intros Hset. simpl. rewrite !updateElems_Ok.
  induction 1 as [|[e|] y s s' Hxy _ IH]; simpl in *.
  - constructor.
  - destruct Hxy as (e' & He' & ->). constructor; [|exact IH].
    exists e'. eauto using updateElem_settled.
  - subst y. constructor; [reflexivity|exact IH].
Qed.
End UpdateIDs_claims.

Section UpdateIDs_errors.
Context {T : Type} `{Struct T}.
Implicit Types (s : list (option T)) (changes : gmap Z Z).

Lemma updateElem_unsupported IDName changes (f : Field T) (e : T) :
  FieldByName IDName = Some f -> supported f = false ->
  updateElem IDName changes e =
    Panic ("Type " +:+ typeName f +:+ " of field " +:+ IDName +:+
           " is not supported!").
Proof.
  intros Hf Hs. unfold updateElem. rewrite Hf.
  destruct f; try discriminate; reflexivity.
Qed.

(** C9 (as amended).  [UpdateIDs] panics on an argument that is not a
    slice, and on a slice that holds a row when the struct of the rows has no
    field of the name given or has one that is neither an [int] nor a
    [sql.NullInt32]; so whenever it returns, the field was there, with one
    of the two types, for every row of the slice.  A slice that holds no row
    is returned as it is, whatever the name. *)
Theorem UpdateIDs_panics IDName changes :
  (forall mdl : Arg T, isSlice mdl = false ->
     exists msg, UpdateIDs mdl IDName changes = Panic msg) /\
  (forall v : T,
     UpdateIDs (StructVal v) IDName changes =
       Panic "Only slices are supported!") /\
  (forall s, (exists e, Some e ∈ s) ->
     FieldByName IDName = (None : option (Field T)) ->
     UpdateIDs (Slice s) IDName changes =
       Panic ("Given struct does not contain field " +:+ IDName)) /\
  (forall s (f : Field T), (exists e, Some e ∈ s) ->
     FieldByName IDName = Some f -> supported f = false ->
     UpdateIDs (Slice s) IDName changes =
       Panic ("Type " +:+ typeName f +:+ " of field " +:+ IDName +:+
              " is not supported!")) /\
  (forall s s', (exists e, Some e ∈ s) ->
     UpdateIDs (Slice s) IDName changes = Ok s' ->
     exists f : Field T,
       FieldByName IDName = Some f /\ supported f = true) /\
  (forall s, (forall e, Some e ∉ s) ->
     UpdateIDs (Slice s) IDName changes = Ok s).
Proof.
  split; [|split; [|split; [|split; [|split]]]].
  - intros [] Hm; try discriminate; simpl; eauto.
  - reflexivity.
  - intros s Hrow Hf. simpl. apply updateElems_Panic; [|exact Hrow].
    intros e. unfold updateElem. by rewrite Hf.
  - intros s f Hrow Hf Hsup. simpl. apply updateElems_Panic; [|exact Hrow].
    intros e. by apply updateElem_unsupported.
  - intros s s' Hrow Hok. simpl in Hok.
    destruct (FieldByName IDName) as [f|] eqn:Hf.
    + exists f. split; [reflexivity|].
      destruct (supported f) eqn:Hsup; [reflexivity|].
      rewrite (updateElems_Panic IDName changes s
                 ("Type " +:+ typeName f +:+ " of field " +:+ IDName +:+
                  " is not supported!")) in Hok; [discriminate| |exact Hrow].
      intros e. by apply updateElem_unsupported.
    + rewrite (updateElems_Panic IDName changes s
                 ("Given struct does not contain field " +:+ IDName))
        in Hok; [discriminate| |exact Hrow].
      intros e. unfold updateElem. by rewrite Hf.
  - intros s Hnone. simpl. induction s as [|[e|] s IH]; simpl.
    + reflexivity.
    + exfalso. apply (Hnone e). left.
    + rewrite IH; [reflexivity|]. intros e He. apply (Hnone e). by right.
Qed.
End UpdateIDs_errors.

(** A note whose [LocationID] is absent but holds 1 in its numeric slot,
    and a bookmark whose [BlockIdentifier] does: with 1 a key of the map,
    [UpdateIDs] rewrites the slot of both.  So C1, as stated, fails. *)
Lemma UpdateIDs_absent_fk_counterexample :
  let note := Note.mk 1 NullInt32.zero (NullInt32.mk 1 false) 0 in
  let bookmark :=
    Bookmark.set_BlockIdentifier (NullInt32.mk 1 false) Bookmark.zero in
  NullInt32.Valid (Note.LocationID note) = false /\
  UpdateIDs (Slice [None; Some note]) "LocationID" {[1 := 5]} =
    Ok [None; Some (Note.mk 1 NullInt32.zero (NullInt32.mk 5 false) 0)] /\
  NullInt32.Valid (Bookmark.BlockIdentifier bookmark) = false /\
  UpdateIDs (Slice [None; Some bookmark]) "BlockIdentifier" {[1 := 5]} =
    Ok [None; Some (Bookmark.set_BlockIdentifier (NullInt32.mk 5 false)
                      Bookmark.zero)].
Proof. repeat split; vm_compute; reflexivity. Qed.

Lemma UpdateIDs_absent_fk_witness :
  exists s',
    UpdateIDs (Slice TestUpdateIDs_Notes.right) "LocationID"
      {[5 := 3; 0 := 7]} = Ok s' /\
    (exists e', s' !! 2%nat = Some (Some e') /\
                Note.LocationID e' = NullInt32.mk 7 false) /\
    (exists e', s' !! 3%nat = Some (Some e') /\
                e' = TestUpdateIDs_Notes.note 1 1 0) /\
    (exists e', s' !! 4%nat = Some (Some e') /\
                Note.LocationID e' = NullInt32.mk 3 true).
Proof.
  destruct (UpdateIDs_absent_fk "LocationID" {[5 := 3; 0 := 7]}
              TestUpdateIDs_Notes.right Note.LocationID Note.set_LocationID
              eq_refl) as (s' & Hs' & Hrows).
  exists s'. split; [exact Hs'|].
  destruct (Hrows 2%nat Note.zero eq_refl) as (e2 & He2 & Hv2 & _ & Hk2).
  destruct (Hrows 3%nat (TestUpdateIDs_Notes.note 1 1 0) eq_refl)
    as (e3 & He3 & _ & Hn3 & _).
  destruct (Hrows 4%nat (TestUpdateIDs_Notes.note 2 5 0) eq_refl)
    as (e4 & He4 & Hv4 & _ & Hk4).
  split; [|split].
  - exists e2. split; [exact He2|].
    specialize (Hk2 7 eq_refl). destruct (Note.LocationID e2) as [n v].
    simpl in *. by subst.
  - exists e3. split; [exact He3|]. by apply Hn3.
  - exists e4. split; [exact He4|].
    specialize (Hk4 3 eq_refl). destruct (Note.LocationID e4) as [n v].
    simpl in *. by subst.
Defined.

(** With the map [{1→2, 2→3}] a second rewrite moves the FK on from 2 to
    3: C5, as stated for every map, fails. *)
Lemma UpdateIDs_idempotent_counterexample :
  let changes : gmap Z Z := {[1 := 2; 2 := 3]} in
  let L := [None; Some (TestUpdateIDs_Bookmarks.bookmark 1 1)] in
  let L1 := [None; Some (TestUpdateIDs_Bookmarks.bookmark 1 2)] in
  let L2 := [None; Some (TestUpdateIDs_Bookmarks.bookmark 1 3)] in
  UpdateIDs (Slice L) "LocationID" changes = Ok L1 /\
  UpdateIDs (Slice L1) "LocationID" changes = Ok L2 /\
  L1 <> L2.
Proof. repeat split; try (vm_compute; reflexivity). discriminate. Qed.

Lemma settled_test_left :
  settled (IDChanges.Left TestUpdateIDs_Bookmarks.changes).
Proof.
  intros k v v' Hk. simpl in Hk.
  apply lookup_singleton_Some in Hk as [<- <-].
  split; intros Hv; vm_compute in Hv; discriminate.
Qed.

Lemma UpdateIDs_idempotent_witness :
  UpdateIDs (Slice TestUpdateIDs_Bookmarks.expectedLeft) "LocationID"
    (IDChanges.Left TestUpdateIDs_Bookmarks.changes)
  = Ok TestUpdateIDs_Bookmarks.expectedLeft.
Proof.
  apply (UpdateIDs_idempotent "LocationID"
           (IDChanges.Left TestUpdateIDs_Bookmarks.changes)
           TestUpdateIDs_Bookmarks.left).
  - exact settled_test_left.
  - vm_compute. reflexivity.
Defined.

(** C6.  The first scenario of the spec, which is [TestUpdateIDs_Bookmarks]:
    the rewrite of [LocationID] turns the left list, with the left map, and
    the right list, with the right map, into the expected lists, and the
    entries whose [LocationID] is not a key of their side's map are as they
    were. *)
Theorem UpdateIDs_Bookmarks_scenario :
  UpdateIDs (Slice TestUpdateIDs_Bookmarks.left) "LocationID"
    (IDChanges.Left TestUpdateIDs_Bookmarks.changes)
  = Ok TestUpdateIDs_Bookmarks.expectedLeft /\
  UpdateIDs (Slice TestUpdateIDs_Bookmarks.right) "LocationID"
    (IDChanges.Right TestUpdateIDs_Bookmarks.changes)
  = Ok TestUpdateIDs_Bookmarks.expectedRight /\
  (forall (i : nat) m,
     TestUpdateIDs_Bookmarks.left !! i = Some (Some m) ->
     IDChanges.Left TestUpdateIDs_Bookmarks.changes
       !! Bookmark.LocationID m = None ->
     TestUpdateIDs_Bookmarks.expectedLeft !! i = Some (Some m)) /\
  (forall (i : nat) m,
     TestUpdateIDs_Bookmarks.right !! i = Some (Some m) ->
     IDChanges.Right TestUpdateIDs_Bookmarks.changes
       !! Bookmark.LocationID m = None ->
     TestUpdateIDs_Bookmarks.expectedRight !! i = Some (Some m)).
Proof.
  split; [vm_compute; reflexivity|].
  split; [vm_compute; reflexivity|].
  split; intros i m Hi Hm.
  - destruct i as [|[|[|i]]]; simpl in Hi; simplify_eq;
      try reflexivity; vm_compute in Hm; discriminate.
  - destruct i as [|[|[|[|i]]]]; simpl in Hi; simplify_eq;
      try reflexivity; vm_compute in Hm; discriminate.
Qed.

Lemma UpdateIDs_Bookmarks_scenario_witness :
  TestUpdateIDs_Bookmarks.expectedRight !! 2%nat =
    Some (Some (TestUpdateIDs_Bookmarks.bookmark 2 5)).
Proof.
  apply (proj2 (proj2 (proj2 UpdateIDs_Bookmarks_scenario)) 2%nat).
  - reflexivity.
  - vm_compute. reflexivity.
Defined.

(** The same through [merger.UpdateIDs], as the test calls it. *)
Example merger_UpdateIDs_Bookmarks_scenario :
  merger.UpdateIDs (Slice TestUpdateIDs_Bookmarks.left)
    (Slice TestUpdateIDs_Bookmarks.right) "LocationID"
    TestUpdateIDs_Bookmarks.changes
  = Ok (TestUpdateIDs_Bookmarks.expectedLeft,
        TestUpdateIDs_Bookmarks.expectedRight).
Proof. vm_compute. reflexivity. Qed.

(** The second scenario, [TestUpdateIDs_Notes], and the three panics that
    [TestUpdateIDs_Bookmarks] asserts. *)
Example UpdateIDs_Notes_scenario :
  merger.UpdateIDs (Slice TestUpdateIDs_Notes.left)
    (Slice TestUpdateIDs_Notes.right) "LocationID"
    TestUpdateIDs_Notes.changes
  = Ok (TestUpdateIDs_Notes.expectedLeft, TestUpdateIDs_Notes.expectedRight).
Proof. vm_compute. reflexivity. Qed.

Example UpdateIDs_Bookmarks_panics :
  merger.UpdateIDs (Slice TestUpdateIDs_Bookmarks.expectedLeft)
    (Slice TestUpdateIDs_Bookmarks.expectedRight) "WrongField"
    TestUpdateIDs_Bookmarks.changes
  = Panic "Given struct does not contain field WrongField" /\
  merger.UpdateIDs (Slice TestUpdateIDs_Bookmarks.expectedLeft)
    (Slice TestUpdateIDs_Bookmarks.expectedRight) "Title"
    TestUpdateIDs_Bookmarks.changes
  = Panic "Type string of field Title is not supported!" /\
  merger.UpdateIDs (StructVal Bookmark.zero) (StructVal Bookmark.zero)
    "LocationID" TestUpdateIDs_Bookmarks.changes
  = Panic "Only slices are supported!".
Proof. repeat split; vm_compute; reflexivity. Qed.

(** On a slice of nils [UpdateIDs] returns although [Bookmark] has no
    field [WrongField]: C9, as stated, fails. *)
Lemma UpdateIDs_panics_counterexample :
  FieldByName "WrongField" = (None : option (Field Bookmark.t)) /\
  UpdateIDs (Slice [None; None : option Bookmark.t]) "WrongField"
    (IDChanges.Left TestUpdateIDs_Bookmarks.changes)
  = Ok [None; None].
Proof. split; reflexivity. Qed.

Lemma UpdateIDs_panics_witness :
  UpdateIDs (Slice TestUpdateIDs_Bookmarks.left) "WrongField"
    (IDChanges.Left TestUpdateIDs_Bookmarks.changes)
  = Panic "Given struct does not contain field WrongField" /\
  UpdateIDs (Slice TestUpdateIDs_Bookmarks.left) "Title"
    (IDChanges.Left TestUpdateIDs_Bookmarks.changes)
  = Panic "Type string of field Title is not supported!" /\
  (exists msg,
     UpdateIDs (PtrToSlice TestUpdateIDs_Bookmarks.left) "LocationID"
       (IDChanges.Left TestUpdateIDs_Bookmarks.changes) = Panic msg).
Proof.
  assert (Hrow : exists e, Some e ∈ TestUpdateIDs_Bookmarks.left).
  { exists (TestUpdateIDs_Bookmarks.bookmark 1 1). right. left. }
  split; [|split].
  - apply (UpdateIDs_panics (T:=Bookmark.t) "WrongField"
             (IDChanges.Left TestUpdateIDs_Bookmarks.changes));
      [exact Hrow|reflexivity].
  - apply (proj1 (proj2 (proj2 (proj2
             (UpdateIDs_panics (T:=Bookmark.t) "Title"
                (IDChanges.Left TestUpdateIDs_Bookmarks.changes)))))
             TestUpdateIDs_Bookmarks.left (FString Bookmark.Title));
      [exact Hrow|reflexivity|reflexivity].
  - apply (UpdateIDs_panics (T:=Bookmark.t) "LocationID"
             (IDChanges.Left TestUpdateIDs_Bookmarks.changes)).
    reflexivity.
Defined.

(** ** [Location] *)

(** With 7 in the slot of an absent [BookNumber], the key starts with 7,
    not with 0: C8, as stated, fails. *)
Lemma Location_UniqueKey_counterexample :
  let m := Location.set_BookNumber (NullInt32.mk 7 false) Location.zero in
  NullInt32.Valid (Location.BookNumber m) = false /\
  Location.UniqueKey m = "7_0_0_0_0__0_0" /\
  Location.UniqueKey_spec m = "0_0_0_0_0__0_0".
Proof. repeat split. Qed.

(** C8 (as amended).  The key of a Location is its eight identifying fields
    joined by underscores, each nullable integer by its numeric slot
    whatever its present bit; that is the key of the spec when the absent
    fields hold zero, as they do once scanned from the database; and neither
    the title nor the ID, nor a present bit, contributes. *)
Theorem Location_UniqueKey (m : Location.t) :
  Location.UniqueKey m =
    String.concat "_"
      [FormatInt (NullInt32.Int32 (Location.BookNumber m));
       FormatInt (NullInt32.Int32 (Location.ChapterNumber m));
       FormatInt (NullInt32.Int32 (Location.DocumentID m));
       FormatInt (NullInt32.Int32 (Location.Track m));
       FormatInt (Location.IssueTagNumber m);
       NullString.String (Location.KeySymbol m);
       FormatInt (Location.MepsLanguage m);
       FormatInt (Location.LocationType m)] /\
  (Location.scanned (Location.BookNumber m) ->
   Location.scanned (Location.ChapterNumber m) ->
   Location.scanned (Location.DocumentID m) ->
   Location.scanned (Location.Track m) ->
   Location.UniqueKey m = Location.UniqueKey_spec m) /\
  (forall m' : Location.t,
     NullInt32.Int32 (Location.BookNumber m') =
       NullInt32.Int32 (Location.BookNumber m) ->
     NullInt32.Int32 (Location.ChapterNumber m') =
       NullInt32.Int32 (Location.ChapterNumber m) ->
     NullInt32.Int32 (Location.DocumentID m') =
       NullInt32.Int32 (Location.DocumentID m) ->
     NullInt32.Int32 (Location.Track m') =
       NullInt32.Int32 (Location.Track m) ->
     Location.IssueTagNumber m' = Location.IssueTagNumber m ->
     NullString.String (Location.KeySymbol m') =
       NullString.String (Location.KeySymbol m) ->
     Location.MepsLanguage m' = Location.MepsLanguage m ->
     Location.LocationType m' = Location.LocationType m ->
     Location.UniqueKey m' = Location.UniqueKey m).
Proof.
  split; [|split].
  - reflexivity.
  - intros Hb Hc Hd Ht.
    assert (Hz : forall n, Location.scanned n ->
                           Location.orZero n = NullInt32.Int32 n).
    { intros [x []] Hn; unfold Location.orZero; simpl; [reflexivity|].
      symmetry. by apply Hn. }
    unfold Location.UniqueKey, Location.UniqueKey_spec. simpl.
    rewrite !Hz by assumption. reflexivity.
  - intros m' Hb Hc Hd Ht Hi Hk Hl Hy. unfold Location.UniqueKey.
    by rewrite Hb, Hc, Hd, Ht, Hi, Hk, Hl, Hy.
Qed.

Lemma Location_UniqueKey_witness :
  let m := Location.set_Title (NullString.mk "Genesis 1" true)
             (Location.set_BookNumber (NullInt32.mk 1 true)
                (Location.set_KeySymbol (NullString.mk "nwt" true)
                   Location.zero)) in
  Location.UniqueKey m = "1_0_0_0_0_nwt_0_0" /\
  Location.UniqueKey m = Location.UniqueKey_spec m /\
  Location.UniqueKey (Location.set_Title NullString.zero
                        (Location.set_LocationID 9 m)) = Location.UniqueKey m.
Proof.
  intros m. split; [reflexivity|]. split.
  - apply (proj1 (proj2 (Location_UniqueKey m)));
      unfold Location.scanned; simpl; intros Hv;
      (reflexivity || discriminate).
  - apply (proj2 (proj2 (Location_UniqueKey m))); reflexivity.
Defined.

Section merge_table_facts.
Context {T : Type} `{Model T}.
Implicit Types (rows g : list (merge_table.Row (T:=T))).

Lemma pairwiseEqual_true g : merge_table.pairwiseEqual (fun _ _ => true) g = true.
Proof.
  induction g as [|r g IH]; simpl; [done|].
  rewrite IH, andb_true_r. clear. induction g; simpl; auto.
Qed.

Lemma group_key key rows r :
  r ∈ merge_table.group key rows <-> r ∈ rows /\ merge_table.rowKey r = key.
Proof. unfold merge_table.group. by rewrite list_elem_of_filter, (comm and). Qed.

Lemma keys_elem rows key :
  key ∈ merge_table.keys rows <->
  exists r, r ∈ rows /\ merge_table.rowKey r = key.
Proof.
  unfold merge_table.keys. rewrite elem_of_remove_dups, list_elem_of_fmap.
  split; intros (r & ? & ?); exists r; auto.
Qed.

Lemma group_head rows key :
  key ∈ merge_table.keys rows ->
  exists r g, merge_table.group key rows = r :: g.
Proof.
  intros (r & Hr & Hk)%keys_elem.
  destruct (merge_table.group key rows) as [|r0 g] eqn:Hg; [|eauto].
  assert (Hin : r ∈ merge_table.group key rows) by (by apply group_key).
  rewrite Hg in Hin. by apply elem_of_nil in Hin.
Qed.

(** When any two rows that share a key are treated as equal, every key
    gives its first row and none a conflict. *)
Lemma collapse_keys rows (ks : list string) :
  (forall key, key ∈ ks -> key ∈ merge_table.keys rows) ->
  let vs := omap (fun key =>
                    pair key <$>
                    merge_table.step3 (fun _ _ => true)
                      (merge_table.group key rows)) ks in
  omap (fun kv => match kv.2 with
                  | merge_table.Disagreement => Some kv.1
                  | merge_table.Emit _ => None
                  end) vs = [] /\
  merge_table.rowKey <$>
    omap (fun kv => match kv.2 with
                    | merge_table.Emit r => Some r
                    | merge_table.Disagreement => None
                    end) vs = ks /\
  Forall (fun r => r ∈ rows)
    (omap (fun kv => match kv.2 with
                     | merge_table.Emit r => Some r
                     | merge_table.Disagreement => None
                     end) vs).
Proof.
  induction ks as [|key ks IH]; intros Hks; simpl; [done|].
  destruct IH as (Hc & He & Hr).
  { intros k Hk. apply Hks. by right. }
  destruct (group_head rows key) as (r & g & Hg); [apply Hks; left|].
  assert (Hrin : r ∈ rows /\ merge_table.rowKey r = key).
  { apply group_key. rewrite Hg. left. }
  assert (Hstep : merge_table.step3 (fun _ _ => true)
                    (merge_table.group key rows) = Some (merge_table.Emit r)).
  { rewrite Hg. unfold merge_table.step3. destruct g as [|r' g]; [done|].
    by rewrite pairwiseEqual_true. }
  rewrite Hstep. simpl. split; [exact Hc|]. split.
  - f_equal; [apply Hrin|exact He].
  - constructor; [apply Hrin|exact Hr].
Qed.
End merge_table_facts.

(** C10.  [Equals] of a Location is false whatever it is compared with,
    itself included.  The merge of the locations as the spec describes it
    goes by the UniqueKey alone: it has no conflict, every survivor is a row
    of the input, no two survivors share a key and every key of the input
    has its survivor.  It could not go by [Equals]: the merge skeleton with
    [Equals] as its structural equality has a conflict wherever two rows of
    the input share a key. *)
Theorem Location_Equals_false :
  (forall (m : Location.t) (m2 : AnyModel), Location_Equals m m2 = false) /\
  (forall left right : list (option Location.t),
     exists out,
       MergeLocations_survivors left right = inl out /\
       NoDup (merge_table.rowKey <$> out) /\
       (forall r, r ∈ out -> r ∈ merge_table.working left right) /\
       (forall r, r ∈ merge_table.working left right ->
          exists r', r' ∈ out /\
            merge_table.rowKey r' = merge_table.rowKey r)) /\
  (forall (left right : list (option Location.t)) l1 r1 l2 r2 l3,
     merge_table.working left right = (l1 ++ r1 :: l2 ++ r2 :: l3)%list ->
     merge_table.rowKey r1 = merge_table.rowKey r2 ->
     exists keys,
       merge_table.survivors (fun m m2 => Location_Equals m (PLocation m2))
         (merge_table.working left right) = inr keys /\
       merge_table.rowKey r1 ∈ keys).
Proof.
  split; [reflexivity|]. split.
  - intros left right.
    set (rows := merge_table.working left right).
    destruct (collapse_keys rows (merge_table.keys rows)) as (Hc & He & Hr);
      [done|].
    exists (merge_table.emitted (fun _ _ => true) rows).
    unfold MergeLocations_survivors, merge_table.survivors.
    fold rows. unfold merge_table.conflicts, merge_table.verdicts.
    rewrite Hc. split; [reflexivity|].
    unfold merge_table.emitted, merge_table.verdicts. split; [|split].
    + rewrite He. apply NoDup_remove_dups.
    + intros r Hin. rewrite Forall_forall in Hr. by apply Hr.
    + intros r Hin.
      assert (Hk : merge_table.rowKey r ∈ merge_table.keys rows).
      { apply keys_elem. eauto. }
      rewrite <- He in Hk. apply list_elem_of_fmap in Hk as (r' & Hk & Hin').
      eauto.
  - intros left right l1 r1 l2 r2 l3 Hrows Hkey.
    set (rows := merge_table.working left right) in *.
    set (equal := fun m m2 => Location_Equals m (PLocation m2)).
    assert (Hin : (merge_table.rowKey r1, merge_table.Disagreement) ∈
                  merge_table.verdicts equal rows).
    { unfold merge_table.verdicts. apply list_elem_of_omap.
      exists (merge_table.rowKey r1). split.
      - apply keys_elem. exists r1. split; [|done].
        rewrite Hrows. apply elem_of_app. right. left.
      - unfold merge_table.group. rewrite Hrows.
        rewrite filter_app, filter_cons_True by done.
        rewrite filter_app, filter_cons_True by done.
        destruct (filter _ l1) as [|a g1]; simpl.
        + destruct (filter _ l2) as [|b g2]; reflexivity.
        + destruct (g1 ++ r1 :: filter _ l2 ++ r2 :: filter _ l3)%list
            as [|b g] eqn:Hg; [|reflexivity].
          by destruct g1. }
    assert (Hc : merge_table.rowKey r1 ∈ merge_table.conflicts equal rows).
    { unfold merge_table.conflicts. apply list_elem_of_omap.
      by exists (merge_table.rowKey r1, merge_table.Disagreement). }
    unfold merge_table.survivors.
    destruct (merge_table.conflicts equal rows) as [|k ks] eqn:Hks.
    + by apply elem_of_nil in Hc.
    + eauto.
Qed.

Lemma Location_Equals_false_witness :
  MergeLocations_survivors TwoTitles.left TwoTitles.right =
    inl [(LeftSide, 1,
          Location.set_Title (NullString.mk "Genesis 1" true)
            (Location.set_KeySymbol (NullString.mk "nwt" true)
               (Location.set_LocationID 1 Location.zero)))] /\
  exists keys,
    merge_table.survivors (fun m m2 => Location_Equals m (PLocation m2))
      (merge_table.working TwoTitles.left TwoTitles.right) = inr keys /\
    "0_0_0_0_0_nwt_0_0" ∈ keys.
Proof.
  split; [vm_compute; reflexivity|].
  destruct Location_Equals_false as (_ & _ & Hconflict).
  destruct (Hconflict TwoTitles.left TwoTitles.right [] _ [] _ []
              eq_refl eq_refl) as (keys & Hkeys & Hin).
  exists keys. split; [exact Hkeys|]. vm_compute in Hin. exact Hin.
Defined.

(** ** [UserMark] *)




(** ** [sortByUniqueKey] *)

Example sortByUniqueKey_test :
  sortByUniqueKey sort_Slice_merge
    (PtrToSlice [Some (TestUpdateIDs_Bookmarks.bookmark 7 0); None; None;
                 Some (Bookmark.set_PublicationLocationID (-3)
                         (TestUpdateIDs_Bookmarks.bookmark 1 4))])
  = Ok ([None;
         Some (Bookmark.set_PublicationLocationID (-3)
                 (TestUpdateIDs_Bookmarks.bookmark 1 4));
         Some (TestUpdateIDs_Bookmarks.bookmark 2 0)],
        {[7 := 2]}).
Proof. vm_compute. reflexivity. Qed.

Section sortByUniqueKey_facts.
Context {T : Type} `{LawfulModel T}.
Implicit Types (s l : list (option T)) (m : T) (changes : gmap Z Z).

Lemma sorted_rows_after_row m l :
  Sorted (inOrder less) (Some m :: l) -> Forall is_Some l.
Proof.
  revert m. induction l as [|y l IH]; intros m Hs; [constructor|].
  apply Sorted_inv in Hs as [Hs Hd]. apply HdRel_inv in Hd.
  destruct y as [m'|]; [|discriminate].
  constructor; [eauto|]. by apply (IH m').
Qed.

Lemma nilCount_rows l : Forall is_Some l -> nilCount l = 0%nat.
Proof.
  induction 1 as [|x l [m ->] _ IH]; simpl; [reflexivity|exact IH].
Qed.

Lemma nilCount_perm l l' : l ≡ₚ l' -> nilCount l = nilCount l'.
Proof.
  induction 1 as [|[?|] ? ? _ IH|[?|] [?|] ?|? ? ? _ IH1 _ IH2]; simpl;
    congruence.
Qed.

Lemma nilCount_pos l : None ∈ l -> (0 < nilCount l)%nat.
Proof.
  induction l as [|[m|] l IH]; simpl; intros Hin.
  - by apply elem_of_nil in Hin.
  - apply elem_of_cons in Hin as [?|Hin]; [discriminate|auto].
  - lia.
Qed.

(** In a slice sorted by [less] the nils come first. *)
Lemma sorted_shape l :
  Sorted (inOrder less) l ->
  l = (replicate (nilCount l) None ++ drop (nilCount l) l)%list /\
  Forall is_Some (drop (nilCount l) l).
Proof.
  induction 1 as [|x l Hs [IH1 IH2] Hd]; [by split; constructor|].
  destruct x as [m|]; simpl.
  - assert (Hrows : Forall is_Some l).
    { apply (sorted_rows_after_row m). by constructor. }
    rewrite (nilCount_rows l Hrows). simpl.
    split; [reflexivity|]. constructor; eauto.
  - split; [f_equal; exact IH1|exact IH2].
Qed.

Lemma trimNils_shape l :
  Sorted (inOrder less) l -> (0 < nilCount l)%nat ->
  trimNils l = None :: drop (nilCount l) l.
Proof.
  intros Hs Hpos. destruct (sorted_shape l Hs) as [Heq _].
  unfold trimNils.
  set (n := nilCount l) in *. set (rows := drop n l) in *.
  clearbody rows n. subst l.
  destruct (1 <? n)%nat eqn:Hn.
  - apply Nat.ltb_lt in Hn.
    rewrite drop_app_le by (rewrite length_replicate; lia).
    rewrite drop_replicate. by replace (n - (n - 1))%nat with 1%nat by lia.
  - apply Nat.ltb_ge in Hn. by replace n with 1%nat by lia.
Qed.

(** The slice that the last loop leaves. *)
Lemma updateIDsFrom_slice i s changes :
  (updateIDsFrom i s changes).1 = imap (fun j => place (i + j)) s.
Proof.
  revert i changes. induction s as [|[m|] s IH]; intros i changes; simpl.
  - reflexivity.
  - assert (Hext : imap (fun j => place (S i + j)) s =
                   imap ((fun j => place (i + j)) ∘ S) s).
    { apply imap_ext. intros j x _. simpl. f_equal. lia. }
    rewrite Nat.add_0_r. destruct (decide (ID m = Z.of_nat i)).
    + specialize (IH (S i) changes).
      destruct (updateIDsFrom (S i) s changes) as [s'' c'].
      simpl in *. by rewrite IH, Hext.
    + specialize (IH (S i) (<[ID m := Z.of_nat i]> changes)).
      destruct (updateIDsFrom (S i) s _) as [s'' c'].
      simpl in *. by rewrite IH, Hext.
  - assert (Hext : imap (fun j => place (S i + j)) s =
                   imap ((fun j => place (i + j)) ∘ S) s).
    { apply imap_ext. intros j x _. simpl. f_equal. lia. }
    specialize (IH (S i) changes).
    destruct (updateIDsFrom (S i) s changes) as [s'' c'].
    simpl in *. by rewrite IH, Hext.
Qed.

(** The map that it leaves: an old ID that no row carries keeps its
    entry, or has none. *)
Lemma updateIDsFrom_frame i s changes old :
  (forall m, Some m ∈ s -> ID m <> old) ->
  (updateIDsFrom i s changes).2 !! old = changes !! old.
Proof.
  revert i changes. induction s as [|[m|] s IH]; intros i changes Hold;
    simpl.
  - reflexivity.
  - assert (Hs : forall m', Some m' ∈ s -> ID m' <> old).
    { intros m' Hm'. apply Hold. by right. }
    assert (Hm : ID m <> old) by (apply Hold; left).
    destruct (decide (ID m = Z.of_nat i)).
    + specialize (IH (S i) changes Hs).
      destruct (updateIDsFrom (S i) s changes) as [s'' c']. exact IH.
    + specialize (IH (S i) (<[ID m := Z.of_nat i]> changes) Hs).
      destruct (updateIDsFrom (S i) s _) as [s'' c']. simpl in *.
      by rewrite IH, lookup_insert_ne.
  - assert (Hs : forall m', Some m' ∈ s -> ID m' <> old).
    { intros m' Hm'. apply Hold. by right. }
    specialize (IH (S i) changes Hs).
    destruct (updateIDsFrom (S i) s changes) as [s'' c']. exact IH.
Qed.

(** Every entry was there before or is the move of a row. *)
Lemma updateIDsFrom_sound i s changes old new :
  (updateIDsFrom i s changes).2 !! old = Some new ->
  changes !! old = Some new \/
  exists (j : nat) m,
    s !! j = Some (Some m) /\ ID m = old /\
    new = Z.of_nat (i + j) /\ old <> new.
Proof.
  revert i changes. induction s as [|[m|] s IH]; intros i changes; simpl.
  - auto.
  - destruct (decide (ID m = Z.of_nat i)).
    + specialize (IH (S i) changes).
      destruct (updateIDsFrom (S i) s changes) as [s'' c']. simpl in *.
      intros Hc. destruct (IH Hc) as [?|(j & m' & ? & ? & ? & ?)]; [auto|].
      right. exists (S j), m'. repeat split; auto. lia.
    + specialize (IH (S i) (<[ID m := Z.of_nat i]> changes)).
      destruct (updateIDsFrom (S i) s _) as [s'' c']. simpl in *.
      intros Hc. destruct (IH Hc) as [Hins|(j & m' & ? & ? & ? & ?)].
      * destruct (decide (ID m = old)) as [<-|Hne].
        -- rewrite lookup_insert_eq in Hins. injection Hins as <-.
           right. exists 0%nat, m. rewrite Nat.add_0_r. auto.
        -- rewrite lookup_insert_ne in Hins by done. auto.
      * right. exists (S j), m'. repeat split; auto. lia.
  - specialize (IH (S i) changes).
    destruct (updateIDsFrom (S i) s changes) as [s'' c']. simpl in *.
    intros Hc. destruct (IH Hc) as [?|(j & m' & ? & ? & ? & ?)]; [auto|].
    right. exists (S j), m'. repeat split; auto. lia.
Qed.

(** When no two rows carry the same ID, every move of a row is an
    entry. *)
Lemma updateIDsFrom_complete i s changes (j : nat) m :
  NoDup (rowIDs s) ->
  s !! j = Some (Some m) -> ID m <> Z.of_nat (i + j) ->
  (updateIDsFrom i s changes).2 !! ID m = Some (Z.of_nat (i + j)).
Proof.
  revert i changes j.
  induction s as [|[m0|] s IH]; intros i changes j Hnd Hj Hne; simpl.
  - discriminate.
  - unfold rowIDs in Hnd. simpl in Hnd. apply NoDup_cons in Hnd as [Hm0 Hnd].
    destruct j as [|j]; simpl in Hj.
    + injection Hj as ->. rewrite Nat.add_0_r in *.
      destruct (decide (ID m = Z.of_nat i)); [done|].
      pose proof (updateIDsFrom_frame (S i) s
                    (<[ID m := Z.of_nat i]> changes) (ID m)) as Hfr.
      destruct (updateIDsFrom (S i) s _) as [s'' c']. simpl in *.
      rewrite Hfr, lookup_insert_eq; [reflexivity|].
      intros m' Hm' Heq. apply Hm0. rewrite <- Heq.
      apply list_elem_of_fmap. exists m'. split; [reflexivity|].
      apply list_elem_of_omap. exists (Some m'). auto.
    + replace (i + S j)%nat with (S i + j)%nat in * by lia.
      destruct (decide (ID m0 = Z.of_nat i)).
      * specialize (IH (S i) changes j Hnd Hj Hne).
        destruct (updateIDsFrom (S i) s changes) as [s'' c']. exact IH.
      * specialize (IH (S i) (<[ID m0 := Z.of_nat i]> changes) j Hnd Hj
                      Hne).
        destruct (updateIDsFrom (S i) s _) as [s'' c']. exact IH.
  - destruct j as [|j]; simpl in Hj; [discriminate|].
    replace (i + S j)%nat with (S i + j)%nat in * by lia.
    specialize (IH (S i) changes j Hnd Hj Hne).
    destruct (updateIDsFrom (S i) s changes) as [s'' c']. exact IH.
Qed.
End sortByUniqueKey_facts.

Lemma omap_replicate_None {A : Type} (n : nat) :
  omap id (replicate n (@None A)) = [].
Proof. induction n; simpl; auto. Qed.

Lemma fmap_Some_omap {A : Type} (l : list (option A)) :
  Forall is_Some l -> Some <$> omap id l = l.
Proof.
  induction 1 as [|x l [a ->] _ IH]; simpl; [reflexivity|].
  f_equal. exact IH.
Qed.

Lemma ltb_asym (a b : string) :
  String.ltb a b = true -> String.ltb b a = false.
Proof.
  unfold String.ltb. rewrite (String.compare_antisym a b).
  by destruct (String.compare b a).
Qed.

(** [less] is a strict order that leaves no two elements unrelated both
    ways, so a merge sort by it keeps the promise of [sort.Slice]. *)
Lemma inOrder_less_total {T : Type} `{Model T} :
  Total (inOrder (less (T:=T))).
Proof.
  intros [a|] [b|]; unfold inOrder; simpl; auto.
  destruct (String.ltb (UniqueKey b) (UniqueKey a)) eqn:Hba; [|auto].
  right. by apply ltb_asym.
Qed.

Lemma sort_Slice_merge_perm {A : Type} (less : A -> A -> bool) (s : list A) :
  sort_Slice_merge less s ≡ₚ s.
Proof. apply merge_sort_Permutation. Qed.

Lemma sort_Slice_merge_sorted {T : Type} `{Model T} (s : list (option T)) :
  Sorted (inOrder less) (sort_Slice_merge less s).
Proof.
  pose proof (inOrder_less_total (T:=T)).
  apply (Sorted_merge_sort (inOrder less)).
Qed.

Section sortByUniqueKey_claims.
Context {T : Type} `{LawfulModel T}.
Implicit Types (s : list (option T)) (m : T).

(** Any sort that keeps the promise of [sort.Slice]. *)
Variable sort_Slice :
  (option T -> option T -> bool) -> list (option T) -> list (option T).
Hypothesis sort_Slice_perm : forall s, sort_Slice less s ≡ₚ s.
Hypothesis sort_Slice_sorted :
  forall s, Sorted (inOrder less) (sort_Slice less s).

(** After the sort and the removal of nils: one nil, then the rows of
    the input. *)
Lemma placed_shape s :
  None ∈ s ->
  exists rows : list T,
    placed sort_Slice s = None :: (Some <$> rows) /\
    rows ≡ₚ omap id s.
Proof.
  intros Hnil.
  pose proof (sort_Slice_sorted s) as Hsorted.
  pose proof (sort_Slice_perm s) as Hperm.
  assert (Hpos : (0 < nilCount (sort_Slice less s))%nat).
  { rewrite (nilCount_perm _ _ Hperm). by apply nilCount_pos. }
  destruct (sorted_shape _ Hsorted) as [Heq Hrows].
  exists (omap id (drop (nilCount (sort_Slice less s)) (sort_Slice less s))).
  split.
  - unfold placed. rewrite (trimNils_shape _ Hsorted Hpos).
    by rewrite (fmap_Some_omap _ Hrows).
  - transitivity (omap id (sort_Slice less s)); [|by rewrite Hperm].
    set (l := sort_Slice less s) in *. set (n := nilCount l) in *.
    set (rows := drop n l) in *. clearbody rows. rewrite Heq.
    by rewrite omap_app, omap_replicate_None.
Qed.

(** C7 (as amended).  On a slice with a nil in it, [sortByUniqueKey]
    returns; the slice then has its rows, one nil before them at index 0,
    each at the index that its ID now gives; every entry [old -> new] of
    the map returned is the move of a row from the ID [old] to a different
    index [new]; and when no two rows came with the same ID, every such
    move is an entry. *)
Theorem sortByUniqueKey_nil_first s :
  None ∈ s ->
  exists out changes,
    sortByUniqueKey sort_Slice (PtrToSlice s) = Ok (out, changes) /\
    out !! 0%nat = Some None /\
    (forall i : nat, out !! i = Some None -> i = 0%nat) /\
    (forall (i : nat) m, out !! i = Some (Some m) -> ID m = Z.of_nat i) /\
    out = imap place (placed sort_Slice s) /\
    omap id (placed sort_Slice s) ≡ₚ omap id s /\
    (forall old new,
       changes !! old = Some new ->
       old <> new /\
       exists (i : nat) m,
         placed sort_Slice s !! i = Some (Some m) /\
         ID m = old /\ new = Z.of_nat i) /\
    (NoDup (rowIDs s) ->
     forall (i : nat) m,
       placed sort_Slice s !! i = Some (Some m) ->
       ID m <> Z.of_nat i ->
       changes !! ID m = Some (Z.of_nat i)).
Proof.
  intros Hnil. destruct (placed_shape s Hnil) as (rows & Hplaced & Hrows).
  destruct (updateIDsFrom 0 (placed sort_Slice s) ∅) as [out changes]
    eqn:Hrun.
  exists out, changes.
  assert (Hout : out = imap place (placed sort_Slice s)).
  { pose proof (updateIDsFrom_slice 0 (placed sort_Slice s) ∅) as Hs.
    rewrite Hrun in Hs. exact Hs. }
  assert (Hlook : forall i : nat,
             out !! i = place i <$> placed sort_Slice s !! i).
  { intros i. rewrite Hout. apply list_lookup_imap. }
  split; [simpl; by rewrite Hrun|].
  split; [by rewrite Hlook, Hplaced|].
  split; [|split; [|split; [exact Hout|split; [|split]]]].
  - intros i. rewrite Hlook, Hplaced. destruct i as [|i]; [done|].
    simpl. rewrite list_lookup_fmap.
    destruct (rows !! i); simpl; discriminate.
  - intros i m. rewrite Hlook.
    destruct (placed sort_Slice s !! i) as [[m0|]|]; simpl;
      try discriminate.
    intros [= <-]. destruct (decide (ID m0 = Z.of_nat i)); [done|].
    apply ID_SetID.
  - rewrite Hplaced. simpl. rewrite <- Hrows.
    clear. induction rows; simpl; [reflexivity|]. by f_equiv.
  - intros old new Hc.
    pose proof (updateIDsFrom_sound 0 (placed sort_Slice s) ∅ old new)
      as Hsound.
    rewrite Hrun in Hsound.
    destruct (Hsound Hc) as [Hemp|(j & m & Hj & Hid & Hnew & Hne)].
    + by rewrite lookup_empty in Hemp.
    + split; [exact Hne|]. exists j, m. auto.
  - intros Hnd i m Hi Hne.
    pose proof (updateIDsFrom_complete 0 (placed sort_Slice s) ∅ i m)
      as Hcomp.
    rewrite Hrun in Hcomp. apply Hcomp; [|exact Hi|exact Hne].
    assert (Hom : omap id (Some <$> rows) = rows).
    { clear. induction rows; simpl; [reflexivity|]. by f_equal. }
    unfold rowIDs in *. rewrite Hplaced.
    change (omap id (None :: (Some <$> rows)))
      with (omap id (Some <$> rows)).
    rewrite Hom. by rewrite Hrows.
Qed.
End sortByUniqueKey_claims.

(** Two bookmarks that both come with the ID 5 go to the indices 1 and 2;
    the map can hold one entry for 5, and holds 5 -> 2: the move of the first
    bookmark from 5 to 1 is not in it.  (Their keys differ, so every sort
    puts them in this order.)  So C7, as stated, fails. *)
Lemma sortByUniqueKey_counterexample :
  None ∈ TwoBookmarks.slice /\
  sortByUniqueKey sort_Slice_merge (PtrToSlice TwoBookmarks.slice) =
    Ok ([None; Some (Bookmark.SetID 1 TwoBookmarks.b1);
         Some (Bookmark.SetID 2 TwoBookmarks.b2)],
        {[5 := 2]}) /\
  placed sort_Slice_merge TwoBookmarks.slice !! 1%nat =
    Some (Some TwoBookmarks.b1) /\
  ID TwoBookmarks.b1 <> 1 /\
  ({[5 := 2]} : gmap Z Z) !! ID TwoBookmarks.b1 <> Some 1.
Proof.
  split; [right; left|].
  split; [vm_compute; reflexivity|].
  split; [vm_compute; reflexivity|].
  split; vm_compute; discriminate.
Qed.

Lemma sortByUniqueKey_nil_first_witness :
  let s := [Some (TestUpdateIDs_Bookmarks.bookmark 7 0); None; None;
            Some (TestUpdateIDs_Bookmarks.bookmark 1 4)] in
  exists out changes,
    sortByUniqueKey sort_Slice_merge (PtrToSlice s) = Ok (out, changes) /\
    out !! 0%nat = Some None /\
    changes !! 7 = Some 1.
Proof.
  intros s.
  assert (Hnil : None ∈ s) by (right; left).
  destruct (sortByUniqueKey_nil_first sort_Slice_merge
              (sort_Slice_merge_perm less) sort_Slice_merge_sorted s Hnil)
    as (out & changes & Hrun & Hzero & _ & _ & _ & _ & _ & Hcomplete).
  exists out, changes. split; [exact Hrun|]. split; [exact Hzero|].
  assert (Hnd : NoDup (rowIDs s)).
  { apply (bool_decide_unpack _). vm_compute. exact I. }
  apply (Hcomplete Hnd 1%nat (TestUpdateIDs_Bookmarks.bookmark 7 0)).
  - vm_compute. reflexivity.
  - vm_compute. discriminate.
Defined.

(** ** The driver *)

Lemma bind_trace {A B : Type} (m : cmd.Run A) (k : A -> cmd.Run B) :
  cmd.trace (m ≫= k) =
    (cmd.trace m ++
     match cmd.outcome m with
     | cmd.Done a => cmd.trace (k a)
     | cmd.Stop _ => []
     end)%list.
Proof.
  unfold mbind, cmd.Run_bind. destruct (cmd.outcome m); simpl;
    [reflexivity|]. by rewrite app_nil_r.
Qed.

Lemma bind_outcome {A B : Type} (m : cmd.Run A) (k : A -> cmd.Run B) :
  cmd.outcome (m ≫= k) =
    match cmd.outcome m with
    | cmd.Done a => cmd.outcome (k a)
    | cmd.Stop f => cmd.Stop f
    end.
Proof. unfold mbind, cmd.Run_bind. by destruct (cmd.outcome m). Qed.

Lemma Merged_completed step : cmd.Merged step ∈ cmd.completed step.
Proof. destruct step; left. Qed.

Lemma completed_stepOf step q :
  q ∈ cmd.completed step -> cmd.stepOf q = step.
Proof.
  destruct step; simpl; intros Hq;
    repeat (apply elem_of_cons in Hq as [->|Hq]; [reflexivity|]);
    by apply elem_of_nil in Hq.
Qed.

Lemma allowed_stepOf step e : cmd.allowed step e -> cmd.stepOf e = step.
Proof.
  intros [->|[->|Hq]]; [reflexivity|reflexivity|].
  by apply completed_stepOf.
Qed.

Lemma rank_inj step step' : cmd.rank step = cmd.rank step' -> step = step'.
Proof. destruct step, step'; simpl; intros; (reflexivity || lia). Qed.

Lemma same_rank_sorted (n : nat) (tr : list cmd.Event) :
  Forall (fun e => cmd.rank (cmd.stepOf e) = n) tr ->
  StronglySorted
    (fun a b => (cmd.rank (cmd.stepOf a) <= cmd.rank (cmd.stepOf b))%nat) tr.
Proof.
  induction 1 as [|e tr He Htr IH]; constructor; [exact IH|].
  eapply Forall_impl; [exact Htr|]. simpl. intros e' He'. lia.
Qed.

(** One merge, then the merges after it. *)
Lemma inOrderFrom_bind {A B : Type} (step : cmd.Step)
    (m : cmd.Run A) (k : A -> cmd.Run B) :
  cmd.oneMerge step m ->
  (forall a, cmd.inOrderFrom (S (cmd.rank step)) (k a)) ->
  cmd.inOrderFrom (cmd.rank step) (m ≫= k).
Proof.
  intros [Hall Hdone] Hk. unfold cmd.inOrderFrom.
  rewrite bind_trace.
  assert (Hm : forall e, e ∈ cmd.trace m -> cmd.stepOf e = step).
  { intros e He. rewrite Forall_forall in Hall.
    by apply allowed_stepOf, Hall. }
  assert (Hsm : StronglySorted
            (fun a b =>
               (cmd.rank (cmd.stepOf a) <= cmd.rank (cmd.stepOf b))%nat)
            (cmd.trace m)).
  { apply (same_rank_sorted (cmd.rank step)). apply Forall_forall.
    intros e He. by rewrite (Hm e He). }
  destruct (cmd.outcome m) as [a|f] eqn:Hout.
  - destruct (Hk a) as (Ha & Hs & Hc). split; [|split].
    + intros e He. apply elem_of_app in He as [He|He].
      * exists step. split; [lia|].
        rewrite Forall_forall in Hall. by apply Hall.
      * destruct (Ha e He) as (step' & Hr & Hal). exists step'.
        split; [lia|exact Hal].
    + apply StronglySorted_app. split; [|split; [exact Hsm|exact Hs]].
      intros e1 e2 He1 He2. rewrite (Hm e1 He1).
      destruct (Ha e2 He2) as (step' & Hr & Hal).
      rewrite (allowed_stepOf _ _ Hal). lia.
    + intros e step' q He Hr Hq. apply elem_of_app.
      apply elem_of_app in He as [He|He].
      * rewrite (Hm e He) in Hr. lia.
      * destruct (decide (cmd.rank step' = cmd.rank step)) as [Heq|Hne].
        -- apply rank_inj in Heq as ->. left. by apply (Hdone a q).
        -- right. apply (Hc e step' q He); [lia|exact Hq].
  - rewrite app_nil_r. split; [|split].
    + intros e He. exists step. split; [lia|].
      rewrite Forall_forall in Hall. by apply Hall.
    + exact Hsm.
    + intros e step' q He Hr Hq. rewrite (Hm e He) in Hr. lia.
Qed.

(** The last merge. *)
Lemma inOrderFrom_last {A : Type} (step : cmd.Step) (m : cmd.Run A) :
  cmd.oneMerge step m -> cmd.inOrderFrom (cmd.rank step) m.
Proof.
  intros [Hall _].
  assert (Hm : forall e, e ∈ cmd.trace m -> cmd.stepOf e = step).
  { intros e He. rewrite Forall_forall in Hall.
    by apply allowed_stepOf, Hall. }
  split; [|split].
  - intros e He. exists step. split; [lia|].
    rewrite Forall_forall in Hall. by apply Hall.
  - apply (same_rank_sorted (cmd.rank step)). apply Forall_forall.
    intros e He. by rewrite (Hm e He).
  - intros e step' q He Hr Hq. rewrite (Hm e He) in Hr. lia.
Qed.

(** In a run of all the merges, what a merge does when it is through has
    occurred before anything of a later merge does, and nothing of a later
    merge has occurred before. *)
Lemma inOrderFrom_precedes {A : Type} (r : cmd.Run A) step q e :
  cmd.inOrderFrom 0 r ->
  q ∈ cmd.completed step ->
  (cmd.rank step < cmd.rank (cmd.stepOf e))%nat ->
  cmd.precedes q e (cmd.trace r).
Proof.
  intros (_ & Hs & Hc) Hq Hr tr1 tr2 Htr.
  assert (Hin : q ∈ cmd.trace r).
  { assert (He : e ∈ cmd.trace r) by (rewrite Htr; set_solver).
    assert (Hrk : (0 <= cmd.rank step < cmd.rank (cmd.stepOf e))%nat)
      by lia.
    exact (Hc e step q He Hrk Hq). }
  rewrite Htr in Hin, Hs.
  apply elem_of_app in Hin as [Hin|Hin]; [exact Hin|].
  apply StronglySorted_app in Hs as (_ & _ & Hs2).
  apply completed_stepOf in Hq. subst step.
  apply elem_of_cons in Hin as [->|Hin]; [lia|].
  apply StronglySorted_cons in Hs2 as [Hle _].
  rewrite Forall_forall in Hle. specialize (Hle q Hin). simpl in Hle. lia.
Qed.

Lemma inOrderFrom_notBefore {A : Type} (r : cmd.Run A) e1 e2 :
  cmd.inOrderFrom 0 r ->
  (cmd.rank (cmd.stepOf e2) < cmd.rank (cmd.stepOf e1))%nat ->
  cmd.notBefore e1 e2 (cmd.trace r).
Proof.
  intros (_ & Hs & _) Hr tr1 tr2 Htr Hin. rewrite Htr in Hs.
  apply StronglySorted_app in Hs as (Hle & _ & _).
  specialize (Hle e1 e2 Hin ltac:(left)). lia.
Qed.

Lemma does_ret {A : Type} step (a : A) : cmd.does step [] (mret a).
Proof. split; [constructor|]. intros ? q _ Hq. by apply elem_of_nil in Hq. Qed.

Lemma does_emit step e : cmd.allowed step e -> cmd.does step [e] (cmd.emit e).
Proof.
  intros He. split; [constructor; [exact He|constructor]|].
  intros a q _ Hq. exact Hq.
Qed.

Lemma does_bind {A B : Type} step req1 req2
    (m : cmd.Run A) (k : A -> cmd.Run B) :
  cmd.does step req1 m -> (forall a, cmd.does step req2 (k a)) ->
  cmd.does step (req1 ++ req2) (m ≫= k).
Proof.
  intros [Hall Hdone] Hk. split.
  - rewrite bind_trace. apply Forall_app. split; [exact Hall|].
    destruct (cmd.outcome m) as [a|f]; [apply Hk|constructor].
  - intros b q. rewrite bind_outcome, bind_trace.
    destruct (cmd.outcome m) as [a|f] eqn:Hout; [|discriminate].
    intros Hb Hq. apply elem_of_app.
    apply elem_of_app in Hq as [Hq|Hq].
    + left. by apply (Hdone a).
    + right. by apply (Hk a) with b.
Qed.

Lemma does_weaken {A : Type} step req req' (r : cmd.Run A) :
  cmd.does step req r -> (forall q, q ∈ req' -> q ∈ req) ->
  cmd.does step req' r.
Proof. intros [Hall Hdone] Hsub. split; [exact Hall|]. eauto. Qed.

Lemma does_finishes {A : Type} step req (r : cmd.Run A) :
  cmd.does step req r ->
  (forall q, q ∈ cmd.completed step -> q = cmd.Merged step \/ q ∈ req) ->
  cmd.finishes step r.
Proof.
  intros [Hall Hdone] Hsub. split; [exact Hall|].
  intros a q Ha Hq. destruct (Hsub q Hq) as [->|Hin]; eauto.
Qed.

Section merge_facts.
Context {TagT TagMapT BlockRangeT NoteT : Type}.
Context `{Struct TagMapT} `{Struct NoteT}.

(** Whatever package merger and the user do. *)
Variable MergeLocations :
  list (option Location.t) -> list (option Location.t) ->
  list (option Location.t) * IDChanges.t * option MergeError.
Variable MergeBookmarks :
  list (option Bookmark.t) -> list (option Bookmark.t) ->
  gmap string MergeSolution.t ->
  list (option Bookmark.t) * IDChanges.t * option MergeError.
Variable MergeTags :
  list (option TagT) -> list (option TagT) -> gmap string MergeSolution.t ->
  list (option TagT) * IDChanges.t * option MergeError.
Variable MergeTagMaps :
  list (option TagMapT) -> list (option TagMapT) ->
  gmap string MergeSolution.t ->
  list (option TagMapT) * IDChanges.t * option MergeError.
Variable MergeUserMarkAndBlockRange :
  list (option UserMark.t) -> list (option BlockRangeT) ->
  list (option UserMark.t) -> list (option BlockRangeT) ->
  gmap string MergeSolution.t ->
  list (option UserMark.t) * list (option BlockRangeT) * IDChanges.t *
  option MergeError.
Variable MergeNotes :
  list (option NoteT) -> list (option NoteT) -> gmap string MergeSolution.t ->
  list (option NoteT) * IDChanges.t * option MergeError.
Variable merger_UpdateIDs :
  forall (T : Type), Struct T -> Arg T -> Arg T -> string -> IDChanges.t ->
  Result (list (option T) * list (option T)).
Variable User : Type.
Variable AskOne : User -> string -> MergeConflict.t -> cmd.Answer * User.

Local Abbreviation Database := (Database.t TagT TagMapT BlockRangeT NoteT).
Local Abbreviation St := (@cmd.St TagT TagMapT BlockRangeT NoteT User).

(** A call of [merger.UpdateIDs] panics, or returns and is recorded. *)
Lemma rewriteLeftRight_cases {T : Type} `{Struct T}
    (get : Database -> list (option T)) set table IDName from changes
    (st : St) :
  let r := cmd.rewriteLeftRight merger_UpdateIDs User get set table IDName
             from changes st in
  (cmd.trace r = [] /\ exists f, cmd.outcome r = cmd.Stop f) \/
  (cmd.trace r = [cmd.Rewrite cmd.LeftAndRight table IDName from] /\
   exists l r',
     merger_UpdateIDs T _ (Slice (get (cmd.left st)))
       (Slice (get (cmd.right st))) IDName changes = Ok (l, r') /\
     cmd.outcome r =
       cmd.Done (cmd.set_left (set l (cmd.left st))
                   (cmd.set_right (set r' (cmd.right st)) st))).
Proof.
  unfold cmd.rewriteLeftRight.
  destruct (merger_UpdateIDs T _ _ _ IDName changes) as [[l r']|msg]; simpl.
  - right. eauto.
  - left. eauto.
Qed.

Lemma rewriteMerged_cases {T : Type} `{Struct T}
    (get : Database -> list (option T)) set table IDName from changes
    (st : St) :
  let r := cmd.rewriteMerged merger_UpdateIDs User get set table IDName
             from changes st in
  (cmd.trace r = [] /\ exists f, cmd.outcome r = cmd.Stop f) \/
  (cmd.trace r = [cmd.Rewrite cmd.MergedOnly table IDName from] /\
   exists st', cmd.outcome r = cmd.Done st').
Proof.
  unfold cmd.rewriteMerged.
  destruct (merger_UpdateIDs T _ _ _ IDName changes) as [[l r']|msg]; simpl.
  - right. eauto.
  - left. eauto.
Qed.

Lemma conflictLoop_oneMerge {A : Type} fuel step
    (call : St -> gmap string MergeSolution.t ->
            A * IDChanges.t * option MergeError)
    onSuccess solution (st : St) :
  (forall a c st', cmd.finishes step (onSuccess a c st')) ->
  cmd.oneMerge step
    (cmd.conflictLoop User AskOne fuel step call onSuccess solution st).
Proof.
  intros Hfin. revert solution st.
  induction fuel as [|fuel IH]; intros solution st; simpl.
  - split; [constructor|discriminate].
  - destruct (call st solution) as [[result changes] [[conflicts|msg]|]].
    + unfold cmd.handleMergeConflict.
      destruct (cmd.askAll User AskOne (map_to_list conflicts) ∅
                  (cmd.user st)) as [[solution' u]|f].
      * destruct (IH solution' (cmd.set_user u st)) as [Hall Hdone].
        split.
        -- rewrite !bind_trace. simpl.
           constructor; [by left|]. constructor; [by right; left|].
           exact Hall.
        -- intros a q. rewrite !bind_outcome, !bind_trace. simpl.
           intros Ha Hq. right. right. eauto.
      * split.
        -- rewrite !bind_trace. simpl.
           constructor; [by left|]. constructor; [by right; left|].
           constructor.
        -- intros a q. rewrite !bind_outcome. simpl. discriminate.
    + split.
      * rewrite !bind_trace. simpl. constructor; [by left|]. constructor.
      * intros a q. rewrite !bind_outcome. simpl. discriminate.
    + destruct (Hfin result changes st) as [Hall Hdone]. split.
      * rewrite !bind_trace. simpl. constructor; [by left|].
        constructor; [|exact Hall].
        right. right. apply Merged_completed.
      * intros a q. rewrite !bind_outcome, !bind_trace. simpl.
        intros Ha Hq. destruct (Hdone a q Ha Hq) as [->|Hin].
        -- right. left.
        -- right. right. exact Hin.
Qed.

Lemma does_rewriteLeftRight {T : Type} `{Struct T}
    (get : Database -> list (option T)) set table IDName from changes
    (st : St) :
  cmd.Rewrite cmd.LeftAndRight table IDName from ∈ cmd.completed from ->
  cmd.does from [cmd.Rewrite cmd.LeftAndRight table IDName from]
    (cmd.rewriteLeftRight merger_UpdateIDs User get set table IDName from
       changes st).
Proof.
  intros Hin.
  destruct (rewriteLeftRight_cases get set table IDName from changes st)
    as [[Htr [f Hout]]|[Htr _]]; split; rewrite Htr.
  - constructor.
  - intros a q Ha. rewrite Hout in Ha. discriminate.
  - constructor; [|constructor]. right. right. exact Hin.
  - intros a q _ Hq. exact Hq.
Qed.

Lemma does_rewriteMerged {T : Type} `{Struct T}
    (get : Database -> list (option T)) set table IDName from changes
    (st : St) :
  cmd.Rewrite cmd.MergedOnly table IDName from ∈ cmd.completed from ->
  cmd.does from [cmd.Rewrite cmd.MergedOnly table IDName from]
    (cmd.rewriteMerged merger_UpdateIDs User get set table IDName from
       changes st).
Proof.
  intros Hin.
  destruct (rewriteMerged_cases get set table IDName from changes st)
    as [[Htr [f Hout]]|[Htr _]]; split; rewrite Htr.
  - constructor.
  - intros a q Ha. rewrite Hout in Ha. discriminate.
  - constructor; [|constructor]. right. right. exact Hin.
  - intros a q _ Hq. exact Hq.
Qed.

Ltac in_list := simpl; repeat (first [left; reflexivity | right]).
Ltac sub_list Hq :=
  simpl in Hq;
  repeat (apply elem_of_cons in Hq as [->|Hq]; [in_list|]);
  by apply elem_of_nil in Hq.

Lemma mergeLocations_oneMerge (st : St) :
  cmd.oneMerge cmd.Locations
    (cmd.mergeLocations MergeLocations merger_UpdateIDs User st).
Proof.
  unfold cmd.oneMerge, cmd.mergeLocations.
  eapply does_weaken.
  - eapply does_bind; [apply does_emit; by left|]. intros _.
    destruct (MergeLocations _ _) as [[mergedLocations changes] err].
    eapply does_bind;
      [apply does_emit; right; right; apply Merged_completed|]. intros _.
    eapply does_bind; [apply does_rewriteLeftRight; in_list|]. intros st1.
    eapply does_bind; [apply does_rewriteLeftRight; in_list|]. intros st2.
    eapply does_bind; [apply does_rewriteLeftRight; in_list|]. intros st3.
    apply does_rewriteLeftRight. in_list.
  - intros q Hq. sub_list Hq.
Qed.

Lemma mergeBookmarks_oneMerge fuel (st : St) :
  cmd.oneMerge cmd.Bookmarks
    (cmd.mergeBookmarks MergeBookmarks User AskOne fuel st).
Proof.
  apply conflictLoop_oneMerge. intros a c st'.
  eapply does_finishes; [apply does_ret|].
  intros q Hq. simpl in Hq.
  apply elem_of_cons in Hq as [->|Hq]; [by left|].
  by apply elem_of_nil in Hq.
Qed.

Lemma mergeTags_oneMerge fuel (st : St) :
  cmd.oneMerge cmd.Tags
    (cmd.mergeTags MergeTags merger_UpdateIDs User AskOne fuel st).
Proof.
  apply conflictLoop_oneMerge. intros a c st'.
  eapply does_finishes; [apply does_rewriteLeftRight; in_list|].
  intros q Hq. simpl in Hq.
  apply elem_of_cons in Hq as [->|Hq]; [by left|]. by right.
Qed.

Lemma mergeTagMaps_oneMerge fuel (st : St) :
  cmd.oneMerge cmd.TagMaps
    (cmd.mergeTagMaps MergeTagMaps User AskOne fuel st).
Proof.
  apply conflictLoop_oneMerge. intros a c st'.
  eapply does_finishes; [apply does_ret|].
  intros q Hq. simpl in Hq.
  apply elem_of_cons in Hq as [->|Hq]; [by left|].
  by apply elem_of_nil in Hq.
Qed.

Lemma mergeUserMarks_oneMerge fuel (st : St) :
  cmd.oneMerge cmd.UserMarks
    (cmd.mergeUserMarks MergeUserMarkAndBlockRange merger_UpdateIDs User
       AskOne fuel st).
Proof.
  apply conflictLoop_oneMerge. intros [a b] c st'.
  eapply does_finishes; [apply does_rewriteLeftRight; in_list|].
  intros q Hq. simpl in Hq.
  apply elem_of_cons in Hq as [->|Hq]; [by left|]. by right.
Qed.

Lemma mergeNotes_oneMerge fuel (st : St) :
  cmd.oneMerge cmd.Notes
    (cmd.mergeNotes MergeNotes merger_UpdateIDs User AskOne fuel st).
Proof.
  apply conflictLoop_oneMerge. intros a c st'.
  eapply does_finishes; [apply does_rewriteMerged; in_list|].
  intros q Hq. simpl in Hq.
  apply elem_of_cons in Hq as [->|Hq]; [by left|]. by right.
Qed.

(** The events of a run of [merge] are those of its six merges, in the
    order of the code, each merge through before the next starts. *)
Lemma merge_inOrder fuel (left right : Database) (u : User) :
  cmd.inOrderFrom 0
    (cmd.merge MergeLocations MergeBookmarks MergeTags MergeTagMaps
       MergeUserMarkAndBlockRange MergeNotes merger_UpdateIDs User AskOne
       fuel left right u).
Proof.
  unfold cmd.merge.
  apply (inOrderFrom_bind cmd.Locations);
    [apply mergeLocations_oneMerge|]. intros st1.
  apply (inOrderFrom_bind cmd.Bookmarks);
    [apply mergeBookmarks_oneMerge|]. intros st2.
  apply (inOrderFrom_bind cmd.Tags); [apply mergeTags_oneMerge|]. intros st3.
  apply (inOrderFrom_bind cmd.TagMaps);
    [apply mergeTagMaps_oneMerge|]. intros st4.
  apply (inOrderFrom_bind cmd.UserMarks);
    [apply mergeUserMarks_oneMerge|]. intros st5.
  apply (inOrderFrom_last cmd.Notes). apply mergeNotes_oneMerge.
Qed.






(** No run of [merge] applies any [id_changes] to the UserMark lists. *)
Lemma merge_rewrites_no_UserMark fuel (left right : Database) (u : User)
    target IDName from :
  cmd.Rewrite target cmd.TUserMark IDName from ∉
    cmd.trace
      (cmd.merge MergeLocations MergeBookmarks MergeTags MergeTagMaps
         MergeUserMarkAndBlockRange MergeNotes merger_UpdateIDs User AskOne
         fuel left right u).
Proof.
  intros Hin. destruct (merge_inOrder fuel left right u) as (Hall & _ & _).
  destruct (Hall _ Hin) as (step & _ & [Hc|[Hc|Hc]]);
    [discriminate|discriminate|].
  destruct step; simpl in Hc;
    repeat (apply elem_of_cons in Hc as [Hc|Hc]; [discriminate|]);
    by apply elem_of_nil in Hc.
Qed.

(** The Locations merge leaves the UserMark lists of the two backups as
    they were imported. *)
Lemma mergeLocations_keeps_UserMarks (st st' : St) :
  cmd.outcome (cmd.mergeLocations MergeLocations merger_UpdateIDs User st)
    = cmd.Done st' ->
  Database.UserMark (cmd.left st') = Database.UserMark (cmd.left st) /\
  Database.UserMark (cmd.right st') = Database.UserMark (cmd.right st).
Proof.
  unfold cmd.mergeLocations. rewrite bind_outcome. simpl.
  destruct (MergeLocations _ _) as [[mergedLocations changes] err].
  rewrite bind_outcome. simpl.
  repeat
    (rewrite ?bind_outcome;
     match goal with
     | |- context [cmd.rewriteLeftRight _ _ ?get ?set ?t ?n ?f ?c ?s] =>
         destruct (rewriteLeftRight_cases get set t n f c s)
           as [[_ [? Hout]]|[_ (? & ? & _ & Hout)]];
         rewrite Hout; [discriminate|]; clear Hout
     end).
  intros [= <-]. split; reflexivity.
Qed.
End merge_facts.




(** C4, at a left backup whose bookmark, note, tag map and highlight are
    at the location 1, when the Locations merge moves that location to 5:
    the Locations part of [merge] returns, with the bookmark (both fields),
    the note and the tag map at 5, and the highlight still at 1. *)
Theorem mergeLocations_UserMark_not_rewritten :
  exists st',
    cmd.outcome
      (Stub.mergeLocations Stub.changes
         (cmd.mkSt Stub.left Stub.right Database.zero tt)) = cmd.Done st' /\
    IDChanges.Left Stub.changes !! 1 = Some 5 /\
    Database.Bookmark (cmd.left st') =
      [None; Some (Bookmark.mk 1 5 5 0 "" NullString.zero 0 NullInt32.zero)] /\
    Database.Note (cmd.left st') =
      [None; Some (Note.mk 1 NullInt32.zero (NullInt32.mk 5 true) 0)] /\
    Database.TagMap (cmd.left st') =
      [None; Some (TagMap.mk 1 (NullInt32.mk 5 true) NullInt32.zero 1 0)] /\
    Database.UserMark (cmd.left st') = [None; Some UserMark.m1] /\
    UserMark.LocationID UserMark.m1 = 1.
Proof.
  eexists. split; [vm_compute; reflexivity|].
  repeat split; vm_compute; reflexivity.
Qed.

(** * Further properties *)

(** ** More on [UpdateIDs] *)

Lemma lookupField_pair {T : Type} (fields : list (string * Field T)) name f :
  lookupField fields name = Some f -> (name, f) ∈ fields.
Proof.
  induction fields as [|[n g] fields IH]; simpl; [discriminate|].
  destruct (String.eqb n name) eqn:Hn.
  - intros [= ->]. apply String.eqb_eq in Hn as ->. left.
  - intros Hf. right. auto.
Qed.

Lemma field_laws {T : Type} (fields : list (string * Field T)) :
  Forall overwrites fields.*2 ->
  Forall (fun p => Forall (framed p) fields) fields ->
  @FieldLaws T (lookupField fields).
Proof.
  intros Hover Hframed.
  rewrite Forall_forall in Hover. rewrite Forall_forall in Hframed.
  split; unfold FieldByName.
  - intros name get set v v' e Hf.
    apply lookupField_elem, Hover in Hf. apply Hf.
  - intros name get set v v' e Hf.
    apply lookupField_elem, Hover in Hf. apply Hf.
  - intros name name' get set f' v e Hne Hf Hf'.
    apply lookupField_pair in Hf, Hf'.
    specialize (Hframed _ Hf). rewrite ?Forall_forall in Hframed.
    destruct (Hframed _ Hf') as [Heq|Hfr]; [by destruct Hne|apply Hfr].
  - intros name name' get set f' v e Hne Hf Hf'.
    apply lookupField_pair in Hf, Hf'.
    specialize (Hframed _ Hf). rewrite ?Forall_forall in Hframed.
    destruct (Hframed _ Hf') as [Heq|Hfr]; [by destruct Hne|apply Hfr].
Qed.

Ltac forall_list tac :=
  repeat (apply List.Forall_cons; [tac|]); apply List.Forall_nil.
Ltac overwrites_leaf :=
  simpl; first [exact I | intros ? ? []; reflexivity].
Ltac framed_leaf :=
  first [ left; reflexivity
        | right; simpl; first [exact I | intros ? []; reflexivity] ].
Ltac field_laws :=
  apply field_laws;
  [ forall_list overwrites_leaf
  | forall_list ltac:(forall_list framed_leaf) ].

#[global] Instance Bookmark_FieldLaws : FieldLaws Bookmark.t.
Proof. field_laws. Qed.
#[global] Instance Location_FieldLaws : FieldLaws Location.t.
Proof. field_laws. Qed.
#[global] Instance UserMark_FieldLaws : FieldLaws UserMark.t.
Proof. field_laws. Qed.
#[global] Instance Note_FieldLaws : FieldLaws Note.t.
Proof. field_laws. Qed.
#[global] Instance TagMap_FieldLaws : FieldLaws TagMap.t.
Proof. field_laws. Qed.

Lemma int32_range x : - 2 ^ 31 <= int32 x < 2 ^ 31.
Proof.
  unfold int32.
  pose proof (Z.mod_pos_bound (x + 2 ^ 31) (2 ^ 32) ltac:(lia)). lia.
Qed.

Lemma int32_congr x : exists k, int32 x = x + k * 2 ^ 32.
Proof.
  exists (- ((x + 2 ^ 31) / 2 ^ 32)). unfold int32.
  pose proof (Z.div_mod (x + 2 ^ 31) (2 ^ 32) ltac:(lia)) as Hdm.
  set (q := (x + 2 ^ 31) / 2 ^ 32) in *.
  set (r := (x + 2 ^ 31) mod 2 ^ 32) in *.
  clearbody q r. lia.
Qed.

Lemma composeChanges_lookup stored (A B : gmap Z Z) k :
  composeChanges stored A B !! k =
    match A !! k with
    | Some v => Some (default v (B !! stored v))
    | None => B !! k
    end.
Proof.
  unfold composeChanges. destruct (A !! k) as [v|] eqn:HA.
  - apply lookup_union_Some_l. by rewrite lookup_fmap, HA.
  - rewrite lookup_union_r; [reflexivity|]. by rewrite lookup_fmap, HA.
Qed.

Section UpdateIDs_more.
Context {T : Type} `{LawfulStruct T} `{!FieldLaws T}.
Implicit Types (s : list (option T)) (e : T) (changes : gmap Z Z).

(** X1.  When [UpdateIDs] returns, the slice has the length it had and its
    nils are where they were. *)
Theorem UpdateIDs_shape IDName changes s s' :
  UpdateIDs (Slice s) IDName changes = Ok s' ->
  length s' = length s /\
  forall i : nat, s' !! i = Some None <-> s !! i = Some None.
Proof.
  simpl. rewrite updateElems_Ok. intros Hall. split.
  - symmetry. by eapply Forall2_length.
  - intros i. split; intros Hi.
    + destruct (Forall2_lookup_r _ _ _ _ _ Hall Hi) as ([e|] & Hx & Hr);
        [|exact Hx].
      simpl in Hr. destruct Hr as (e' & _ & [=]).
    + destruct (Forall2_lookup_l _ _ _ _ _ Hall Hi) as (y & Hy & Hr).
      simpl in Hr. by subst y.
Qed.

(** X2.  On a field that is an [int], [UpdateIDs] returns, and every row
    has the new ID that the map gives for its old one, or is as it was when
    the map gives none. *)
Theorem UpdateIDs_int_fk IDName changes s get set :
  FieldByName IDName = Some (FInt get set) ->
  exists s',
    UpdateIDs (Slice s) IDName changes = Ok s' /\
    forall (i : nat) e,
      s !! i = Some (Some e) ->
      exists e',
        s' !! i = Some (Some e') /\
        get e' = default (get e) (changes !! get e) /\
        (changes !! get e = None -> e' = e).
Proof.
  intros Hf.
  destruct (updateElems_total IDName changes s) as [s' Hs'].
  { intros e. rewrite (updateElem_int _ _ _ _ _ Hf). eauto. }
  exists s'. split; [exact Hs'|].
  intros i e Hi. apply updateElems_Ok in Hs'.
  destruct (Forall2_lookup_l _ _ _ _ _ Hs' Hi) as (y & Hy & Hr).
  simpl in Hr. destruct Hr as (e' & He' & ->).
  exists e'. split; [exact Hy|].
  rewrite (updateElem_int _ _ _ _ _ Hf) in He'.
  destruct (changes !! get e) as [new|]; injection He' as <-; simpl.
  - split; [apply (int_get_set _ _ _ _ _ Hf)|discriminate].
  - split; reflexivity.
Qed.

Lemma updateElem_other IDName IDName' changes e e' :
  IDName' <> IDName ->
  updateElem IDName changes e = Ok e' ->
  fieldValue IDName' e' = fieldValue IDName' e.
Proof.
  intros Hne. unfold updateElem, fieldValue.
  destruct (FieldByName IDName) as [[get set|get set| | |]|] eqn:Hf;
    try discriminate.
  - destruct (changes !! get e) as [new|]; intros [= <-]; [|reflexivity].
    destruct (FieldByName IDName') as [f'|] eqn:Hf'; [|reflexivity].
    simpl. f_equal.
    apply (int_set_other IDName IDName' get set f'); auto.
  - destruct (changes !! NullInt32.Int32 (get e)) as [new|];
      intros [= <-]; [|reflexivity].
    destruct (FieldByName IDName') as [f'|] eqn:Hf'; [|reflexivity].
    simpl. f_equal.
    apply (null_set_other IDName IDName' get set f'); auto.
Qed.

(** X3.  [UpdateIDs] writes to the field it is given the name of and to
    no other: every field of another name has, in every row, the value it
    had. *)
Theorem UpdateIDs_other_fields IDName IDName' changes s s' :
  IDName' <> IDName ->
  UpdateIDs (Slice s) IDName changes = Ok s' ->
  forall (i : nat) e,
    s !! i = Some (Some e) ->
    exists e',
      s' !! i = Some (Some e') /\
      fieldValue IDName' e' = fieldValue IDName' e.
Proof.
  intros Hne. simpl. rewrite updateElems_Ok. intros Hall i e Hi.
  destruct (Forall2_lookup_l _ _ _ _ _ Hall Hi) as (y & Hy & Hr).
  simpl in Hr. destruct Hr as (e' & He' & ->).
  exists e'. split; [exact Hy|].
  by apply (updateElem_other IDName IDName' changes).
Qed.

Lemma updateElem_identity IDName changes (f : Field T) e :
  FieldByName IDName = Some f -> supported f = true ->
  (forall k v, changes !! k = Some v -> storedAs f v = k) ->
  updateElem IDName changes e = Ok e.
Proof.
  intros Hf Hsup Hid. unfold updateElem. rewrite Hf.
  destruct f as [get set|get set| | |]; try discriminate.
  - destruct (changes !! get e) as [new|] eqn:Hc; [|reflexivity].
    f_equal. pose proof (Hid _ _ Hc) as Hnew. simpl in Hnew. rewrite Hnew.
    apply (int_set_get _ _ _ _ Hf).
  - destruct (changes !! NullInt32.Int32 (get e)) as [new|] eqn:Hc;
      [|reflexivity].
    f_equal. pose proof (Hid _ _ Hc) as Hnew. simpl in Hnew. rewrite Hnew.
    replace (NullInt32.mk (NullInt32.Int32 (get e))
               (NullInt32.Valid (get e))) with (get e)
      by (by destruct (get e)).
    apply (null_set_get _ _ _ _ Hf).
Qed.

(** X4.  A map that gives every old ID it knows that same ID as the new
    one, the empty map among them, leaves the slice as it is. *)
Theorem UpdateIDs_identity IDName changes (f : Field T) s :
  FieldByName IDName = Some f -> supported f = true ->
  (forall k v, changes !! k = Some v -> storedAs f v = k) ->
  UpdateIDs (Slice s) IDName changes = Ok s.
Proof.
  intros Hf Hsup Hid. simpl. apply updateElems_Ok.
  induction s as [|[e|] s IH]; constructor; try exact IH.
  - exists e. split; [|reflexivity]. by apply (updateElem_identity _ _ f).
  - reflexivity.
Qed.

Lemma updateElem_compose IDName A B (f : Field T) e e1 e2 :
  FieldByName IDName = Some f ->
  updateElem IDName A e = Ok e1 ->
  updateElem IDName B e1 = Ok e2 ->
  updateElem IDName (composeChanges (storedAs f) A B) e = Ok e2.
Proof.
  intros Hf. unfold updateElem. rewrite Hf.
  destruct f as [get set|get set| | |]; try discriminate;
    rewrite composeChanges_lookup; simpl.
  - destruct (A !! get e) as [v|] eqn:HA; intros [= <-].
    + rewrite (int_get_set _ _ _ _ _ Hf).
      destruct (B !! v) as [v'|]; intros [= <-]; simpl; [|reflexivity].
      by rewrite (int_set_set _ _ _ _ _ _ Hf).
    + destruct (B !! get e); intros [= <-]; reflexivity.
  - destruct (A !! NullInt32.Int32 (get e)) as [v|] eqn:HA; intros [= <-].
    + rewrite (null_get_set _ _ _ _ _ Hf). simpl.
      destruct (B !! int32 v) as [v'|]; intros [= <-]; simpl; [|reflexivity].
      by rewrite (null_set_set _ _ _ _ _ _ Hf).
    + destruct (B !! NullInt32.Int32 (get e)); intros [= <-]; reflexivity.
Qed.

(** X5.  Two rewrites of a field, by a map [A] and then by a map [B], do
    what one rewrite by the composed map does. *)
Theorem UpdateIDs_compose IDName A B (f : Field T) s s1 s2 :
  FieldByName IDName = Some f ->
  UpdateIDs (Slice s) IDName A = Ok s1 ->
  UpdateIDs (Slice s1) IDName B = Ok s2 ->
  UpdateIDs (Slice s) IDName (composeChanges (storedAs f) A B) = Ok s2.
Proof.
  intros Hf. simpl. rewrite !updateElems_Ok. intros H1. revert s2.
  induction H1 as [|[e|] y s s1 Hxy _ IH]; intros s2 H2; simpl in *.
  - inversion H2. constructor.
  - destruct Hxy as (e1 & He1 & ->).
    inversion H2 as [|? y2 ? s2' Hy2 Hrest]; subst.
    simpl in Hy2. destruct Hy2 as (e2 & He2 & ->).
    constructor; [|by apply IH].
    exists e2. split; [|reflexivity]. by apply (updateElem_compose _ _ _ f _ e1).
  - subst y. inversion H2 as [|? y2 ? s2' Hy2 Hrest]; subst.
    simpl in Hy2. subst y2. constructor; [reflexivity|by apply IH].
Qed.

(** X6.  On a nullable FK [UpdateIDs] stores the new ID cut to 32 bits:
    the slot of a rewritten row holds [int32] of the new ID, which is the one
    value within 32 bits that differs from the new ID by a multiple of 2^32,
    and so is the new ID itself exactly when that is within 32 bits. *)
Theorem UpdateIDs_int32_cut IDName changes s s' get set :
  FieldByName IDName = Some (FNullInt32 get set) ->
  UpdateIDs (Slice s) IDName changes = Ok s' ->
  forall (i : nat) e new,
    s !! i = Some (Some e) ->
    changes !! NullInt32.Int32 (get e) = Some new ->
    exists e',
      s' !! i = Some (Some e') /\
      NullInt32.Int32 (get e') = int32 new /\
      - 2 ^ 31 <= NullInt32.Int32 (get e') < 2 ^ 31 /\
      (exists k, NullInt32.Int32 (get e') = new + k * 2 ^ 32) /\
      (NullInt32.Int32 (get e') = new <-> - 2 ^ 31 <= new < 2 ^ 31).
Proof.
  intros Hf. simpl. rewrite updateElems_Ok. intros Hall i e new Hi Hc.
  destruct (Forall2_lookup_l _ _ _ _ _ Hall Hi) as (y & Hy & Hr).
  simpl in Hr. destruct Hr as (e' & He' & ->).
  exists e'. split; [exact Hy|].
  rewrite (updateElem_null _ _ _ _ _ Hf), Hc in He'. injection He' as <-.
  rewrite (null_get_set _ _ _ _ _ Hf). simpl.
  pose proof (int32_range new) as Hrange.
  split; [reflexivity|]. split; [exact Hrange|]. split; [|split].
  - apply int32_congr.
  - intros Heq. by rewrite <- Heq.
  - apply int32_small.
Qed.
End UpdateIDs_more.

Lemma UpdateIDs_shape_witness :
  length TestUpdateIDs_Notes.expectedLeft = length TestUpdateIDs_Notes.left /\
  TestUpdateIDs_Notes.expectedLeft !! 3%nat = Some None.
Proof.
  destruct (UpdateIDs_shape "LocationID"
              (IDChanges.Left TestUpdateIDs_Notes.changes)
              TestUpdateIDs_Notes.left TestUpdateIDs_Notes.expectedLeft)
    as [Hlen Hnil]; [vm_compute; reflexivity|].
  split; [exact Hlen|]. apply Hnil. reflexivity.
Defined.

Lemma UpdateIDs_int_fk_witness :
  exists s',
    UpdateIDs (Slice TestUpdateIDs_Bookmarks.right) "LocationID"
      (IDChanges.Right TestUpdateIDs_Bookmarks.changes) = Ok s' /\
    exists m', s' !! 3%nat = Some (Some m') /\ Bookmark.LocationID m' = 2.
Proof.
  destruct (UpdateIDs_int_fk "LocationID"
              (IDChanges.Right TestUpdateIDs_Bookmarks.changes)
              TestUpdateIDs_Bookmarks.right Bookmark.LocationID
              Bookmark.set_LocationID eq_refl) as (s' & Hs' & Hrows).
  exists s'. split; [exact Hs'|].
  destruct (Hrows 3%nat (TestUpdateIDs_Bookmarks.bookmark 3 1) eq_refl)
    as (m' & Hm' & Hget & _).
  exists m'. split; [exact Hm'|]. rewrite Hget. reflexivity.
Defined.

Lemma UpdateIDs_other_fields_witness :
  exists m',
    TestUpdateIDs_Bookmarks.expectedRight !! 3%nat = Some (Some m') /\
    fieldValue "BookmarkID" m' = Some (VInt 3).
Proof.
  destruct (UpdateIDs_other_fields "LocationID" "BookmarkID"
              (IDChanges.Right TestUpdateIDs_Bookmarks.changes)
              TestUpdateIDs_Bookmarks.right
              TestUpdateIDs_Bookmarks.expectedRight
              ltac:(discriminate) ltac:(vm_compute; reflexivity)
              3%nat (TestUpdateIDs_Bookmarks.bookmark 3 1) eq_refl)
    as (m' & Hm' & Hval).
  exists m'. split; [exact Hm'|]. rewrite Hval. reflexivity.
Defined.

Lemma UpdateIDs_identity_witness :
  UpdateIDs (Slice TestUpdateIDs_Notes.left) "LocationID" {[2 := 2]}
  = Ok TestUpdateIDs_Notes.left.
Proof.
  apply (UpdateIDs_identity "LocationID" {[2 := 2]}
           (FNullInt32 Note.LocationID Note.set_LocationID)).
  - reflexivity.
  - reflexivity.
  - intros k v Hk. apply lookup_singleton_Some in Hk as [<- <-]. reflexivity.
Defined.

Lemma UpdateIDs_compose_witness :
  UpdateIDs (Slice [None; Some (TestUpdateIDs_Bookmarks.bookmark 1 1)])
    "LocationID" (composeChanges id {[1 := 2]} {[2 := 3]})
  = Ok [None; Some (TestUpdateIDs_Bookmarks.bookmark 1 3)].
Proof.
  apply (UpdateIDs_compose "LocationID" {[1 := 2]} {[2 := 3]}
           (FInt Bookmark.LocationID Bookmark.set_LocationID)
           [None; Some (TestUpdateIDs_Bookmarks.bookmark 1 1)]
           [None; Some (TestUpdateIDs_Bookmarks.bookmark 1 2)]).
  - reflexivity.
  - vm_compute. reflexivity.
  - vm_compute. reflexivity.
Defined.

Lemma UpdateIDs_int32_cut_witness :
  exists e',
    [Some (Note.mk 1 NullInt32.zero (NullInt32.mk (-2147483648) true) 0)]
      !! 0%nat = Some (Some e') /\
    NullInt32.Int32 (Note.LocationID e') = int32 2147483648 /\
    - 2 ^ 31 <= NullInt32.Int32 (Note.LocationID e') < 2 ^ 31.
Proof.
  assert (Hrun : UpdateIDs (Slice [Some (TestUpdateIDs_Notes.note 1 1 0)])
                   "LocationID" {[1 := 2147483648]} =
                 Ok [Some (Note.mk 1 NullInt32.zero
                             (NullInt32.mk (-2147483648) true) 0)]).
  { vm_compute. reflexivity. }
  destruct (UpdateIDs_int32_cut "LocationID" {[1 := 2147483648]} _ _
              Note.LocationID Note.set_LocationID eq_refl Hrun
              0%nat (TestUpdateIDs_Notes.note 1 1 0) 2147483648
              eq_refl eq_refl)
    as (e' & He' & Hcut & Hrange & _).
  exists e'. split; [exact He'|]. split; [exact Hcut|exact Hrange].
Defined.

(** ** More on [sortByUniqueKey] *)

#[global] Instance Bookmark_KeptKey : KeptKey Bookmark.t.
Proof. split. reflexivity. Qed.
#[global] Instance Location_KeptKey : KeptKey Location.t.
Proof. split. reflexivity. Qed.

Lemma Sorted_drop {A : Type} (R : relation A) (k : nat) (l : list A) :
  Sorted R l -> Sorted R (drop k l).
Proof.
  revert l. induction k as [|k IH]; intros l Hs; [by rewrite drop_0|].
  destruct l as [|x l]; [constructor|]. simpl. apply IH.
  by apply Sorted_inv in Hs as [Hs _].
Qed.

Section sortByUniqueKey_more_facts.
Context {T : Type} `{LawfulModel T}.
Implicit Types (s l : list (option T)) (m : T).

Lemma trimNils_drop l : exists k : nat, trimNils l = drop k l.
Proof.
  unfold trimNils. destruct (1 <? nilCount l)%nat.
  - by exists (nilCount l - 1)%nat.
  - exists 0%nat. by rewrite drop_0.
Qed.

Lemma nilCount_le_length l : (nilCount l <= length l)%nat.
Proof. induction l as [|[m|] l IH]; simpl; lia. Qed.

Lemma nilCount_zero l : None ∉ l -> nilCount l = 0%nat.
Proof.
  induction l as [|[m|] l IH]; simpl; intros Hnil.
  - reflexivity.
  - apply IH. intros Hin. apply Hnil. by right.
  - exfalso. apply Hnil. left.
Qed.

Lemma updateIDsFrom_length i l changes :
  length (updateIDsFrom i l changes).1 = length l.
Proof. by rewrite updateIDsFrom_slice, length_imap. Qed.

Lemma place_ID (k : nat) (x : option T) m :
  place k x = Some m -> ID m = Z.of_nat k.
Proof.
  destruct x as [m0|]; simpl; [|discriminate]. intros [= <-].
  destruct (decide (ID m0 = Z.of_nat k)); [done|apply ID_SetID].
Qed.

Lemma place_None (k : nat) (x : option T) : place k x = None <-> x = None.
Proof. destruct x; simpl; split; (discriminate || reflexivity). Qed.

(** Rows with different places carry different IDs, when no ID occurs
    twice. *)
Lemma rowIDs_lookup_inj l (i j : nat) m m' :
  NoDup (rowIDs l) ->
  l !! i = Some (Some m) -> l !! j = Some (Some m') -> ID m = ID m' ->
  i = j.
Proof.
  revert i j. induction l as [|[m0|] l IH]; intros i j Hnd Hi Hj Heq.
  - discriminate.
  - unfold rowIDs in Hnd. simpl in Hnd.
    apply NoDup_cons in Hnd as [Hm0 Hnd].
    assert (Hin : forall (k : nat) m1,
               l !! k = Some (Some m1) -> ID m1 ∈ ID <$> omap id l).
    { intros k m1 Hk. apply list_elem_of_fmap. exists m1.
      split; [reflexivity|]. apply list_elem_of_omap. exists (Some m1).
      split; [|reflexivity]. apply list_elem_of_lookup. eauto. }
    destruct i as [|i], j as [|j]; simpl in Hi, Hj.
    + reflexivity.
    + injection Hi as ->. exfalso. apply Hm0. rewrite Heq. eauto.
    + injection Hj as ->. exfalso. apply Hm0. rewrite <- Heq. eauto.
    + f_equal. by apply (IH i j Hnd Hi Hj).
  - destruct i as [|i], j as [|j]; simpl in Hi, Hj; try discriminate.
    f_equal. by apply (IH i j Hnd Hi Hj).
Qed.

Lemma rowIDs_drop_NoDup (k : nat) l :
  NoDup (rowIDs l) -> NoDup (rowIDs (drop k l)).
Proof.
  revert l. induction k as [|k IH]; intros l Hnd; [by rewrite drop_0|].
  destruct l as [|[m|] l]; simpl; [exact Hnd| |].
  - apply IH. unfold rowIDs in Hnd. simpl in Hnd.
    by apply NoDup_cons in Hnd as [_ Hnd].
  - by apply IH.
Qed.
End sortByUniqueKey_more_facts.

Section sortByUniqueKey_more.
Context {T : Type} `{LawfulModel T}.
Implicit Types (s : list (option T)) (m : T).

Variable sort_Slice :
  (option T -> option T -> bool) -> list (option T) -> list (option T).
Hypothesis sort_Slice_perm : forall s, sort_Slice less s ≡ₚ s.
Hypothesis sort_Slice_sorted :
  forall s, Sorted (inOrder less) (sort_Slice less s).

(** X7.  On a slice without a nil, [sortByUniqueKey] puts no nil in front:
    the slice keeps its length and holds rows only, each with its index as
    its ID, so that the first row has the ID 0. *)
Theorem sortByUniqueKey_no_nil s :
  None ∉ s ->
  exists out changes,
    sortByUniqueKey sort_Slice (PtrToSlice s) = Ok (out, changes) /\
    length out = length s /\
    (None ∉ out) /\
    (forall (i : nat) m, out !! i = Some (Some m) -> ID m = Z.of_nat i).
Proof.
  intros Hnil.
  pose proof (sort_Slice_perm s) as Hperm.
  assert (Hplaced : placed sort_Slice s = sort_Slice less s).
  { unfold placed, trimNils.
    by rewrite (nilCount_perm _ _ Hperm), (nilCount_zero s Hnil). }
  destruct (updateIDsFrom 0 (placed sort_Slice s) ∅) as [out changes]
    eqn:Hrun.
  exists out, changes.
  assert (Hout : out = imap place (placed sort_Slice s)).
  { pose proof (updateIDsFrom_slice 0 (placed sort_Slice s) ∅) as Hs.
    rewrite Hrun in Hs. exact Hs. }
  split; [simpl; by rewrite Hrun|].
  split; [|split].
  - by rewrite Hout, length_imap, Hplaced, Hperm.
  - intros Hin. apply list_elem_of_lookup in Hin as [i Hi].
    rewrite Hout, list_lookup_imap, Hplaced in Hi.
    destruct (sort_Slice less s !! i) as [x|] eqn:Hx; [|discriminate].
    simpl in Hi. injection Hi as Hi. apply place_None in Hi as ->.
    apply Hnil. rewrite <- Hperm. apply list_elem_of_lookup. eauto.
  - intros i m. rewrite Hout, list_lookup_imap.
    destruct (placed sort_Slice s !! i) as [x|]; [|discriminate].
    simpl. intros [= Hx]. by apply (place_ID i x).
Qed.

(** X8.  The output is shorter than the input by the nils that are too
    many: by none when there is at most one nil, else by all nils but
    one. *)
Theorem sortByUniqueKey_length s out changes :
  sortByUniqueKey sort_Slice (PtrToSlice s) = Ok (out, changes) ->
  length out = (length s - (nilCount s - 1))%nat.
Proof.
  simpl. intros [= Hrun].
  pose proof (updateIDsFrom_length 0 (placed sort_Slice s) ∅) as Hlen.
  rewrite Hrun in Hlen. simpl in Hlen. rewrite Hlen.
  pose proof (sort_Slice_perm s) as Hperm.
  unfold placed, trimNils. rewrite (nilCount_perm _ _ Hperm).
  destruct (1 <? nilCount s)%nat eqn:Hn.
  - by rewrite length_drop, Hperm.
  - apply Nat.ltb_ge in Hn. rewrite Hperm. lia.
Qed.

(** X9.  The map that [sortByUniqueKey] returns sends no ID to itself and
    no two old IDs to one new ID, and every new ID in it is the index of a
    row of the output. *)
Theorem sortByUniqueKey_changes_injective s out changes :
  sortByUniqueKey sort_Slice (PtrToSlice s) = Ok (out, changes) ->
  (forall old new, changes !! old = Some new ->
     old <> new /\
     exists (i : nat) m,
       new = Z.of_nat i /\ out !! i = Some (Some m) /\ ID m = new) /\
  (forall old old' new,
     changes !! old = Some new -> changes !! old' = Some new -> old = old').
Proof.
  simpl. intros [= Hrun].
  assert (Hout : out = imap place (placed sort_Slice s)).
  { pose proof (updateIDsFrom_slice 0 (placed sort_Slice s) ∅) as Hs.
    rewrite Hrun in Hs. exact Hs. }
  assert (Hsound : forall old new, changes !! old = Some new ->
            exists (i : nat) m,
              placed sort_Slice s !! i = Some (Some m) /\ ID m = old /\
              new = Z.of_nat i /\ old <> new).
  { intros old new Hc.
    pose proof (updateIDsFrom_sound 0 (placed sort_Slice s) ∅ old new)
      as Hs.
    rewrite Hrun in Hs. destruct (Hs Hc) as [Hemp|Hrow]; [|exact Hrow].
    by rewrite lookup_empty in Hemp. }
  split.
  - intros old new Hc. destruct (Hsound old new Hc) as (i & m & Hi & _ & -> & Hne).
    split; [exact Hne|].
    assert (Hoi : out !! i = Some (place i (Some m))).
    { by rewrite Hout, list_lookup_imap, Hi. }
    simpl in Hoi. eexists i, _. split; [reflexivity|]. split; [exact Hoi|].
    destruct (decide (ID m = Z.of_nat i)); [done|apply ID_SetID].
  - intros old old' new Hc Hc'.
    destruct (Hsound old new Hc) as (i & m & Hi & <- & -> & _).
    destruct (Hsound old' _ Hc') as (i' & m' & Hi' & <- & Heq & _).
    apply Nat2Z.inj in Heq as <-. rewrite Hi in Hi'. by injection Hi' as <-.
Qed.

(** X10.  When no two rows come with the same ID, the map that
    [sortByUniqueKey] returns makes the FKs follow the rows: after
    [UpdateIDs] with it, a row of another table that referred to a row by
    its old ID holds the index at which that row now is. *)
Theorem sortByUniqueKey_then_UpdateIDs {R : Type} `{LawfulStruct R}
    s out changes IDName (get : R -> Z) set (refs refs' : list (option R)) :
  NoDup (rowIDs s) ->
  sortByUniqueKey sort_Slice (PtrToSlice s) = Ok (out, changes) ->
  FieldByName IDName = Some (FInt get set) ->
  UpdateIDs (Slice refs) IDName changes = Ok refs' ->
  forall (i j : nat) m r,
    placed sort_Slice s !! i = Some (Some m) ->
    refs !! j = Some (Some r) -> get r = ID m ->
    exists m' r',
      out !! i = Some (Some m') /\ refs' !! j = Some (Some r') /\
      get r' = ID m'.
Proof.
  intros Hnd [= Hrun] Hf Hupd i j m r Hi Hj Hget.
  assert (Hout : out = imap place (placed sort_Slice s)).
  { pose proof (updateIDsFrom_slice 0 (placed sort_Slice s) ∅) as Hs.
    rewrite Hrun in Hs. exact Hs. }
  assert (Hndp : NoDup (rowIDs (placed sort_Slice s))).
  { unfold placed. destruct (trimNils_drop (sort_Slice less s)) as [k ->].
    apply rowIDs_drop_NoDup. unfold rowIDs.
    by rewrite (sort_Slice_perm s). }
  assert (Hoi : out !! i = Some (place i (Some m))).
  { by rewrite Hout, list_lookup_imap, Hi. }
  simpl in Hoi. eexists _. 
  simpl in Hupd. apply updateElems_Ok in Hupd.
  destruct (Forall2_lookup_l _ _ _ _ _ Hupd Hj) as (y & Hy & Hr).
  simpl in Hr. destruct Hr as (r' & Hr' & ->).
  exists r'. split; [exact Hoi|]. split; [exact Hy|].
  rewrite (updateElem_int _ _ _ _ _ Hf) in Hr'. rewrite Hget in Hr'.
  destruct (decide (ID m = Z.of_nat i)) as [Hsame|Hmoved].
  - assert (Hnone : changes !! ID m = None).
    { destruct (changes !! ID m) as [new|] eqn:Hc; [|reflexivity].
      pose proof (updateIDsFrom_sound 0 (placed sort_Slice s) ∅ (ID m) new)
        as Hs.
      rewrite Hrun in Hs.
      destruct (Hs Hc) as [Hemp|(i' & m2 & Hi' & Hid & -> & Hne)].
      - by rewrite lookup_empty in Hemp.
      - pose proof (rowIDs_lookup_inj _ _ _ _ _ Hndp Hi' Hi Hid) as ->.
        by destruct Hne. }
    rewrite Hnone in Hr'. injection Hr' as <-. exact Hget.
  - pose proof (updateIDsFrom_complete 0 (placed sort_Slice s) ∅ i m Hndp
                  Hi Hmoved) as Hc.
    rewrite Hrun in Hc. simpl in Hc. rewrite Hc in Hr'. injection Hr' as <-.
    rewrite (int_get_set _ _ _ _ _ Hf). symmetry. apply ID_SetID.
Qed.
End sortByUniqueKey_more.

Section sortByUniqueKey_order.
Context {T : Type} `{LawfulModel T} `{!KeptKey T}.
Implicit Types (s : list (option T)) (m : T).

Variable sort_Slice :
  (option T -> option T -> bool) -> list (option T) -> list (option T).
Hypothesis sort_Slice_sorted :
  forall s, Sorted (inOrder less) (sort_Slice less s).

Lemma less_place (i j : nat) (x y : option T) :
  less (place i x) (place j y) = less x y.
Proof.
  destruct x as [mx|], y as [my|]; simpl; try reflexivity.
  destruct (decide (ID mx = Z.of_nat i)), (decide (ID my = Z.of_nat j));
    by rewrite ?UniqueKey_SetID.
Qed.

Lemma Sorted_imap_place (i : nat) (l : list (option T)) :
  Sorted (inOrder less) l ->
  Sorted (inOrder less) (imap (fun j => place (i + j)) l).
Proof.
  intros Hs. revert i. induction Hs as [|x l Hs IH Hd]; intros i; simpl.
  - constructor.
  - assert (Hext : imap ((fun j => place (i + j)) ∘ S) l =
                   imap (fun j => place (S i + j)) l).
    { apply imap_ext. intros j y _. simpl. f_equal. lia. }
    rewrite Hext. constructor; [apply IH|].
    destruct Hd as [|y l Hxy]; simpl; constructor.
    unfold inOrder in *. by rewrite less_place.
Qed.

(** X11.  For a table whose key does not depend on the ID, the output of
    [sortByUniqueKey] is in the order of the keys, nils first: no element is
    less than the one before it. *)
Theorem sortByUniqueKey_sorted s out changes :
  sortByUniqueKey sort_Slice (PtrToSlice s) = Ok (out, changes) ->
  Sorted (inOrder less) out /\
  (forall (i : nat) m m',
     out !! i = Some (Some m) -> out !! S i = Some (Some m') ->
     String.ltb (UniqueKey m') (UniqueKey m) = false).
Proof.
  simpl. intros [= Hrun].
  assert (Hout : out = imap (fun j => place (0 + j)) (placed sort_Slice s)).
  { pose proof (updateIDsFrom_slice 0 (placed sort_Slice s) ∅) as Hs.
    rewrite Hrun in Hs. exact Hs. }
  assert (Hsorted : Sorted (inOrder less) out).
  { rewrite Hout. apply Sorted_imap_place. unfold placed.
    destruct (trimNils_drop (sort_Slice less s)) as [k ->].
    apply Sorted_drop, sort_Slice_sorted. }
  split; [exact Hsorted|].
  clear Hout Hrun. intros i. revert out Hsorted.
  induction i as [|i IH]; intros out Hsorted m m' Hi Hi'.
  - destruct out as [|x [|y out]]; try discriminate.
    simpl in Hi, Hi'. injection Hi as ->. injection Hi' as ->.
    apply Sorted_inv in Hsorted as [_ Hd]. by apply HdRel_inv in Hd.
  - destruct out as [|x out]; [discriminate|].
    apply Sorted_inv in Hsorted as [Hsorted _]. by apply (IH out).
Qed.
End sortByUniqueKey_order.

Lemma sortByUniqueKey_no_nil_witness :
  exists out changes,
    sortByUniqueKey sort_Slice_merge
      (PtrToSlice [Some TwoLocations.locA; Some TwoLocations.locB])
      = Ok (out, changes) /\
    exists m, out !! 0%nat = Some (Some m) /\ ID m = 0.
Proof.
  destruct (sortByUniqueKey_no_nil sort_Slice_merge
              (sort_Slice_merge_perm less)
              [Some TwoLocations.locA; Some TwoLocations.locB])
    as (out & changes & Hrun & Hlen & Hnil & Hid).
  { intros Hin. apply elem_of_cons in Hin as [?|Hin]; [discriminate|].
    apply elem_of_cons in Hin as [?|Hin]; [discriminate|].
    by apply elem_of_nil in Hin. }
  exists out, changes. split; [exact Hrun|].
  destruct out as [|[m|] out]; simpl in Hlen.
  - discriminate.
  - exists m. split; [reflexivity|]. by apply (Hid 0%nat).
  - exfalso. apply Hnil. left.
Defined.

Lemma sortByUniqueKey_length_witness :
  length [None; Some (Bookmark.SetID 1 TwoBookmarks.b1);
          Some (Bookmark.SetID 2 TwoBookmarks.b2)] =
    (length (None :: TwoBookmarks.slice) -
     (nilCount (None :: TwoBookmarks.slice) - 1))%nat.
Proof.
  apply (sortByUniqueKey_length sort_Slice_merge (sort_Slice_merge_perm less)
           (None :: TwoBookmarks.slice) _ {[5 := 2]}).
  vm_compute. reflexivity.
Defined.

Lemma sortByUniqueKey_changes_injective_witness :
  (2 : Z) <> 1 /\
  exists (i : nat) m,
    1 = Z.of_nat i /\
    [None; Some (Location.SetID 1 TwoLocations.locB);
     Some (Location.SetID 2 TwoLocations.locA)] !! i = Some (Some m) /\
    ID m = 1.
Proof.
  assert (Hrun : sortByUniqueKey sort_Slice_merge
                   (PtrToSlice TwoLocations.slice) =
                 Ok ([None; Some (Location.SetID 1 TwoLocations.locB);
                      Some (Location.SetID 2 TwoLocations.locA)],
                     {[2 := 1; 1 := 2]})).
  { vm_compute. reflexivity. }
  apply (proj1 (sortByUniqueKey_changes_injective sort_Slice_merge _ _ _ Hrun)
           2 1).
  reflexivity.
Defined.

Lemma sortByUniqueKey_then_UpdateIDs_witness :
  exists m' r',
    [None; Some (Location.SetID 1 TwoLocations.locB);
     Some (Location.SetID 2 TwoLocations.locA)] !! 2%nat = Some (Some m') /\
    [None; Some (Bookmark.mk 1 2 1 0 "" NullString.zero 0 NullInt32.zero)]
      !! 1%nat = Some (Some r') /\
    Bookmark.LocationID r' = ID m'.
Proof.
  apply (sortByUniqueKey_then_UpdateIDs sort_Slice_merge
           (sort_Slice_merge_perm less)
           TwoLocations.slice _ {[2 := 1; 1 := 2]} "LocationID"
           Bookmark.LocationID Bookmark.set_LocationID
           TwoLocations.bookmarks _)
    with (m := TwoLocations.locA)
         (r := Bookmark.mk 1 1 1 0 "" NullString.zero 0 NullInt32.zero).
  - apply (bool_decide_unpack _). vm_compute. exact I.
  - vm_compute. reflexivity.
  - reflexivity.
  - vm_compute. reflexivity.
  - vm_compute. reflexivity.
  - reflexivity.
  - reflexivity.
Defined.

Lemma sortByUniqueKey_sorted_witness :
  String.ltb (UniqueKey (Location.SetID 2 TwoLocations.locA))
             (UniqueKey (Location.SetID 1 TwoLocations.locB)) = false.
Proof.
  assert (Hrun : sortByUniqueKey sort_Slice_merge
                   (PtrToSlice TwoLocations.slice) =
                 Ok ([None; Some (Location.SetID 1 TwoLocations.locB);
                      Some (Location.SetID 2 TwoLocations.locA)],
                     {[2 := 1; 1 := 2]})).
  { vm_compute. reflexivity. }
  apply (proj2 (sortByUniqueKey_sorted sort_Slice_merge
                  sort_Slice_merge_sorted _ _ _ Hrun) 1%nat); reflexivity.
Defined.

(** ** The keys of [Bookmark] and [Location] *)

Lemma chars_app (a b : string) :
  list_ascii_of_string (a +:+ b) =
    (list_ascii_of_string a ++ list_ascii_of_string b)%list.
Proof.
  induction a as [|c a IH]; [reflexivity|].
  change (String c a +:+ b) with (String c (a +:+ b)). simpl. by rewrite IH.
Qed.

Lemma chars_inj (a b : string) :
  list_ascii_of_string a = list_ascii_of_string b -> a = b.
Proof.
  intros Heq. rewrite <- (string_of_list_ascii_of_string a),
    <- (string_of_list_ascii_of_string b). by rewrite Heq.
Qed.

Lemma split_at_first {A : Type} (c : A) (x y a b : list A) :
  c ∉ x -> c ∉ y -> (x ++ c :: a = y ++ c :: b)%list -> x = y /\ a = b.
Proof.
  revert y. induction x as [|c0 x IH]; intros [|c1 y] Hx Hy Heq; simpl in Heq.
  - by injection Heq as ->.
  - injection Heq as -> _. exfalso. apply Hy. left.
  - injection Heq as -> _. exfalso. apply Hx. left.
  - injection Heq as -> Heq.
    destruct (IH y) as [-> ->]; [| |exact Heq|done].
    + intros Hin. apply Hx. by right.
    + intros Hin. apply Hy. by right.
Qed.

Lemma split_at_last {A : Type} (c : A) (x y a b : list A) :
  c ∉ a -> c ∉ b -> (x ++ c :: a = y ++ c :: b)%list -> x = y /\ a = b.
Proof.
  intros Ha Hb Heq. apply (f_equal reverse) in Heq.
  rewrite !reverse_app, !reverse_cons, <- !app_assoc in Heq. simpl in Heq.
  apply split_at_first in Heq as [Hab Hxy].
  - split; [by apply (inj reverse)|by apply (inj reverse)].
  - by rewrite elem_of_reverse.
  - by rewrite elem_of_reverse.
Qed.

Lemma FormatInt_inj (a b : Z) : FormatInt a = FormatInt b -> a = b.
Proof.
  unfold FormatInt. intros Heq.
  assert (Hnn : forall z, Z.to_int z <> Decimal.Pos Decimal.Nil /\
                          Z.to_int z <> Decimal.Neg Decimal.Nil).
  { intros [|p|p]; simpl; split; try discriminate;
      intros [= Hp]; by apply Unsigned.to_uint_nonnil in Hp. }
  apply (f_equal NilZero.int_of_string) in Heq.
  rewrite !NilZero.isi in Heq; try apply Hnn.
  injection Heq as Heq. by apply DecimalZ.to_int_inj.
Qed.

Lemma uint_no_underscore (d : Decimal.uint) :
  "_"%char ∉ list_ascii_of_string (NilEmpty.string_of_uint d).
Proof.
  induction d; simpl; intros Hin;
    try (apply elem_of_cons in Hin as [?|Hin]; [discriminate|done]).
  by apply elem_of_nil in Hin.
Qed.

Lemma FormatInt_no_underscore (x : Z) :
  "_"%char ∉ list_ascii_of_string (FormatInt x).
Proof.
  unfold FormatInt.
  assert (Hu : forall d, "_"%char ∉
                 list_ascii_of_string (NilZero.string_of_uint d)).
  { intros d. destruct d; try apply uint_no_underscore.
    simpl. intros Hin.
    apply elem_of_cons in Hin as [?|Hin]; [discriminate|].
    by apply elem_of_nil in Hin. }
  destruct (Z.to_int x) as [d|d]; simpl; [apply Hu|].
  intros Hin. apply elem_of_cons in Hin as [?|Hin]; [discriminate|].
  by apply Hu in Hin.
Qed.

(** A decimal number in front of a key ends at the first underscore. *)
Lemma key_head (x y : Z) (s t : string) :
  FormatInt x +:+ "_" +:+ s = FormatInt y +:+ "_" +:+ t -> x = y /\ s = t.
Proof.
  intros Heq. apply (f_equal list_ascii_of_string) in Heq.
  rewrite !chars_app in Heq. simpl in Heq.
  apply split_at_first in Heq as [Hxy Hst];
    try apply FormatInt_no_underscore.
  split; [by apply FormatInt_inj, chars_inj|by apply chars_inj].
Qed.

(** A decimal number at the end of a key starts after the last
    underscore. *)
Lemma key_last (s t : string) (x y : Z) :
  s +:+ "_" +:+ FormatInt x = t +:+ "_" +:+ FormatInt y -> s = t /\ x = y.
Proof.
  intros Heq. apply (f_equal list_ascii_of_string) in Heq.
  rewrite !chars_app in Heq. simpl in Heq.
  apply split_at_last in Heq as [Hst Hxy];
    try apply FormatInt_no_underscore.
  split; [by apply chars_inj|by apply FormatInt_inj, chars_inj].
Qed.

(** X12.  Two bookmarks have the same [UniqueKey] exactly when they agree
    in [PublicationLocationID] and in [Slot]: the key loses nothing of the
    two numbers. *)
Theorem Bookmark_UniqueKey_inj (m m2 : Bookmark.t) :
  Bookmark.UniqueKey m = Bookmark.UniqueKey m2 <->
  Bookmark.PublicationLocationID m = Bookmark.PublicationLocationID m2 /\
  Bookmark.Slot m = Bookmark.Slot m2.
Proof.
  unfold Bookmark.UniqueKey. split.
  - intros Heq. apply key_head in Heq as [Hp Hs].
    split; [exact Hp|by apply FormatInt_inj].
  - by intros [-> ->].
Qed.

Lemma key_assoc (k a b : string) :
  k +:+ "_" +:+ a +:+ "_" +:+ b = (k +:+ "_" +:+ a) +:+ "_" +:+ b.
Proof.
  apply chars_inj. rewrite !chars_app. by rewrite <- !app_assoc.
Qed.

(** X13.  Two locations have the same [UniqueKey] exactly when they agree
    in the eight slots that the key is made of, although the [KeySymbol] in
    the middle of the key can hold underscores and digits itself. *)
Theorem Location_UniqueKey_inj (m m2 : Location.t) :
  Location.UniqueKey m = Location.UniqueKey m2 <->
  NullInt32.Int32 (Location.BookNumber m) =
    NullInt32.Int32 (Location.BookNumber m2) /\
  NullInt32.Int32 (Location.ChapterNumber m) =
    NullInt32.Int32 (Location.ChapterNumber m2) /\
  NullInt32.Int32 (Location.DocumentID m) =
    NullInt32.Int32 (Location.DocumentID m2) /\
  NullInt32.Int32 (Location.Track m) = NullInt32.Int32 (Location.Track m2) /\
  Location.IssueTagNumber m = Location.IssueTagNumber m2 /\
  NullString.String (Location.KeySymbol m) =
    NullString.String (Location.KeySymbol m2) /\
  Location.MepsLanguage m = Location.MepsLanguage m2 /\
  Location.LocationType m = Location.LocationType m2.
Proof.
  unfold Location.UniqueKey. split.
  - intros Heq.
    apply key_head in Heq as [Hb Heq]. apply key_head in Heq as [Hc Heq].
    apply key_head in Heq as [Hd Heq]. apply key_head in Heq as [Ht Heq].
    apply key_head in Heq as [Hi Heq].
    rewrite !(key_assoc _ (FormatInt _)) in Heq.
    apply key_last in Heq as [Heq Hl]. apply key_last in Heq as [Hk Hm].
    done.
  - intros (-> & -> & -> & -> & -> & -> & -> & ->). reflexivity.
Qed.

(** X14.  [Equals] of a bookmark holds exactly for another bookmark that
    differs from it in the [BookmarkID] at most: for nil and for the rows of
    other tables it is false. *)
Theorem Bookmark_Equals_iff (m : Bookmark.t) (m2 : AnyModel) :
  Bookmark_Equals m m2 = true <->
  exists m', m2 = PBookmark m' /\ Bookmark.SetID (Bookmark.ID m) m' = m.
Proof.
  destruct m2 as [|m'| | |]; simpl;
    try (split; [discriminate|intros (? & [=] & _)]).
  rewrite !andb_true_iff, !bool_decide_eq_true. split.
  - intros ((((((Hl & Hp) & Hs) & Ht) & Hn) & Hb) & Hi).
    exists m'. split; [reflexivity|].
    destruct m, m'; simpl in *. by subst.
  - intros (? & [= <-] & <-). by destruct m'.
Qed.

(** X15.  Bookmarks that [Equals] holds for have the same [UniqueKey]. *)
Theorem Bookmark_Equals_UniqueKey (m m2 : Bookmark.t) :
  Bookmark_Equals m (PBookmark m2) = true ->
  Bookmark.UniqueKey m = Bookmark.UniqueKey m2.
Proof.
  simpl. rewrite !andb_true_iff, !bool_decide_eq_true.
  intros ((((((_ & Hp) & Hs) & _) & _) & _) & _).
  unfold Bookmark.UniqueKey. by rewrite Hp, Hs.
Qed.

Lemma Bookmark_Equals_UniqueKey_witness :
  Bookmark.UniqueKey TwoBookmarks.b1 =
  Bookmark.UniqueKey (Bookmark.SetID 7 TwoBookmarks.b1).
Proof.
  apply (Bookmark_Equals_UniqueKey TwoBookmarks.b1
           (Bookmark.SetID 7 TwoBookmarks.b1)).
  reflexivity.
Defined.

(** ** [MakeModelSlice] and [MakeSlice] *)

Lemma Bookmark_MakeSlice_asModel (s : list (option Bookmark.t)) :
  Bookmark_MakeSlice (asModel <$> s) = Ok s.
Proof.
  unfold Bookmark_MakeSlice. induction s as [|p s IH]; [reflexivity|].
  rewrite fmap_cons. cbn [mapM asModel Bookmark_ModelStruct toBookmark].
  unfold asModel in IH. cbn [Bookmark_ModelStruct] in IH. by rewrite IH.
Qed.

Lemma Location_MakeSlice_asModel (s : list (option Location.t)) :
  Location_MakeSlice (asModel <$> s) = Ok s.
Proof.
  unfold Location_MakeSlice. induction s as [|p s IH]; [reflexivity|].
  rewrite fmap_cons. cbn [mapM asModel Location_ModelStruct toLocation].
  unfold asModel in IH. cbn [Location_ModelStruct] in IH. by rewrite IH.
Qed.

(** X16.  A slice of bookmarks, or of locations, that is turned into a
    [[]Model] by [MakeModelSlice] comes back from the [MakeSlice] of its
    table as it was, the nil pointers in it too. *)
Theorem MakeSlice_MakeModelSlice :
  (forall s : list (option Bookmark.t),
     exists mdl,
       MakeModelSlice (Slice s) = inl mdl /\ Bookmark_MakeSlice mdl = Ok s) /\
  (forall s : list (option Location.t),
     exists mdl,
       MakeModelSlice (Slice s) = inl mdl /\ Location_MakeSlice mdl = Ok s).
Proof.
  split; intros s; eexists; (split; [reflexivity|]).
  - apply Bookmark_MakeSlice_asModel.
  - apply Location_MakeSlice_asModel.
Qed.

Lemma Bookmark_MakeSlice_Ok (mdl : list ModelValue) s :
  Bookmark_MakeSlice mdl = Ok s ->
  Forall2 (fun x p => toBookmark x = Ok p) mdl s.
Proof.
  unfold Bookmark_MakeSlice. revert s.
  induction mdl as [|x mdl IH]; intros s; simpl.
  - intros [= <-]. constructor.
  - destruct (toBookmark x) as [p|msg] eqn:Hx; simpl; [|discriminate].
    destruct (mapM toBookmark mdl) as [s0|msg]; simpl; [|discriminate].
    intros [= <-]. constructor; [exact Hx|by apply IH].
Qed.

(** X17.  The other way round a nil is not kept as it was: a [[]Model]
    that went through [Bookmark.MakeSlice] and back through [MakeModelSlice]
    has its length and holds a nil pointer of type [*Bookmark], not the nil
    interface, where it held the nil interface; it is the slice it was
    when it held no nil interface. *)
Theorem MakeModelSlice_MakeSlice (mdl : list ModelValue) s :
  Bookmark_MakeSlice mdl = Ok s ->
  exists mdl',
    MakeModelSlice (Slice s) = inl mdl' /\
    length mdl' = length mdl /\
    (NilInterface ∉ mdl') /\
    (forall i : nat,
       mdl !! i = Some NilInterface -> mdl' !! i = Some (BookmarkPtr None)) /\
    (NilInterface ∉ mdl -> mdl' = mdl).
Proof.
  intros Hs. apply Bookmark_MakeSlice_Ok in Hs.
  exists (asModel <$> s). split; [reflexivity|].
  split; [|split; [|split]].
  - rewrite length_fmap. symmetry. by eapply Forall2_length.
  - intros Hin. apply list_elem_of_fmap in Hin as (p & Hp & _). discriminate.
  - intros i Hi. rewrite list_lookup_fmap.
    destruct (Forall2_lookup_l _ _ _ _ _ Hs Hi) as (p & -> & Hx).
    simpl in Hx. by injection Hx as <-.
  - induction Hs as [|x p mdl s Hx _ IH]; intros Hnil; [reflexivity|].
    simpl. f_equal.
    + destruct x; simpl in Hx; try discriminate.
      * exfalso. apply Hnil. left.
      * by injection Hx as ->.
    + apply IH. intros Hin. apply Hnil. by right.
Qed.

Lemma MakeModelSlice_MakeSlice_witness :
  exists mdl',
    MakeModelSlice (Slice [None; Some Bookmark.zero]) = inl mdl' /\
    mdl' !! 0%nat = Some (BookmarkPtr None).
Proof.
  destruct (MakeModelSlice_MakeSlice
              [NilInterface; BookmarkPtr (Some Bookmark.zero)]
              [None; Some Bookmark.zero] eq_refl)
    as (mdl' & Hmdl & _ & _ & Hnil & _).
  exists mdl'. split; [exact Hmdl|]. apply Hnil. reflexivity.
Defined.

(** X18.  The [MakeSlice] of one table does not go with the rows of
    another: on the [[]Model] of a slice of bookmarks that is not empty,
    [Location.MakeSlice] panics, also when the slice holds nil pointers
    only. *)
Theorem MakeSlice_other_table (s : list (option Bookmark.t)) :
  s <> [] ->
  exists mdl msg,
    MakeModelSlice (Slice s) = inl mdl /\ Location_MakeSlice mdl = Panic msg.
Proof.
  intros Hne. destruct s as [|p s]; [done|].
  eexists _, _. split; reflexivity.
Qed.

Lemma MakeSlice_other_table_witness :
  exists mdl msg,
    MakeModelSlice (Slice [@None Bookmark.t]) = inl mdl /\
    Location_MakeSlice mdl = Panic msg.
Proof. apply (MakeSlice_other_table [None]). discriminate. Defined.

(** ** More on the driver *)

Section merge_more.
Context {TagT TagMapT BlockRangeT NoteT : Type}.
Context `{Struct TagMapT} `{Struct NoteT}.

Variable MergeLocations :
  list (option Location.t) -> list (option Location.t) ->
  list (option Location.t) * IDChanges.t * option MergeError.
Variable MergeBookmarks :
  list (option Bookmark.t) -> list (option Bookmark.t) ->
  gmap string MergeSolution.t ->
  list (option Bookmark.t) * IDChanges.t * option MergeError.
Variable MergeTags :
  list (option TagT) -> list (option TagT) -> gmap string MergeSolution.t ->
  list (option TagT) * IDChanges.t * option MergeError.
Variable MergeTagMaps :
  list (option TagMapT) -> list (option TagMapT) ->
  gmap string MergeSolution.t ->
  list (option TagMapT) * IDChanges.t * option MergeError.
Variable MergeUserMarkAndBlockRange :
  list (option UserMark.t) -> list (option BlockRangeT) ->
  list (option UserMark.t) -> list (option BlockRangeT) ->
  gmap string MergeSolution.t ->
  list (option UserMark.t) * list (option BlockRangeT) * IDChanges.t *
  option MergeError.
Variable MergeNotes :
  list (option NoteT) -> list (option NoteT) -> gmap string MergeSolution.t ->
  list (option NoteT) * IDChanges.t * option MergeError.
Variable merger_UpdateIDs :
  forall (T : Type), Struct T -> Arg T -> Arg T -> string -> IDChanges.t ->
  Result (list (option T) * list (option T)).
Variable User : Type.
Variable AskOne : User -> string -> MergeConflict.t -> cmd.Answer * User.

Local Abbreviation Database := (Database.t TagT TagMapT BlockRangeT NoteT).
Local Abbreviation St := (@cmd.St TagT TagMapT BlockRangeT NoteT User).
Local Abbreviation merge :=
  (cmd.merge MergeLocations MergeBookmarks MergeTags MergeTagMaps
     MergeUserMarkAndBlockRange MergeNotes merger_UpdateIDs User AskOne).

(** *** [handleMergeConflict] *)

Lemma askAll_result (l : list (string * MergeConflict.t)) acc u result u' :
  NoDup l.*1 ->
  cmd.askAll User AskOne l acc u = cmd.Done (result, u') ->
  (forall key c, (key, c) ∈ l ->
     exists side, result !! key = Some (solutionOf side c)) /\
  (forall key, key ∉ l.*1 -> result !! key = acc !! key).
Proof.
  revert acc u. induction l as [|[k c] l IH]; intros acc u Hnd; simpl.
  - intros [= <- <-]. split; [|done].
    intros key c Hin. by apply elem_of_nil in Hin.
  - apply NoDup_cons in Hnd as [Hk Hnd].
    destruct (AskOne u k c) as [[selected| |msg] u1]; try discriminate.
    assert (Hstep : forall side,
              cmd.askAll User AskOne l (<[k := solutionOf side c]> acc) u1
                = cmd.Done (result, u') ->
              (forall key c0, (key, c0) ∈ (k, c) :: l ->
                 exists side, result !! key = Some (solutionOf side c0)) /\
              (forall key, key ∉ k :: l.*1 -> result !! key = acc !! key)).
    { intros side Hrun. destruct (IH _ _ Hnd Hrun) as [Hin Hout]. split.
      - intros key c0 Hkey. apply elem_of_cons in Hkey as [[= -> ->]|Hkey].
        + exists side. by rewrite (Hout k Hk), lookup_insert_eq.
        + by apply Hin.
      - intros key Hkey. apply not_elem_of_cons in Hkey as [Hne Hkey].
        by rewrite (Hout key Hkey), lookup_insert_ne. }
    destruct (decide (selected = "Left")).
    + apply (Hstep LeftSide).
    + apply (Hstep RightSide).
Qed.

(** X19.  When [handleMergeConflict] returns, its result has a solution
    for every conflict and for nothing else, and the solution of a conflict
    is its left row with the right one discarded, or its right row with the
    left one discarded. *)
Theorem handleMergeConflict_solutions (conflicts : gmap string MergeConflict.t)
    (st st' : St) result :
  cmd.outcome (cmd.handleMergeConflict User AskOne conflicts st)
    = cmd.Done (result, st') ->
  forall key,
    match conflicts !! key with
    | Some c => exists side, result !! key = Some (solutionOf side c)
    | None => result !! key = None
    end.
Proof.
  unfold cmd.handleMergeConflict.
  destruct (cmd.askAll User AskOne (map_to_list conflicts) ∅ (cmd.user st))
    as [[result0 u]|f] eqn:Hask; simpl; [|discriminate].
  intros [= <- <-] key.
  destruct (askAll_result _ _ _ _ _ (NoDup_fst_map_to_list conflicts) Hask)
    as [Hin Hout].
  destruct (conflicts !! key) as [c|] eqn:Hc.
  - apply Hin. by apply elem_of_map_to_list.
  - rewrite Hout; [apply lookup_empty|].
    intros Hkey. apply list_elem_of_fmap in Hkey as ([k c] & -> & Hkc).
    apply elem_of_map_to_list in Hkc. simpl in Hc. congruence.
Qed.

(** *** What [merge] does not look at *)

(** X20.  The error that [MergeLocations] returns is not looked at: with
    two Locations merges that return the same list and the same
    [id_changes], the runs of [merge] are the same. *)
Theorem merge_ignores_Locations_error MergeLocations' fuel
    (left right : Database) (u : User) :
  (forall l r, (MergeLocations' l r).1 = (MergeLocations l r).1) ->
  cmd.merge MergeLocations' MergeBookmarks MergeTags MergeTagMaps
    MergeUserMarkAndBlockRange MergeNotes merger_UpdateIDs User AskOne
    fuel left right u =
  merge fuel left right u.
Proof.
  intros Hsame. unfold cmd.merge, cmd.mergeLocations. simpl.
  specialize (Hsame (Database.Location left) (Database.Location right)).
  destruct (MergeLocations' _ _) as [[l' c'] e'].
  destruct (MergeLocations _ _) as [[l c] e].
  simpl in Hsame. injection Hsame as -> ->. reflexivity.
Qed.

(** *** The order of the merges *)

(** X21.  In every run of [merge], of two merges the one that comes first
    in the code is through, with its result stored and its [id_changes]
    applied, before anything of the later one happens, and nothing of the
    later one has happened before anything of the earlier one does. *)
Theorem merge_one_after_the_other fuel (left right : Database) (u : User)
    (e e' : cmd.Event) :
  (cmd.rank (cmd.stepOf e) < cmd.rank (cmd.stepOf e'))%nat ->
  cmd.notBefore e' e (cmd.trace (merge fuel left right u)) /\
  forall q, q ∈ cmd.completed (cmd.stepOf e) ->
    cmd.precedes q e' (cmd.trace (merge fuel left right u)).
Proof.
  intros Hr.
  pose proof (merge_inOrder MergeLocations MergeBookmarks MergeTags
                MergeTagMaps MergeUserMarkAndBlockRange MergeNotes
                merger_UpdateIDs User AskOne fuel left right u) as Hord.
  split.
  - by apply inOrderFrom_notBefore.
  - intros q Hq. by apply (inOrderFrom_precedes _ (cmd.stepOf e)).
Qed.


(** *** What [merge] leaves as it is *)

Lemma untouched_refl (d : Database) : untouched d d.
Proof. by repeat split. Qed.

Lemma untouched_trans (d1 d2 d3 : Database) :
  untouched d1 d2 -> untouched d2 d3 -> untouched d1 d3.
Proof.
  unfold untouched. intros (? & ? & ? & ?) (? & ? & ? & ?).
  repeat split; congruence.
Qed.

Lemma keepsInputs_refl (st : St) : keepsInputs st st.
Proof. split; [|split]; [apply untouched_refl..|reflexivity]. Qed.

Lemma keepsInputs_trans (st1 st2 st3 : St) :
  keepsInputs st1 st2 -> keepsInputs st2 st3 -> keepsInputs st1 st3.
Proof.
  intros (Hl & Hr & Hm) (Hl' & Hr' & Hm'). split; [|split].
  - by apply (untouched_trans _ (cmd.left st2)).
  - by apply (untouched_trans _ (cmd.right st2)).
  - congruence.
Qed.

Lemma rewriteLeftRight_keeps {T : Type} `{Struct T}
    (get : Database -> list (option T)) set table IDName from changes
    (st st' : St) :
  (forall v d, untouched d (set v d)) ->
  cmd.outcome (cmd.rewriteLeftRight merger_UpdateIDs User get set table
                 IDName from changes st) = cmd.Done st' ->
  keepsInputs st st'.
Proof.
  intros Hset. unfold cmd.rewriteLeftRight.
  destruct (merger_UpdateIDs T _ _ _ IDName changes) as [[l r]|msg]; simpl;
    [|discriminate].
  intros [= <-]. split; [|split]; simpl; [apply Hset..|reflexivity].
Qed.

Lemma rewriteMerged_keeps {T : Type} `{Struct T}
    (get : Database -> list (option T)) set table IDName from changes
    (st st' : St) :
  (forall v d, Database.Location (set v d) = Database.Location d) ->
  cmd.outcome (cmd.rewriteMerged merger_UpdateIDs User get set table
                 IDName from changes st) = cmd.Done st' ->
  keepsInputs st st'.
Proof.
  intros Hset. unfold cmd.rewriteMerged.
  destruct (merger_UpdateIDs T _ _ _ IDName changes) as [[l r]|msg]; simpl;
    [|discriminate].
  intros [= <-]. split; [|split]; simpl; [apply untouched_refl..|apply Hset].
Qed.

Lemma conflictLoop_keeps {A : Type} fuel step
    (call : St -> gmap string MergeSolution.t ->
            A * IDChanges.t * option MergeError)
    onSuccess solution (st st' : St) :
  (forall a c st0 st1,
     cmd.outcome (onSuccess a c st0) = cmd.Done st1 -> keepsInputs st0 st1) ->
  cmd.outcome (cmd.conflictLoop User AskOne fuel step call onSuccess
                 solution st) = cmd.Done st' ->
  keepsInputs st st'.
Proof.
  intros Hsucc. revert solution st.
  induction fuel as [|fuel IH]; intros solution st; [discriminate|].
  cbn [cmd.conflictLoop]. rewrite bind_outcome. cbn [cmd.emit cmd.outcome].
  destruct (call st solution) as [[result changes] [[conflicts|msg]|]];
    rewrite ?bind_outcome; cbn [cmd.emit cmd.stop cmd.outcome].
  - unfold cmd.handleMergeConflict.
    destruct (cmd.askAll User AskOne (map_to_list conflicts) ∅
                (cmd.user st)) as [[solution' u]|f]; simpl; [|discriminate].
    intros Hrun. apply IH in Hrun. exact Hrun.
  - discriminate.
  - apply Hsucc.
Qed.

Ltac keeps_step Hrun st1 K1 :=
  rewrite bind_outcome in Hrun;
  match type of Hrun with
  | context [cmd.outcome ?r] =>
      destruct (cmd.outcome r) as [st1|] eqn:K1; [|discriminate]
  end.

(** X23.  The driver itself changes nothing of the lists of locations,
    tags, highlights and block ranges of the two backups: when [merge]
    returns they are as they were imported, and the merged list of locations
    is the one that [MergeLocations] returned for them.  (The merge functions
    are functions of the lists they are given: what package merger may do to
    a list in place is not modelled.) *)
Theorem merge_keeps_inputs fuel (left right : Database) (u : User)
    (st' : St) :
  cmd.outcome (merge fuel left right u) = cmd.Done st' ->
  untouched left (cmd.left st') /\
  untouched right (cmd.right st') /\
  Database.Location (cmd.merged st') =
    (MergeLocations (Database.Location left) (Database.Location right)).1.1.
Proof.
  unfold cmd.merge. intros Hrun.
  keeps_step Hrun st1 K1. keeps_step Hrun st2 K2. keeps_step Hrun st3 K3.
  keeps_step Hrun st4 K4. keeps_step Hrun st5 K5.
  assert (H1 : keepsInputs
                 (cmd.mkSt left right
                    (Database.set_Location
                       (MergeLocations (Database.Location left)
                          (Database.Location right)).1.1 Database.zero) u)
                 st1).
  { revert K1. unfold cmd.mergeLocations. rewrite bind_outcome. simpl.
    destruct (MergeLocations _ _) as [[mergedLocations changes] err].
    rewrite bind_outcome. simpl. intros K1.
    keeps_step K1 sta Ka. keeps_step K1 stb Kb. keeps_step K1 stc Kc.
    apply rewriteLeftRight_keeps in Ka, Kb, Kc, K1;
      try (intros; by repeat split).
    eapply keepsInputs_trans; [exact Ka|].
    eapply keepsInputs_trans; [exact Kb|].
    eapply keepsInputs_trans; [exact Kc|exact K1]. }
  assert (H2 : keepsInputs st1 st2).
  { revert K2. apply conflictLoop_keeps. intros a c st0 st1' [= <-].
    by repeat split. }
  assert (H3 : keepsInputs st2 st3).
  { revert K3. apply conflictLoop_keeps. intros a c st0 st1' Hs.
    apply rewriteLeftRight_keeps in Hs; [|intros; by repeat split].
    eapply keepsInputs_trans; [|exact Hs]. by repeat split. }
  assert (H4 : keepsInputs st3 st4).
  { revert K4. apply conflictLoop_keeps. intros a c st0 st1' [= <-].
    by repeat split. }
  assert (H5 : keepsInputs st4 st5).
  { revert K5. apply conflictLoop_keeps. intros [a b] c st0 st1' Hs.
    apply rewriteLeftRight_keeps in Hs; [|intros; by repeat split].
    eapply keepsInputs_trans; [|exact Hs]. by repeat split. }
  assert (H6 : keepsInputs st5 st').
  { revert Hrun. apply conflictLoop_keeps. intros a c st0 st1' Hs.
    apply rewriteMerged_keeps in Hs; [|done].
    eapply keepsInputs_trans; [|exact Hs]. by repeat split. }
  pose proof (keepsInputs_trans _ _ _ H1
                (keepsInputs_trans _ _ _ H2
                   (keepsInputs_trans _ _ _ H3
                      (keepsInputs_trans _ _ _ H4
                         (keepsInputs_trans _ _ _ H5 H6))))) as Hall.
  exact Hall.
Qed.

(** *** Runs without conflicts *)

Lemma straight_ret {A : Type} (a : A) : straight [] (mret a : cmd.Run A).
Proof. reflexivity. Qed.

Lemma straight_emit e : straight [e] (cmd.emit e).
Proof. reflexivity. Qed.

Lemma straight_bind {A B : Type} full1 full2
    (m : cmd.Run A) (k : A -> cmd.Run B) :
  straight full1 m -> (forall a, straight full2 (k a)) ->
  straight (full1 ++ full2)%list (m ≫= k).
Proof.
  unfold straight. rewrite bind_outcome, bind_trace. intros Hm Hk.
  destruct (cmd.outcome m) as [a|[msg|msg| |]]; try done.
  - specialize (Hk a). rewrite Hm.
    destruct (cmd.outcome (k a)) as [b|[msg|msg| |]]; try done.
    + by rewrite Hk.
    + by apply prefix_app.
  - rewrite app_nil_r. by apply prefix_app_r.
Qed.

Lemma straight_rewriteLeftRight {T : Type} `{Struct T}
    (get : Database -> list (option T)) set table IDName from changes
    (st : St) :
  straight [cmd.Rewrite cmd.LeftAndRight table IDName from]
    (cmd.rewriteLeftRight merger_UpdateIDs User get set table IDName from
       changes st).
Proof.
  unfold straight, cmd.rewriteLeftRight.
  destruct (merger_UpdateIDs T _ _ _ IDName changes) as [[l r]|msg]; simpl.
  - reflexivity.
  - apply prefix_nil.
Qed.

Lemma straight_rewriteMerged {T : Type} `{Struct T}
    (get : Database -> list (option T)) set table IDName from changes
    (st : St) :
  straight [cmd.Rewrite cmd.MergedOnly table IDName from]
    (cmd.rewriteMerged merger_UpdateIDs User get set table IDName from
       changes st).
Proof.
  unfold straight, cmd.rewriteMerged.
  destruct (merger_UpdateIDs T _ _ _ IDName changes) as [[l r]|msg]; simpl.
  - reflexivity.
  - apply prefix_nil.
Qed.

Lemma straight_conflictLoop {A : Type} fuel step
    (call : St -> gmap string MergeSolution.t ->
            A * IDChanges.t * option MergeError)
    onSuccess solution (st : St) full :
  (forall st0 solution0, (call st0 solution0).2 = None) ->
  (forall a c st0, straight full (onSuccess a c st0)) ->
  straight (cmd.Call step :: cmd.Merged step :: full)
    (cmd.conflictLoop User AskOne (S fuel) step call onSuccess solution st).
Proof.
  intros Hcall Hsucc. cbn [cmd.conflictLoop].
  apply (straight_bind [cmd.Call step] (cmd.Merged step :: full));
    [apply straight_emit|]. intros _.
  specialize (Hcall st solution).
  destruct (call st solution) as [[result changes] err]. simpl in Hcall.
  subst err.
  apply (straight_bind [cmd.Merged step] full); [apply straight_emit|].
  intros _. apply Hsucc.
Qed.

(** X24.  When none of the five merge functions of the loops reports an
    error, a run of [merge] asks nothing and calls each merge function
    once: its events are the first events of the run without conflicts, all
    of them when it returns, and it ends by returning or by a panic, which
    only an FK rewrite can raise. *)
Theorem merge_without_errors fuel (left right : Database) (u : User) :
  (0 < fuel)%nat ->
  (forall l r sol, (MergeBookmarks l r sol).2 = None) ->
  (forall l r sol, (MergeTags l r sol).2 = None) ->
  (forall l r sol, (MergeTagMaps l r sol).2 = None) ->
  (forall lu lb ru rb sol,
     (MergeUserMarkAndBlockRange lu lb ru rb sol).2 = None) ->
  (forall l r sol, (MergeNotes l r sol).2 = None) ->
  cmd.trace (merge fuel left right u) `prefix_of` straightRun /\
  (forall st', cmd.outcome (merge fuel left right u) = cmd.Done st' ->
     cmd.trace (merge fuel left right u) = straightRun) /\
  (forall f, cmd.outcome (merge fuel left right u) = cmd.Stop f ->
     exists msg, f = cmd.Panicked msg).
Proof.
  intros Hfuel Hb Ht Hm Hu Hn.
  destruct fuel as [|fuel]; [lia|].
  assert (Hrun : straight straightRun (merge (S fuel) left right u)).
  { unfold cmd.merge.
    apply (straight_bind (cmd.Call cmd.Locations ::
                          cmd.completed cmd.Locations)).
    { unfold cmd.mergeLocations.
      apply (straight_bind [cmd.Call cmd.Locations]
               (cmd.completed cmd.Locations)); [apply straight_emit|].
      intros _.
      destruct (MergeLocations _ _) as [[mergedLocations changes] err].
      apply (straight_bind [cmd.Merged cmd.Locations]);
        [apply straight_emit|]. intros _.
      apply (straight_bind [_]); [apply straight_rewriteLeftRight|].
      intros st1.
      apply (straight_bind [_]); [apply straight_rewriteLeftRight|].
      intros st2.
      apply (straight_bind [_]); [apply straight_rewriteLeftRight|].
      intros st3. apply straight_rewriteLeftRight. }
    intros st1.
    apply (straight_bind (cmd.Call cmd.Bookmarks ::
                          cmd.completed cmd.Bookmarks)).
    { apply straight_conflictLoop; [intros; apply Hb|].
      intros. apply straight_ret. }
    intros st2.
    apply (straight_bind (cmd.Call cmd.Tags :: cmd.completed cmd.Tags)).
    { apply straight_conflictLoop; [intros; apply Ht|].
      intros. apply straight_rewriteLeftRight. }
    intros st3.
    apply (straight_bind (cmd.Call cmd.TagMaps ::
                          cmd.completed cmd.TagMaps)).
    { apply straight_conflictLoop; [intros; apply Hm|].
      intros. apply straight_ret. }
    intros st4.
    apply (straight_bind (cmd.Call cmd.UserMarks ::
                          cmd.completed cmd.UserMarks)
             (cmd.Call cmd.Notes :: cmd.completed cmd.Notes)).
    { apply straight_conflictLoop.
      - intros st0 sol. specialize (Hu (Database.UserMark (cmd.left st0))
          (Database.BlockRange (cmd.left st0))
          (Database.UserMark (cmd.right st0))
          (Database.BlockRange (cmd.right st0)) sol).
        destruct (MergeUserMarkAndBlockRange _ _ _ _ _) as [[[a b] c] e].
        exact Hu.
      - intros [a b] c st0. apply straight_rewriteLeftRight. }
    intros st5.
    apply straight_conflictLoop; [intros; apply Hn|].
    intros. apply straight_rewriteMerged. }
  unfold straight in Hrun.
  destruct (cmd.outcome (merge (S fuel) left right u)) as [st|[msg|msg| |]];
    try done.
  - rewrite Hrun. split; [done|]. split; [done|discriminate].
  - split; [exact Hrun|]. split; [discriminate|].
    intros f [= <-]. eauto.
Qed.

(** *** A merge that has succeeded is not called again *)

Lemma notBefore_nil (a b : cmd.Event) : cmd.notBefore a b [].
Proof. intros [|? ?] tr2 Heq; discriminate. Qed.

Lemma notBefore_absent (a b : cmd.Event) tr : b ∉ tr -> cmd.notBefore a b tr.
Proof.
  intros Hb tr1 tr2 ->. exfalso. apply Hb. apply elem_of_app. right. left.
Qed.

Lemma notBefore_cons (a b e : cmd.Event) tr :
  e <> a -> cmd.notBefore a b tr -> cmd.notBefore a b (e :: tr).
Proof.
  intros Hne Htr [|x tr1] tr2 Heq Hin; [by apply elem_of_nil in Hin|].
  injection Heq as <- ->.
  apply elem_of_cons in Hin as [->|Hin]; [done|].
  by apply (Htr tr1 tr2).
Qed.

Lemma notBefore_app (a b : cmd.Event) t1 t2 :
  cmd.notBefore a b t1 -> cmd.notBefore a b t2 -> (a ∈ t1 -> b ∉ t2) ->
  cmd.notBefore a b (t1 ++ t2).
Proof.
  induction t1 as [|e t1 IH]; intros H1 H2 Hx; [exact H2|].
  intros [|x tr1] tr2 Heq Hin; [by apply elem_of_nil in Hin|].
  simpl in Heq. injection Heq as <- Heq.
  assert (H1' : cmd.notBefore a b t1).
  { intros tr1' tr2' -> Hin'. apply (H1 (e :: tr1') tr2'); [done|by right]. }
  apply elem_of_cons in Hin as [->|Hin].
  - assert (Hb : b ∈ (t1 ++ t2)%list).
    { rewrite Heq. apply elem_of_app. right. left. }
    apply elem_of_app in Hb as [Hb|Hb]; [|by apply Hx; [left|]].
    apply list_elem_of_split in Hb as (l1 & l2 & ->).
    apply (H1 (e :: l1) l2); [done|left].
  - refine (IH H1' H2 _ tr1 tr2 Heq Hin).
    intros Ha. apply Hx. by right.
Qed.

Lemma bind_rewrites {A B : Type} (m : cmd.Run A) (k : A -> cmd.Run B) :
  Forall (fun e => isRewrite e = true) (cmd.trace m) ->
  (forall a, Forall (fun e => isRewrite e = true) (cmd.trace (k a))) ->
  Forall (fun e => isRewrite e = true) (cmd.trace (m ≫= k)).
Proof.
  intros Hm Hk. rewrite bind_trace. apply Forall_app. split; [exact Hm|].
  destruct (cmd.outcome m); [apply Hk|constructor].
Qed.

Lemma rewriteLeftRight_rewrites {T : Type} `{Struct T}
    (get : Database -> list (option T)) set table IDName from changes
    (st : St) :
  Forall (fun e => isRewrite e = true)
    (cmd.trace (cmd.rewriteLeftRight merger_UpdateIDs User get set table
                  IDName from changes st)).
Proof.
  unfold cmd.rewriteLeftRight.
  destruct (merger_UpdateIDs T _ _ _ IDName changes) as [[l r]|msg]; simpl;
    repeat constructor.
Qed.

Lemma rewriteMerged_rewrites {T : Type} `{Struct T}
    (get : Database -> list (option T)) set table IDName from changes
    (st : St) :
  Forall (fun e => isRewrite e = true)
    (cmd.trace (cmd.rewriteMerged merger_UpdateIDs User get set table
                  IDName from changes st)).
Proof.
  unfold cmd.rewriteMerged.
  destruct (merger_UpdateIDs T _ _ _ IDName changes) as [[l r]|msg]; simpl;
    repeat constructor.
Qed.

Lemma rewrites_no_Call step tr :
  Forall (fun e => isRewrite e = true) tr -> cmd.Call step ∉ tr.
Proof.
  intros Hall Hin. rewrite Forall_forall in Hall.
  specialize (Hall _ Hin). discriminate.
Qed.

Lemma conflictLoop_no_recall {A : Type} fuel step
    (call : St -> gmap string MergeSolution.t ->
            A * IDChanges.t * option MergeError)
    onSuccess solution (st : St) :
  (forall a c st0,
     Forall (fun e => isRewrite e = true) (cmd.trace (onSuccess a c st0))) ->
  cmd.notBefore (cmd.Merged step) (cmd.Call step)
    (cmd.trace (cmd.conflictLoop User AskOne fuel step call onSuccess
                  solution st)).
Proof.
  intros Hsucc. revert solution st.
  induction fuel as [|fuel IH]; intros solution st; [apply notBefore_nil|].
  cbn [cmd.conflictLoop]. rewrite bind_trace. cbn [cmd.emit cmd.outcome cmd.trace].
  apply notBefore_cons; [discriminate|].
  destruct (call st solution) as [[result changes] [[conflicts|msg]|]];
    rewrite ?bind_trace; cbn [cmd.emit cmd.stop cmd.outcome cmd.trace app].
  - apply notBefore_cons; [discriminate|].
    unfold cmd.handleMergeConflict.
    destruct (cmd.askAll User AskOne (map_to_list conflicts) ∅
                (cmd.user st)) as [[solution' u]|f]; simpl.
    + apply IH.
    + apply notBefore_nil.
  - apply notBefore_nil.
  - apply notBefore_absent. intros Hin.
    apply elem_of_cons in Hin as [?|Hin]; [discriminate|].
    by apply (rewrites_no_Call step) in Hin.
Qed.

Lemma noRecall_bind {A B : Type} (step : cmd.Step)
    (m : cmd.Run A) (k : A -> cmd.Run B) :
  Forall (cmd.allowed step) (cmd.trace m) ->
  cmd.notBefore (cmd.Merged step) (cmd.Call step) (cmd.trace m) ->
  (forall a, noRecall (S (cmd.rank step)) (k a)) ->
  noRecall (cmd.rank step) (m ≫= k).
Proof.
  intros Hall Hm Hk. rewrite Forall_forall in Hall.
  assert (Hstep : forall e, e ∈ cmd.trace m -> cmd.stepOf e = step).
  { intros e He. by apply allowed_stepOf, Hall. }
  assert (Hother : forall s,
            cmd.notBefore (cmd.Merged s) (cmd.Call s) (cmd.trace m)).
  { intros s. destruct (decide (s = step)) as [->|Hne]; [exact Hm|].
    apply notBefore_absent. intros Hin. by apply Hstep in Hin. }
  unfold noRecall. rewrite bind_trace.
  destruct (cmd.outcome m) as [a|f].
  - destruct (Hk a) as [Hrk Hka]. split.
    + intros e He. apply elem_of_app in He as [He|He].
      * by rewrite (Hstep e He).
      * specialize (Hrk e He). lia.
    + intros s. apply notBefore_app; [apply Hother|apply Hka|].
      intros Hin Hcall. apply Hstep in Hin. simpl in Hin. subst s.
      specialize (Hrk _ Hcall). simpl in Hrk. lia.
  - rewrite app_nil_r. split; [|exact Hother].
    intros e He. by rewrite (Hstep e He).
Qed.

Lemma noRecall_last {A : Type} (step : cmd.Step) (m : cmd.Run A) :
  Forall (cmd.allowed step) (cmd.trace m) ->
  cmd.notBefore (cmd.Merged step) (cmd.Call step) (cmd.trace m) ->
  noRecall (cmd.rank step) m.
Proof.
  intros Hall Hm. rewrite Forall_forall in Hall.
  assert (Hstep : forall e, e ∈ cmd.trace m -> cmd.stepOf e = step).
  { intros e He. by apply allowed_stepOf, Hall. }
  split.
  - intros e He. by rewrite (Hstep e He).
  - intros s. destruct (decide (s = step)) as [->|Hne]; [exact Hm|].
    apply notBefore_absent. intros Hin. by apply Hstep in Hin.
Qed.

Lemma mergeLocations_no_recall (st : St) :
  cmd.notBefore (cmd.Merged cmd.Locations) (cmd.Call cmd.Locations)
    (cmd.trace (cmd.mergeLocations MergeLocations merger_UpdateIDs User st)).
Proof.
  unfold cmd.mergeLocations. rewrite bind_trace.
  cbn [cmd.emit cmd.outcome cmd.trace app].
  apply notBefore_cons; [discriminate|].
  destruct (MergeLocations _ _) as [[mergedLocations changes] err].
  rewrite bind_trace. cbn [cmd.emit cmd.outcome cmd.trace app].
  apply notBefore_absent. intros Hin.
  apply elem_of_cons in Hin as [?|Hin]; [discriminate|].
  revert Hin. apply rewrites_no_Call.
  repeat (apply bind_rewrites; [apply rewriteLeftRight_rewrites|intros ?]).
  apply rewriteLeftRight_rewrites.
Qed.

(** X25.  A merge function whose result is stored is not called again: in
    every run of [merge], for each of the six merges, no call of its merge
    function comes after the merge has succeeded. *)
Theorem merge_no_call_after_success fuel (left right : Database) (u : User)
    (step : cmd.Step) :
  cmd.notBefore (cmd.Merged step) (cmd.Call step)
    (cmd.trace (merge fuel left right u)).
Proof.
  assert (Hall : noRecall 0 (merge fuel left right u)); [|apply Hall].
  unfold cmd.merge.
  apply (noRecall_bind cmd.Locations);
    [apply mergeLocations_oneMerge|apply mergeLocations_no_recall|].
  intros st1.
  apply (noRecall_bind cmd.Bookmarks);
    [apply mergeBookmarks_oneMerge| |].
  { apply conflictLoop_no_recall. intros. constructor. }
  intros st2.
  apply (noRecall_bind cmd.Tags); [apply mergeTags_oneMerge| |].
  { apply conflictLoop_no_recall. intros. apply rewriteLeftRight_rewrites. }
  intros st3.
  apply (noRecall_bind cmd.TagMaps); [apply mergeTagMaps_oneMerge| |].
  { apply conflictLoop_no_recall. intros. constructor. }
  intros st4.
  apply (noRecall_bind cmd.UserMarks); [apply mergeUserMarks_oneMerge| |].
  { apply conflictLoop_no_recall. intros [a b] c st0.
    apply rewriteLeftRight_rewrites. }
  intros st5.
  apply (noRecall_last cmd.Notes); [apply mergeNotes_oneMerge|].
  apply conflictLoop_no_recall. intros. apply rewriteMerged_rewrites.
Qed.
End merge_more.

(** With the merger package that skips a [nil], the run of the backups of
    [Stub] returns, after all the events of a run without conflicts. *)
Lemma Straight_merge_run :
  exists st',
    Straight.merge Stub.changes 1 Stub.left Stub.right tt =
      cmd.mkRun straightRun (cmd.Done st').
Proof. eexists. vm_compute. reflexivity. Qed.

Lemma handleMergeConflict_solutions_witness :
  exists side,
    ({["1_1" := MergeSolution.mk LeftSide (PBookmark TwoBookmarks.b1)
                  (PBookmark TwoBookmarks.b2)]}
       : gmap string MergeSolution.t) !! "1_1" =
    Some (solutionOf side
            (MergeConflict.mk (PBookmark TwoBookmarks.b1)
               (PBookmark TwoBookmarks.b2))).
Proof.
  assert (Hrun :
    cmd.outcome
      (cmd.handleMergeConflict unit Stub.AskOne
         {["1_1" := MergeConflict.mk (PBookmark TwoBookmarks.b1)
                      (PBookmark TwoBookmarks.b2)]}
         (cmd.mkSt Stub.left Stub.right Database.zero tt)) =
    cmd.Done
      ({["1_1" := MergeSolution.mk LeftSide (PBookmark TwoBookmarks.b1)
                    (PBookmark TwoBookmarks.b2)]},
       cmd.mkSt Stub.left Stub.right Database.zero tt)).
  { vm_compute. reflexivity. }
  exact (handleMergeConflict_solutions unit Stub.AskOne _ _ _ _ Hrun "1_1").
Defined.

Lemma merge_ignores_Locations_error_witness :
  cmd.merge (TagT:=Empty_set) (BlockRangeT:=Empty_set)
    (TagMapT:=TagMap.t) (NoteT:=Note.t)
    (Straight.MergeLocations Stub.changes) Stub.Merge Stub.Merge Stub.Merge
    Stub.MergeUserMarkAndBlockRange Stub.Merge Straight.UpdateIDs unit
    Stub.AskOne 1 Stub.left Stub.right tt =
  Straight.merge Stub.changes 1 Stub.left Stub.right tt.
Proof.
  unfold Straight.merge. apply merge_ignores_Locations_error. reflexivity.
Defined.

Lemma merge_one_after_the_other_witness :
  cmd.notBefore (cmd.Call cmd.Notes) (cmd.Call cmd.Locations)
    (cmd.trace (Straight.merge Stub.changes 1 Stub.left Stub.right tt)) /\
  cmd.precedes (cmd.Rewrite cmd.LeftAndRight cmd.TNote "LocationID"
                  cmd.Locations)
    (cmd.Call cmd.Notes)
    (cmd.trace (Straight.merge Stub.changes 1 Stub.left Stub.right tt)).
Proof.
  unfold Straight.merge.
  destruct (merge_one_after_the_other
              (Stub.MergeLocations Stub.changes) Stub.Merge Stub.Merge
              Stub.Merge Stub.MergeUserMarkAndBlockRange Stub.Merge
              Straight.UpdateIDs unit Stub.AskOne 1 Stub.left Stub.right tt
              (cmd.Call cmd.Locations) (cmd.Call cmd.Notes))
    as [Hnot Hpre]; [simpl; lia|].
  split; [exact Hnot|]. apply Hpre. simpl. do 3 right. left.
Defined.


Lemma merge_keeps_inputs_witness :
  exists st',
    cmd.outcome (Straight.merge Stub.changes 1 Stub.left Stub.right tt)
      = cmd.Done st' /\
    untouched Stub.left (cmd.left st') /\
    untouched Stub.right (cmd.right st') /\
    Database.Location (cmd.merged st') = Database.Location Stub.left.
Proof.
  destruct Straight_merge_run as [st' Hrun]. exists st'.
  assert (Hout : cmd.outcome
                   (Straight.merge Stub.changes 1 Stub.left Stub.right tt)
                 = cmd.Done st') by (by rewrite Hrun).
  split; [exact Hout|].
  apply (merge_keeps_inputs
           (Stub.MergeLocations Stub.changes) Stub.Merge Stub.Merge
           Stub.Merge Stub.MergeUserMarkAndBlockRange Stub.Merge
           Straight.UpdateIDs unit Stub.AskOne 1 Stub.left Stub.right tt st'
           Hout).
Defined.

Lemma merge_without_errors_witness :
  cmd.trace (Stub.merge Stub.changes 1 Stub.left Stub.right tt)
    `prefix_of` straightRun.
Proof.
  unfold Stub.merge.
  apply (merge_without_errors
           (Stub.MergeLocations Stub.changes) Stub.Merge Stub.Merge
           Stub.Merge Stub.MergeUserMarkAndBlockRange Stub.Merge
           (@merger.UpdateIDs) unit Stub.AskOne 1 Stub.left Stub.right tt);
    [lia|reflexivity..].
Defined.

(** ** [sortByUniqueKey]: the rows, and a second run *)

Lemma ltb_false_leb (a b : string) :
  String.ltb b a = false <-> String.leb a b = true.
Proof.
  unfold String.ltb, String.leb. rewrite (String.compare_antisym a b).
  destruct (String.compare b a); simpl; split; (done || discriminate).
Qed.

Lemma inOrder_less_trans {T : Type} `{Model T} :
  Transitive (inOrder (less (T:=T))).
Proof.
  intros [a|] [b|] [c|]; unfold inOrder; simpl; try done.
  rewrite !ltb_false_leb. intros Hab Hbc.
  apply Is_true_true. apply Is_true_true in Hab, Hbc.
  by apply (transitivity (R:=String.le) Hab Hbc).
Qed.

Section sortByUniqueKey_again_facts.
Context {T : Type} `{LawfulModel T}.
Implicit Types (s l : list (option T)) (m : T).

Lemma omap_trimNils l :
  Sorted (inOrder less) l -> omap id (trimNils l) = omap id l.
Proof.
  intros Hs. destruct (nilCount l) as [|n] eqn:Hn.
  - unfold trimNils. by rewrite Hn.
  - rewrite (trimNils_shape l Hs) by lia.
    destruct (sorted_shape l Hs) as [Heq _].
    set (rows := drop (nilCount l) l) in *. clearbody rows.
    simpl. rewrite Heq. by rewrite omap_app, omap_replicate_None.
Qed.

Lemma nilCount_trimNils l :
  Sorted (inOrder less) l -> (nilCount (trimNils l) <= 1)%nat.
Proof.
  intros Hs. destruct (nilCount l) as [|n] eqn:Hn.
  - unfold trimNils. rewrite Hn. simpl. lia.
  - rewrite (trimNils_shape l Hs) by lia.
    destruct (sorted_shape l Hs) as [_ Hrows]. simpl.
    rewrite (nilCount_rows _ Hrows). lia.
Qed.

Lemma nilCount_imap_place (k : nat) l :
  nilCount (imap (fun j => place (k + j)) l) = nilCount l.
Proof.
  revert k. induction l as [|[m|] l IH]; intros k; simpl; [done| |].
  - rewrite <- (IH (S k)). f_equal. apply imap_ext. intros j x _. simpl.
    f_equal. lia.
  - f_equal. rewrite <- (IH (S k)). f_equal. apply imap_ext. intros j x _.
    simpl. f_equal. lia.
Qed.

Lemma omap_imap_place (k : nat) l :
  Forall2 renumbered (omap id l) (omap id (imap (fun j => place (k + j)) l)).
Proof.
  revert k. induction l as [|[m|] l IH]; intros k; simpl; [constructor| |].
  - constructor.
    + destruct (decide (ID m = Z.of_nat (k + 0))); [by left|right; eauto].
    + erewrite imap_ext; [apply (IH (S k))|]. intros j x _. simpl.
      f_equal. lia.
  - erewrite imap_ext; [apply (IH (S k))|]. intros j x _. simpl.
    f_equal. lia.
Qed.

Lemma updateIDsFrom_fixed (k : nat) l (changes : gmap Z Z) :
  (forall (i : nat) m, l !! i = Some (Some m) -> ID m = Z.of_nat (k + i)) ->
  updateIDsFrom k l changes = (l, changes).
Proof.
  revert k. induction l as [|[m|] l IH]; intros k Hid; simpl; [done| |].
  - pose proof (Hid 0%nat m eq_refl) as Hm. rewrite Nat.add_0_r in Hm.
    destruct (decide (ID m = Z.of_nat k)); [|done].
    rewrite IH; [done|]. intros i m' Hi.
    rewrite (Hid (S i) m' Hi). f_equal. lia.
  - rewrite IH; [done|]. intros i m' Hi.
    rewrite (Hid (S i) m' Hi). f_equal. lia.
Qed.
End sortByUniqueKey_again_facts.

Section sortByUniqueKey_again.
Context {T : Type} `{LawfulModel T}.
Implicit Types (s : list (option T)) (m : T).

Variable sort_Slice :
  (option T -> option T -> bool) -> list (option T) -> list (option T).
Hypothesis sort_Slice_perm : forall s, sort_Slice less s ≡ₚ s.
Hypothesis sort_Slice_sorted :
  forall s, Sorted (inOrder less) (sort_Slice less s).

Lemma omap_placed s : omap id (placed sort_Slice s) ≡ₚ omap id s.
Proof.
  unfold placed. rewrite (omap_trimNils _ (sort_Slice_sorted s)).
  by rewrite (sort_Slice_perm s).
Qed.

(** X26.  [sortByUniqueKey] loses no row, makes none twice and changes
    nothing of a row but its ID: the rows of the output are the rows of the
    input in some order, each as it was or with another ID. *)
Theorem sortByUniqueKey_rows s out changes :
  sortByUniqueKey sort_Slice (PtrToSlice s) = Ok (out, changes) ->
  exists rows,
    rows ≡ₚ omap id s /\ Forall2 renumbered rows (omap id out).
Proof.
  simpl. intros [= Hrun].
  assert (Hout : out = imap (fun j => place (0 + j)) (placed sort_Slice s)).
  { pose proof (updateIDsFrom_slice 0 (placed sort_Slice s) ∅) as Hs.
    rewrite Hrun in Hs. exact Hs. }
  exists (omap id (placed sort_Slice s)). split; [apply omap_placed|].
  rewrite Hout. apply omap_imap_place.
Qed.

Context `{!KeptKey T}.

Lemma keys_imap_place (k : nat) (l : list (option T)) :
  UniqueKey <$> omap id (imap (fun j => place (k + j)) l) =
  UniqueKey <$> omap id l.
Proof.
  pose proof (omap_imap_place k l) as Hall.
  induction Hall as [|m m' l1 l2 Hm _ IH]; [done|].
  simpl. f_equal; [|exact IH].
  destruct Hm as [->|[i ->]]; [done|apply UniqueKey_SetID].
Qed.

(** X27.  A table whose rows have different keys is left as it is by a
    second [sortByUniqueKey], which returns the empty map. *)
Theorem sortByUniqueKey_twice s out changes :
  NoDup (UniqueKey <$> omap id s) ->
  sortByUniqueKey sort_Slice (PtrToSlice s) = Ok (out, changes) ->
  sortByUniqueKey sort_Slice (PtrToSlice out) = Ok (out, ∅).
Proof.
  intros Hkeys. simpl. intros [= Hrun].
  assert (Hout : out = imap (fun j => place (0 + j)) (placed sort_Slice s)).
  { pose proof (updateIDsFrom_slice 0 (placed sort_Slice s) ∅) as Hs.
    rewrite Hrun in Hs. exact Hs. }
  assert (Hsorted : Sorted (inOrder less) out).
  { rewrite Hout. apply Sorted_imap_place. unfold placed.
    destruct (trimNils_drop (sort_Slice less s)) as [k ->].
    apply Sorted_drop, sort_Slice_sorted. }
  assert (Hnd : NoDup (UniqueKey <$> omap id out)).
  { rewrite Hout, keys_imap_place. by rewrite (omap_placed s). }
  assert (Hnil : (nilCount out <= 1)%nat).
  { rewrite Hout, nilCount_imap_place. apply nilCount_trimNils.
    apply sort_Slice_sorted. }
  assert (Hsame : sort_Slice less out = out).
  { pose proof (inOrder_less_trans (T:=T)).
    apply (Sorted_unique_strong (inOrder less));
      [|apply sort_Slice_sorted|exact Hsorted|apply sort_Slice_perm].
    intros [m1|] [m2|] Hx1 Hx2; unfold inOrder; simpl; try done.
    rewrite !ltb_false_leb. intros H12 H21.
    pose proof (String.leb_antisym _ _ H21 H12) as Hkey.
    rewrite (sort_Slice_perm out) in Hx1.
    apply list_elem_of_lookup in Hx1 as [i1 Hi1].
    apply list_elem_of_lookup in Hx2 as [i2 Hi2].
    assert (Hrow : forall (i : nat) m, out !! i = Some (Some m) ->
              exists j : nat, omap id out !! j = Some m).
    { intros i m Hi. apply list_elem_of_lookup, list_elem_of_omap.
      exists (Some m). split; [|done]. apply list_elem_of_lookup. eauto. }
    destruct (Hrow _ _ Hi1) as [j1 Hj1]. destruct (Hrow _ _ Hi2) as [j2 Hj2].
    assert (j1 = j2) as ->.
    { apply (NoDup_lookup _ j1 j2 (UniqueKey m1) Hnd).
      - by rewrite list_lookup_fmap, Hj1.
      - rewrite list_lookup_fmap, Hj2. simpl. congruence. }
    congruence. }
  f_equal. unfold placed. rewrite Hsame.
  assert (Htrim : trimNils out = out).
  { unfold trimNils. destruct (1 <? nilCount out)%nat eqn:Hn; [|done].
    apply Nat.ltb_lt in Hn. lia. }
  rewrite Htrim. apply updateIDsFrom_fixed.
  intros i m. rewrite Hout, list_lookup_imap.
  destruct (placed sort_Slice s !! i) as [x|]; [|discriminate].
  simpl. intros [= Hx]. by apply (place_ID i x).
Qed.
End sortByUniqueKey_again.

Lemma sortByUniqueKey_rows_witness :
  exists rows,
    rows ≡ₚ omap id TwoLocations.slice /\
    Forall2 renumbered rows
      (omap id [None; Some (Location.SetID 1 TwoLocations.locB);
                Some (Location.SetID 2 TwoLocations.locA)]).
Proof.
  assert (Hrun : sortByUniqueKey sort_Slice_merge
                   (PtrToSlice TwoLocations.slice) =
                 Ok ([None; Some (Location.SetID 1 TwoLocations.locB);
                      Some (Location.SetID 2 TwoLocations.locA)],
                     {[2 := 1; 1 := 2]})).
  { vm_compute. reflexivity. }
  exact (sortByUniqueKey_rows sort_Slice_merge (sort_Slice_merge_perm less)
           sort_Slice_merge_sorted _ _ _ Hrun).
Defined.

Lemma sortByUniqueKey_twice_witness :
  sortByUniqueKey sort_Slice_merge
    (PtrToSlice [None; Some (Location.SetID 1 TwoLocations.locB);
                 Some (Location.SetID 2 TwoLocations.locA)]) =
  Ok ([None; Some (Location.SetID 1 TwoLocations.locB);
       Some (Location.SetID 2 TwoLocations.locA)], ∅).
Proof.
  assert (Hrun : sortByUniqueKey sort_Slice_merge
                   (PtrToSlice TwoLocations.slice) =
                 Ok ([None; Some (Location.SetID 1 TwoLocations.locB);
                      Some (Location.SetID 2 TwoLocations.locA)],
                     {[2 := 1; 1 := 2]})).
  { vm_compute. reflexivity. }
  assert (Hkeys : NoDup (UniqueKey <$> omap id TwoLocations.slice)).
  { apply (bool_decide_unpack _). vm_compute. exact I. }
  exact (sortByUniqueKey_twice sort_Slice_merge (sort_Slice_merge_perm less)
           sort_Slice_merge_sorted _ _ _ Hkeys Hrun).
Defined.
